(** * Defender: the simulation core of [defender.py], embedded and verified

    The development follows the layout of the Python module: the
    compiled-in constants, the world-ring helpers ([wrap_position],
    [shortest_offset]), the colonist ([Human]), the player's extra-life
    and hyperspace logic ([Player]), the capturing hostile ([Lander]),
    and the wave director ([DefenderGame]: wave composition, the pending
    spawn heap, the hyperspace jump).

    Python floats are modelled by exact rationals ([Q]); rounding is not
    modelled.  [math.sin] (used by [terrain_height]) is kept abstract as a
    section variable wherever a function reads the terrain.  The ambient
    random source is an explicit stream of draws that is threaded through
    the functions that consume it. *)

From Stdlib Require Import QArith Qround Qabs ZArith List Lia Lqa Bool.
From Stdlib Require Import Permutation Sorted.
From coqutil Require Import Datatypes.RecordSetters.
Import ListNotations.
Import TriangleBracketNotations.

Open Scope Q_scope.

(** ** Comparisons on rationals, as booleans *)

Definition Qlt_bool (x y : Q) : bool := negb (Qle_bool y x).

Lemma Qlt_bool_iff (x y : Q) : Qlt_bool x y = true <-> x < y.
Proof.
  unfold Qlt_bool. rewrite negb_true_iff.
  split; intro H.
  - apply Qnot_le_lt. intro Hle. apply Qle_bool_iff in Hle. congruence.
  - destruct (Qle_bool y x) eqn:E; [|reflexivity].
    apply Qle_bool_iff in E. exfalso. apply (Qlt_not_le _ _ H E).
Qed.

Lemma Qlt_bool_false_iff (x y : Q) : Qlt_bool x y = false <-> y <= x.
Proof.
  unfold Qlt_bool. rewrite negb_false_iff. apply Qle_bool_iff.
Qed.

Lemma Qle_bool_false_iff (x y : Q) : Qle_bool x y = false <-> y < x.
Proof.
  split; intro H.
  - apply Qnot_le_lt. intro Hle. apply Qle_bool_iff in Hle. congruence.
  - destruct (Qle_bool x y) eqn:E; [|reflexivity].
    apply Qle_bool_iff in E. exfalso. apply (Qlt_not_le _ _ H E).
Qed.

(** Case analysis on a boolean comparison, leaving the order fact in the
    context. *)
Ltac qcases :=
  repeat match goal with
  | |- context [Qlt_bool ?a ?b] =>
      let E := fresh "E" in
      destruct (Qlt_bool a b) eqn:E;
      [apply Qlt_bool_iff in E | apply Qlt_bool_false_iff in E]
  | |- context [Qle_bool ?a ?b] =>
      let E := fresh "E" in
      destruct (Qle_bool a b) eqn:E;
      [apply Qle_bool_iff in E | apply Qle_bool_false_iff in E]
  end.

(** Reading a field back after record updates [r <| f := v |>]. *)
Ltac rsimpl := cbn; unfold constant; cbn.
Ltac rsimpl_in H := cbn in H; unfold constant in H; cbn in H.

(** [max], [min] and [clamp] as the Python built-ins compute them. *)
Definition Qmax (a b : Q) : Q := if Qlt_bool a b then b else a.
Definition Qmin (a b : Q) : Q := if Qlt_bool b a then b else a.

(** [clamp(value, low, high) = max(low, min(high, value))] *)
Definition clamp (value low high : Q) : Q := Qmax low (Qmin high value).

(** Python's [a % w] on floats for a positive modulus: the result takes
    the sign of the divisor. *)
Definition py_mod (a w : Q) : Q := a - w * inject_Z (Qfloor (a / w)).

(** ** Screen and world configuration *)

Definition SCREEN_WIDTH : Q := 1180.
Definition SCREEN_HEIGHT : Q := 760.
Definition WORLD_WIDTH : Q := 6000.
Definition HUD_HEIGHT : Q := 110.
Definition PLAYFIELD_TOP : Q := HUD_HEIGHT + 60.

(** ** Helper utilities *)

(** [wrap_position]: one conditional step, as in the source. *)
Definition wrap_position (x : Q) : Q :=
  if Qlt_bool x 0 then x + WORLD_WIDTH
  else if Qle_bool WORLD_WIDTH x then x - WORLD_WIDTH
  else x.

(** [shortest_offset]: [raw = (a - b) % WORLD_WIDTH], folded into the
    half-open interval around zero. *)
Definition shortest_offset (a b : Q) : Q :=
  let raw := py_mod (a - b) WORLD_WIDTH in
  if Qlt_bool (WORLD_WIDTH / 2) raw then raw - WORLD_WIDTH else raw.

(** *** Facts about the helpers *)

Lemma WORLD_WIDTH_val : WORLD_WIDTH == 6000.
Proof. reflexivity. Qed.

Lemma half_WORLD_WIDTH : WORLD_WIDTH / 2 == 3000.
Proof. reflexivity. Qed.

Lemma py_mod_range (a w : Q) : 0 < w -> 0 <= py_mod a w /\ py_mod a w < w.
Proof.
  intro Hw. unfold py_mod.
  assert (Hlo := Qfloor_le (a / w)).
  assert (Hhi := Qlt_floor (a / w)).
  assert (Ha : a == (a / w) * w) by (field; intro Hz; rewrite Hz in Hw; inversion Hw).
  set (q := a / w) in *. set (f := inject_Z (Qfloor q)) in *.
  assert (Hhi' : q < f + 1).
  { unfold f. rewrite inject_Z_plus in Hhi. exact Hhi. }
  split.
  - rewrite Ha at 1. nra.
  - rewrite Ha at 1. nra.
Qed.

Lemma Qfloor_unique (q : Q) (k : Z) :
  inject_Z k <= q -> q < inject_Z k + 1 -> Qfloor q = k.
Proof.
  intros Hlo Hhi.
  assert (H1 := Qfloor_le q). assert (H2 := Qlt_floor q).
  rewrite inject_Z_plus in H2. change (inject_Z 1) with 1 in H2.
  assert (Ha : inject_Z (Qfloor q) < inject_Z k + 1) by lra.
  assert (Hb : inject_Z k < inject_Z (Qfloor q) + 1) by lra.
  change 1 with (inject_Z 1) in Ha, Hb. rewrite <- inject_Z_plus in Ha, Hb.
  rewrite <- Zlt_Qlt in Ha, Hb. lia.
Qed.

Lemma shortest_offset_bounds (a b : Q) :
  - (WORLD_WIDTH / 2) < shortest_offset a b /\ shortest_offset a b <= WORLD_WIDTH / 2.
Proof.
  unfold shortest_offset. cbv zeta.
  destruct (py_mod_range (a - b) WORLD_WIDTH) as [Hlo Hhi]; [reflexivity|].
  remember (py_mod (a - b) WORLD_WIDTH) as raw eqn:Hraw. clear Hraw.
  assert (Hh := half_WORLD_WIDTH).
  qcases; unfold WORLD_WIDTH in *; split; lra.
Qed.

(** * C1 *)

(** C1: [wrap_position] at [-7000].  The docstring of [wrap_position]
    promises a coordinate wrapped into [[0, WORLD_WIDTH)], and C1 says
    so for every [x], with idempotence.  The single [if]/[elif] adds
    or subtracts [WORLD_WIDTH] once only: the code returns [-1000],
    which is not in range, and a second application moves it again, to
    [5000]. *)
Lemma wrap_position_far_left :
  wrap_position (-7000) == -1000 /\
  ~ (0 <= wrap_position (-7000) /\ wrap_position (-7000) < WORLD_WIDTH) /\
  wrap_position (wrap_position (-7000)) == 5000 /\
  ~ wrap_position (wrap_position (-7000)) == wrap_position (-7000).
Proof.
  split; [reflexivity|]. split; [|split; [reflexivity|]].
  - intros [H _]. vm_compute in H. apply H. reflexivity.
  - intro H. vm_compute in H. discriminate H.
Qed.

(** * C2 *)

(** C2: the round trip at [a = 13000], [b = 0].  [shortest_offset]
    reduces modulo the world width and returns [1000], so the left
    side is [wrap_position 1000 = 1000]; [wrap_position], which takes
    one step only where its docstring promises a result in
    [[0, WORLD_WIDTH)], returns [7000] for [13000].  The two sides that
    C2 says are equal differ. *)
Lemma shortest_offset_roundtrip_far :
  shortest_offset 13000 0 == 1000 /\
  wrap_position (0 + shortest_offset 13000 0) == 1000 /\
  wrap_position 13000 == 7000 /\
  ~ wrap_position (0 + shortest_offset 13000 0) == wrap_position 13000.
Proof.
  split; [reflexivity|]. split; [reflexivity|]. split; [reflexivity|].
  intro H. vm_compute in H. discriminate H.
Qed.

(** * Wave composition ([DefenderGame.wave_composition]) *)

(** The dictionary returned by [wave_composition], one field per key. *)
Record Composition : Type := mkComposition {
  landers : Z;
  bombers : Z;
  pods : Z;
  mutants : Z;
  swarmer : Z;
  baiters : Z
}.

(** Python's [//] is floor division, which is [Z.div] for the positive
    divisor used here. *)
Definition wave_composition (wave : Z) : Composition :=
  if (wave =? 1)%Z then mkComposition 10 0 0 0 0 0
  else if (wave =? 2)%Z then mkComposition 12 2 0 0 0 0
  else if (wave =? 3)%Z then mkComposition 14 3 0 0 0 0
  else if (wave =? 4)%Z then mkComposition 16 4 0 0 0 0
  else if (wave =? 5)%Z then mkComposition 18 5 3 0 0 0
  else
    let bonus := (wave - 5)%Z in
    let landers := Z.min 24 (18 + bonus) in
    let bombers := (5 + bonus / 2)%Z in
    let pods := (3 + Z.max 0 ((bonus - 1) / 2))%Z in
    let swarmers := 0%Z in
    mkComposition landers bombers pods 0 swarmers 0.

(** Pointwise order on compositions. *)
Definition composition_le (c d : Composition) : Prop :=
  (landers c <= landers d)%Z /\ (bombers c <= bombers d)%Z /\
  (pods c <= pods d)%Z /\ (mutants c <= mutants d)%Z /\
  (swarmer c <= swarmer d)%Z /\ (baiters c <= baiters d)%Z.

(** From wave 6 on the closed formula applies. *)
Lemma wave_composition_late (wave : Z) :
  (6 <= wave)%Z ->
  wave_composition wave =
  mkComposition (Z.min 24 (13 + wave)) (5 + (wave - 5) / 2)
                (3 + Z.max 0 ((wave - 6) / 2)) 0 0 0.
Proof.
  intro H. unfold wave_composition.
  repeat match goal with
  | |- context [(?a =? ?b)%Z] => destruct (Z.eqb_spec a b); [lia|]
  end.
  cbv zeta. f_equal; try lia.
  replace (wave - 5 - 1)%Z with (wave - 6)%Z by lia. reflexivity.
Qed.

Lemma wave_composition_step (n : Z) :
  (1 <= n)%Z -> composition_le (wave_composition n) (wave_composition (n + 1)).
Proof.
  intro Hn.
  destruct (Z_lt_le_dec n 6) as [Hsmall | Hbig].
  - assert (Hc : n = 1%Z \/ n = 2%Z \/ n = 3%Z \/ n = 4%Z \/ n = 5%Z) by lia.
    destruct Hc as [-> | [-> | [-> | [-> | ->]]]];
      vm_compute; repeat split; discriminate.
  - rewrite (wave_composition_late n), (wave_composition_late (n + 1)) by lia.
    unfold composition_le; cbn [landers bombers pods mutants swarmer baiters].
    assert (H1 : ((n - 5) / 2 <= (n + 1 - 5) / 2)%Z)
      by (apply Z.div_le_mono; lia).
    assert (H2 : ((n - 6) / 2 <= (n + 1 - 6) / 2)%Z)
      by (apply Z.div_le_mono; lia).
    repeat split; lia.
Qed.

(** * C6 *)

(** C6, as stated, fails in its ceiling half: only the lander count is
    capped ([min(24, ...)]); the bomber count [5 + bonus // 2] exceeds
    every proposed ceiling at some wave (and so does the pod count). *)
Lemma wave_composition_bombers_unbounded :
  ~ (exists ceiling : Z,
       forall n : Z, (1 <= n)%Z -> (bombers (wave_composition n) <= ceiling)%Z).
Proof.
  intros [c Hc].
  specialize (Hc (Z.max 6 (2 * c + 5))%Z ltac:(lia)).
  rewrite wave_composition_late in Hc by lia. cbn [bombers] in Hc.
  assert (H : (c <= (Z.max 6 (2 * c + 5) - 5) / 2)%Z).
  { apply Z.div_le_lower_bound; lia. }
  lia.
Qed.

(** The pod count [3 + max(0, (bonus - 1) // 2)] has no ceiling
    either. *)
Lemma wave_composition_pods_unbounded :
  ~ (exists ceiling : Z,
       forall n : Z, (1 <= n)%Z -> (pods (wave_composition n) <= ceiling)%Z).
Proof.
  intros [c Hc].
  specialize (Hc (Z.max 6 (2 * c + 6))%Z ltac:(lia)).
  rewrite wave_composition_late in Hc by lia. cbn [pods] in Hc.
  assert (H : (c <= (Z.max 6 (2 * c + 6) - 6) / 2)%Z).
  { apply Z.div_le_lower_bound; lia. }
  lia.
Qed.

(** C6 (amended): for every wave number [n >= 1], no category's count
    decreases from wave [n] to wave [n + 1]; the lander count never
    exceeds 24, and the mutant, swarmer and baiter counts are always 0.
    (Bombers and pods keep growing with the wave number.) *)
Theorem wave_composition_monotone_capped (n : Z) :
  (1 <= n)%Z ->
  composition_le (wave_composition n) (wave_composition (n + 1)) /\
  (landers (wave_composition n) <= 24)%Z /\
  mutants (wave_composition n) = 0%Z /\
  swarmer (wave_composition n) = 0%Z /\
  baiters (wave_composition n) = 0%Z.
Proof.
  intro Hn. split; [apply wave_composition_step; exact Hn|].
  destruct (Z_lt_le_dec n 6) as [Hsmall | Hbig].
  - assert (Hc : n = 1%Z \/ n = 2%Z \/ n = 3%Z \/ n = 4%Z \/ n = 5%Z) by lia.
    destruct Hc as [-> | [-> | [-> | [-> | ->]]]];
      vm_compute; repeat split; discriminate.
  - rewrite (wave_composition_late n) by lia.
    cbn [landers mutants swarmer baiters]. repeat split; lia.
Qed.

Lemma wave_composition_monotone_capped_witness :
  composition_le (wave_composition 5) (wave_composition (5 + 1)) /\
  (landers (wave_composition 5) <= 24)%Z /\
  mutants (wave_composition 5) = 0%Z /\
  swarmer (wave_composition 5) = 0%Z /\
  baiters (wave_composition 5) = 0%Z.
Proof. apply (wave_composition_monotone_capped 5). lia. Defined.

(** * Gameplay tuning *)

Definition GRAVITY : Q := 168.
Definition TERMINAL_VELOCITY : Q := 480.
Definition SAFE_LANDING_HEIGHT_RATIO : Q := 1 / 3.
Definition PLAYER_CRUISE_SPEED : Q := 120.
Definition PLAYER_RESPAWN_INVULN : Q := 2.5.
Definition PLAYER_DEATH_INVULN : Q := 2.
Definition PLAYER_DEATH_RESPAWN_DELAY : Q := 2.
Definition HYPERSPACE_COOLDOWN : Q := 5.
Definition HYPERSPACE_LOCK_DURATION : Q := 0.12.
Definition HYPERSPACE_VANISH_TIME : Q := 0.06.
Definition HYPERSPACE_REAPPEAR_DELAY : Q := 0.09.
Definition HYPERSPACE_REAPPEAR_TIME : Q := 0.06.
Definition HYPERSPACE_STABILIZE_TIME : Q := 0.09.

(** Object references.  A Python reference to a lander or to a colonist
    is an index into the game's collection of that kind; [is] on
    references is equality of indices. *)
Definition LanderRef : Type := nat.
Definition HumanRef : Type := nat.

(** What a colonist's [carrier] attribute can point to. *)
Inductive Carrier : Type :=
| CarrierLander (l : LanderRef)
| CarrierPlayer.

(** A call a sprite makes into its [game] while it updates; the game
    applies it afterwards (see [DefenderGame]). *)
Inductive GameCall : Type :=
| NoCall
| CallExplosion (x y : Q)
| CallColonistCrater (x y : Q)
| CallColonistSafeLanding.

(** * The colonist ([class Human]) *)

Module Human.

Inductive State : Type := ground | captured | falling | dead | carried.

Definition State_eqb (a b : State) : bool :=
  match a, b with
  | ground, ground | captured, captured | falling, falling
  | dead, dead | carried, carried => true
  | _, _ => false
  end.

Record t : Type := mk {
  world_pos_x : Q;
  world_pos_y : Q;
  state : State;
  carrier : option Carrier;
  velocity_x : Q;
  velocity_y : Q;
  visible : bool;
  drop_start_y : Q;
  safe_landing_rewarded : bool;
  reserved_by : option LanderRef
}.

(** [HUMAN_BASE_SURFACE] is 10 by 24 pixels. *)
Definition rect_height : Q := 24.

(** [reserved_by is lander], with [lander] possibly [None]. *)
Definition same_ref (a b : option LanderRef) : bool :=
  match a, b with
  | Some x, Some y => Nat.eqb x y
  | None, None => true
  | _, _ => false
  end.

(** [release_reservation(lander=None)] *)
Definition release_reservation (lander : option LanderRef) (h : t) : t :=
  match lander with
  | None =>
      mk (world_pos_x h) (world_pos_y h) (state h) (carrier h)
         (velocity_x h) (velocity_y h) (visible h) (drop_start_y h)
         (safe_landing_rewarded h) None
  | Some l =>
      if same_ref (reserved_by h) (Some l) then
        mk (world_pos_x h) (world_pos_y h) (state h) (carrier h)
           (velocity_x h) (velocity_y h) (visible h) (drop_start_y h)
           (safe_landing_rewarded h) None
      else h
  end.

(** [reserve_for_lander]: the updated colonist and the returned flag. *)
Definition reserve_for_lander (lander : LanderRef) (h : t) : t * bool :=
  if negb (State_eqb (state h) ground) then (h, false)
  else if negb (same_ref (reserved_by h) None
                || same_ref (reserved_by h) (Some lander)) then (h, false)
  else (mk (world_pos_x h) (world_pos_y h) (state h) (carrier h)
           (velocity_x h) (velocity_y h) (visible h) (drop_start_y h)
           (safe_landing_rewarded h) (Some lander), true).

Definition start_falling (h : t) : t :=
  release_reservation None
    (mk (world_pos_x h) (world_pos_y h) falling None 0 0 true
        (world_pos_y h) false (reserved_by h)).

(** [die]: the colonist afterwards, and the carrier to notify (the
    source calls [carrier.on_captive_removed()] when the carrier has
    that method, which only landers do). *)
Definition die (h : t) : t * option LanderRef :=
  match state h with
  | dead => (h, None)
  | _ =>
      let h' := release_reservation None
                  (mk (world_pos_x h) (world_pos_y h) dead None 0 0 false
                      (drop_start_y h) (safe_landing_rewarded h)
                      (reserved_by h)) in
      match carrier h with
      | Some (CarrierLander l) => (h', Some l)
      | _ => (h', None)
      end
  end.

Definition capture (lander : LanderRef) (h : t) : t :=
  match state h with
  | ground =>
      release_reservation (Some lander)
        (mk (world_pos_x h) (world_pos_y h) captured
            (Some (CarrierLander lander)) (velocity_x h) (velocity_y h)
            (visible h) (drop_start_y h) (safe_landing_rewarded h)
            (reserved_by h))
  | _ => h
  end.

Definition attach_to_player (h : t) : t :=
  release_reservation None
    (mk (world_pos_x h) (world_pos_y h) carried (Some CarrierPlayer) 0 0
        true (drop_start_y h) (safe_landing_rewarded h) (reserved_by h)).

Definition set_safe_landing_rewarded (b : bool) (h : t) : t :=
  mk (world_pos_x h) (world_pos_y h) (state h) (carrier h)
     (velocity_x h) (velocity_y h) (visible h) (drop_start_y h)
     b (reserved_by h).

Section WithTerrain.

(** [terrain_height] is a sum of two sinusoids; it is kept abstract. *)
Variable terrain_height : Q -> Q.

(** Position and rectangle height of whatever a [carrier] reference
    points to, read from the game's collections. *)
Variable carrier_at : Carrier -> Q * Q * Q.

Definition place_on_ground (h : t) : t :=
  let ground_y := terrain_height (world_pos_x h) in
  release_reservation None
    (mk (world_pos_x h) (ground_y - rect_height / 2) ground None 0 0 true
        (drop_start_y h) (safe_landing_rewarded h) (reserved_by h)).

Definition full_span : Q := SCREEN_HEIGHT - PLAYFIELD_TOP.
Definition lethal_height : Q := full_span * SAFE_LANDING_HEIGHT_RATIO.
Definition catastrophic_height : Q := full_span * 0.75.

(** [update(dt)]: the colonist afterwards and the call it makes into
    the game.  The source's local [ground] is [ground_y] here. *)
Definition update (dt : Q) (h : t) : t * GameCall :=
  match state h with
  | falling =>
      let vy := velocity_y h + GRAVITY * dt in
      let vy := Qmin vy TERMINAL_VELOCITY in
      let y := world_pos_y h + vy * dt in
      let ground_y := terrain_height (world_pos_x h) in
      if Qle_bool (ground_y - rect_height / 2) y then
        let y := ground_y - rect_height / 2 in
        let drop_height := Qmax 0 (ground_y - drop_start_y h) in
        if Qle_bool catastrophic_height drop_height then
          (mk (world_pos_x h) y dead (carrier h) 0 0 false
              (drop_start_y h) (safe_landing_rewarded h) (reserved_by h),
           CallExplosion (world_pos_x h) y)
        else if Qlt_bool lethal_height drop_height then
          (mk (world_pos_x h) y dead (carrier h) 0 0 false
              (drop_start_y h) (safe_landing_rewarded h) (reserved_by h),
           CallColonistCrater (world_pos_x h) y)
        else
          (mk (world_pos_x h) y ground (carrier h) 0 0 true
              (drop_start_y h) (safe_landing_rewarded h) (reserved_by h),
           CallColonistSafeLanding)
      else
        (mk (world_pos_x h) y falling (carrier h) (velocity_x h) vy
            (visible h) (drop_start_y h) (safe_landing_rewarded h)
            (reserved_by h), NoCall)
  | captured =>
      match carrier h with
      | Some c =>
          let '(cx, cy, ch) := carrier_at c in
          let offset := ch / 2 + rect_height / 2 - 4 in
          (mk cx (cy + offset) captured (carrier h) (velocity_x h)
              (velocity_y h) (visible h) (drop_start_y h)
              (safe_landing_rewarded h) (reserved_by h), NoCall)
      | None => (h, NoCall)
      end
  | carried =>
      match carrier h with
      | Some c =>
          let '(cx, cy, ch) := carrier_at c in
          let offset := ch / 2 + rect_height / 2 - 6 in
          (mk cx (cy + offset) carried (carrier h) 0 0 (visible h)
              (drop_start_y h) (safe_landing_rewarded h) (reserved_by h),
           NoCall)
      | None => (start_falling h, NoCall)
      end
  | _ => (h, NoCall)
  end.

End WithTerrain.

(** A lander holds an active reservation on a colonist. *)
Definition reserved_for (lander : LanderRef) (h : t) : Prop :=
  reserved_by h = Some lander.

Lemma same_ref_true (a b : option LanderRef) : same_ref a b = true <-> a = b.
Proof.
  destruct a as [x|], b as [y|]; simpl; split; intro H;
    try discriminate; try reflexivity.
  - apply Nat.eqb_eq in H. congruence.
  - injection H as ->. apply Nat.eqb_refl.
Qed.

Lemma State_eqb_true (a b : State) : State_eqb a b = true <-> a = b.
Proof. destruct a, b; simpl; split; intro H; congruence. Qed.

Lemma reserve_for_lander_success (lander : LanderRef) (h h' : t) :
  reserve_for_lander lander h = (h', true) ->
  state h = ground /\
  (reserved_by h = None \/ reserved_by h = Some lander) /\
  reserved_by h' = Some lander /\ state h' = ground.
Proof.
  unfold reserve_for_lander.
  destruct (State_eqb (state h) ground) eqn:Es; simpl; [|discriminate].
  apply State_eqb_true in Es.
  destruct (same_ref (reserved_by h) None) eqn:En; simpl.
  - apply same_ref_true in En. intro H. injection H as <-. simpl. auto.
  - destruct (same_ref (reserved_by h) (Some lander)) eqn:El; simpl;
      [|discriminate].
    apply same_ref_true in El. intro H. injection H as <-. simpl. auto.
Qed.

Lemma reserve_for_lander_refused (l1 l2 : LanderRef) (h : t) :
  l1 <> l2 -> reserved_by h = Some l1 ->
  reserve_for_lander l2 h = (h, false).
Proof.
  intros Hne Hr. unfold reserve_for_lander.
  destruct (State_eqb (state h) ground); simpl; [|reflexivity].
  rewrite Hr. simpl.
  destruct (Nat.eqb_spec l1 l2); [contradiction|reflexivity].
Qed.

Lemma release_reservation_non_owner (lander : LanderRef) (h : t) :
  reserved_by h <> Some lander ->
  release_reservation (Some lander) h = h.
Proof.
  intro Hne. unfold release_reservation.
  destruct (same_ref (reserved_by h) (Some lander)) eqn:E; [|reflexivity].
  apply same_ref_true in E. contradiction.
Qed.

(** * C5 *)

(** C5: [reserve_for_lander] succeeds only on a colonist that is on
    the ground and not reserved by a different lander; while a lander
    [l1] holds the reservation, an attempt by a distinct lander [l2] is
    refused and changes nothing, so two distinct landers never hold an
    active reservation on the same colonist; and releasing with a lander
    that does not own the reservation leaves the colonist unchanged. *)
Theorem reservation_exclusive (l1 l2 : LanderRef) (h : t) :
  l1 <> l2 ->
  (forall h', reserve_for_lander l1 h = (h', true) ->
     state h = ground /\ reserved_by h <> Some l2 /\
     reserved_for l1 h' /\
     reserve_for_lander l2 h' = (h', false)) /\
  ~ (reserved_for l1 h /\ reserved_for l2 h) /\
  (~ reserved_for l2 h -> release_reservation (Some l2) h = h).
Proof.
  intro Hne. repeat split.
  - apply reserve_for_lander_success in H. tauto.
  - apply reserve_for_lander_success in H.
    destruct H as (_ & [Hr | Hr] & _); rewrite Hr; congruence.
  - apply reserve_for_lander_success in H. apply H.
  - apply reserve_for_lander_success in H.
    apply (reserve_for_lander_refused l1 l2); tauto.
  - unfold reserved_for. intros [H1 H2]. congruence.
  - apply release_reservation_non_owner.
Qed.

Definition colonist0 : t := mk 300 600 ground None 0 0 true 600 true None.

Lemma reservation_exclusive_witness :
  (forall h', reserve_for_lander 1%nat colonist0 = (h', true) ->
     state colonist0 = ground /\ reserved_by colonist0 <> Some 2%nat /\
     reserved_for 1%nat h' /\
     reserve_for_lander 2%nat h' = (h', false)) /\
  ~ (reserved_for 1%nat colonist0 /\ reserved_for 2%nat colonist0) /\
  (~ reserved_for 2%nat colonist0 ->
   release_reservation (Some 2%nat) colonist0 = colonist0).
Proof. apply (reservation_exclusive 1%nat 2%nat colonist0). lia. Defined.

End Human.

(** * The player's ship ([class Player]) *)

Module Player.

(** The five phases of the hyperspace state machine. *)
Inductive HyperspaceState : Type := idle | vanish | jump | reappear | stabilize.

(** The attributes read or written by the methods modelled below;
    record update [p <| f := v |>] is Python's [self.f = v]. *)
Record t : Type := mk {
  direction : Z;
  world_pos_x : Q;
  world_pos_y : Q;
  lives : Z;
  score : Z;
  invulnerable : Q;
  held_human : option HumanRef;
  lead_current : Q;
  lead_start : Q;
  lead_target : Q;
  lead_animating : bool;
  velocity_x : Q;
  pending_speed : Q;
  throttle_active : bool;
  opacity : Z;
  render_visible : bool;
  controls_lock : Q;
  hyperspace_state : HyperspaceState;
  hyperspace_timer : Q;
  lives_awarded : Z;
  hyperspace_entry_direction : Z;
  hyperspace_entry_lead : Q;
  hyperspace_entry_velocity : Q;
  hyperspace_entry_pending : Q;
  hyperspace_entry_throttle : bool;
  hyperspace_inbound_shards : Z
}.

(** [SHIP_BODY_SURFACE] is 58 by 20 pixels. *)
Definition rect_height : Q := 20.

Definition check_extra_life (p : t) : t :=
  if (5 <=? lives p)%Z then p
  else
    let threshold := ((lives_awarded p + 1) * 10000)%Z in
    if (threshold <=? score p)%Z then
      p <| lives := (lives p + 1)%Z |>
        <| lives_awarded := (lives_awarded p + 1)%Z |>
    else p.

Definition notify_inbound_shard_complete (p : t) : t :=
  p <| hyperspace_inbound_shards :=
         Z.max 0 (hyperspace_inbound_shards p - 1) |>.

(** [n] consecutive calls (one per frame) with nothing in between. *)
Fixpoint check_extra_life_times (n : nat) (p : t) : t :=
  match n with
  | O => p
  | S k => check_extra_life_times k (check_extra_life p)
  end.

Lemma check_extra_life_score (p : t) : score (check_extra_life p) = score p.
Proof.
  unfold check_extra_life.
  destruct (5 <=? lives p)%Z; [reflexivity|].
  destruct (_ <=? score p)%Z; reflexivity.
Qed.

(** Lives are only ever added together with [lives_awarded]. *)
Lemma check_extra_life_balance (p : t) :
  (lives (check_extra_life p) - lives_awarded (check_extra_life p) =
   lives p - lives_awarded p)%Z.
Proof.
  unfold check_extra_life.
  destruct (5 <=? lives p)%Z; [reflexivity|].
  destruct (_ <=? score p)%Z; [|reflexivity].
  rsimpl. lia.
Qed.

(** The awards never run ahead of the thresholds the score has
    reached. *)
Lemma check_extra_life_bounded (p : t) :
  (lives_awarded p * 10000 <= score p)%Z ->
  (lives_awarded (check_extra_life p) * 10000 <= score p)%Z /\
  (lives_awarded p <= lives_awarded (check_extra_life p))%Z.
Proof.
  intro H. unfold check_extra_life.
  destruct (5 <=? lives p)%Z; [lia|].
  destruct (Z.leb_spec ((lives_awarded p + 1) * 10000) (score p));
    rsimpl; lia.
Qed.

Lemma check_extra_life_times_bounded (n : nat) (p : t) :
  (lives_awarded p * 10000 <= score p)%Z ->
  score (check_extra_life_times n p) = score p /\
  (lives_awarded (check_extra_life_times n p) * 10000 <= score p)%Z /\
  (lives (check_extra_life_times n p) - lives p =
   lives_awarded (check_extra_life_times n p) - lives_awarded p)%Z /\
  (lives_awarded p <= lives_awarded (check_extra_life_times n p))%Z.
Proof.
  revert p. induction n as [|n IH]; intros p H; simpl.
  - repeat split; lia.
  - destruct (check_extra_life_bounded p H) as [Hb Hm].
    assert (Hs := check_extra_life_score p).
    assert (Hl := check_extra_life_balance p).
    destruct (IH (check_extra_life p)) as (Is & Ib & Il & Im).
    { rewrite Hs. exact Hb. }
    rewrite Hs in Is, Ib. repeat split; try assumption; lia.
Qed.

(** * C10 *)

(** C10: [check_extra_life] grants exactly one life (and records it in
    [lives_awarded]) when the player has fewer than 5 lives and the
    score has reached the next threshold [(lives_awarded + 1) * 10000];
    it changes nothing when the player has 5 or more lives or the score
    is below that threshold; and over any number of calls each
    threshold is paid at most once: the lives granted equal the growth
    of [lives_awarded], which never exceeds [score / 10000]. *)
Theorem check_extra_life_once_per_threshold (p : t) (n : nat) :
  ((5 <= lives p)%Z -> check_extra_life p = p) /\
  ((lives p < 5)%Z -> (score p < (lives_awarded p + 1) * 10000)%Z ->
     check_extra_life p = p) /\
  ((lives p < 5)%Z -> ((lives_awarded p + 1) * 10000 <= score p)%Z ->
     lives (check_extra_life p) = (lives p + 1)%Z /\
     lives_awarded (check_extra_life p) = (lives_awarded p + 1)%Z /\
     score (check_extra_life p) = score p) /\
  ((lives_awarded p * 10000 <= score p)%Z ->
     (lives (check_extra_life_times n p) - lives p =
      lives_awarded (check_extra_life_times n p) - lives_awarded p)%Z /\
     (lives_awarded (check_extra_life_times n p) * 10000 <= score p)%Z).
Proof.
  unfold check_extra_life at 1 2 3 4 5.
  repeat split.
  - intro H. destruct (Z.leb_spec 5 (lives p)); [reflexivity|lia].
  - intros H1 H2. destruct (Z.leb_spec 5 (lives p)); [lia|].
    destruct (Z.leb_spec ((lives_awarded p + 1) * 10000) (score p));
      [lia|reflexivity].
  - destruct (Z.leb_spec 5 (lives p)); [lia|].
    destruct (Z.leb_spec ((lives_awarded p + 1) * 10000) (score p));
      [reflexivity|lia].
  - destruct (Z.leb_spec 5 (lives p)); [lia|].
    destruct (Z.leb_spec ((lives_awarded p + 1) * 10000) (score p));
      [reflexivity|lia].
  - destruct (Z.leb_spec 5 (lives p)); [lia|].
    destruct (Z.leb_spec ((lives_awarded p + 1) * 10000) (score p));
      [reflexivity|lia].
  - apply check_extra_life_times_bounded; assumption.
  - apply check_extra_life_times_bounded; assumption.
Qed.

(** A ship as [Player.__init__] builds it, with a given score. *)
Definition fresh (points : Z) : t :=
  mk 1 (WORLD_WIDTH / 2) (PLAYFIELD_TOP + 180) 2 points
     PLAYER_RESPAWN_INVULN None
     (SCREEN_WIDTH * 0.25) (SCREEN_WIDTH * 0.25) (SCREEN_WIDTH * 0.25) false
     PLAYER_CRUISE_SPEED PLAYER_CRUISE_SPEED false 255 true 0 idle 0 0
     1 (SCREEN_WIDTH * 0.25) PLAYER_CRUISE_SPEED PLAYER_CRUISE_SPEED false 0.

Lemma check_extra_life_once_per_threshold_witness :
  lives (check_extra_life (fresh 25000)) = 3%Z /\
  lives_awarded (check_extra_life (fresh 25000)) = 1%Z /\
  lives (check_extra_life_times 10 (fresh 25000)) = 4%Z /\
  (lives_awarded (check_extra_life_times 10 (fresh 25000)) * 10000
   <= 25000)%Z.
Proof.
  destruct (check_extra_life_once_per_threshold (fresh 25000) 10)
    as (_ & _ & H3 & H4).
  destruct H3 as (Ha & Hb & _); [reflexivity | vm_compute; congruence |].
  destruct H4 as (Hc & Hd); [vm_compute; congruence |].
  repeat split; try assumption; reflexivity.
Defined.

End Player.

(** * The ambient random source *)

(** [random.random()] draws are taken from an explicit stream of numbers
    in [[0, 1)]; each function that draws says which elements it uses. *)
Definition Draws : Type := nat -> Q.

(** [random.uniform(a, b)] from one draw. *)
Definition uniform (a b u : Q) : Q := a + (b - a) * u.

(** [random.choice([-1, 1])] from one draw. *)
Definition choice_sign (u : Q) : Z := if Qlt_bool u (1 / 2) then (-1)%Z else 1%Z.

(** * The capturing hostile ([class Lander]) *)

Module Lander.

Inductive State : Type := patrolling | descending | ascending.

Record t : Type := mk {
  world_pos_x : Q;
  world_pos_y : Q;
  home_altitude : Q;
  patrol_direction : Z;
  target : option HumanRef;
  state : State;
  health : Z;
  points : Z;
  fire_timer : Q
}.

(** [LANDER_BASE_SURFACE] is a 7 by 7 pattern of 4-pixel cells. *)
Definition rect_height : Q := 28.

(** The part of [on_captive_removed] that touches the lander itself,
    after [release_target] has run; [u] is the draw consumed by
    [random.choice([-1, 1])]. *)
Definition resume_patrol (u : Q) (l : t) : t :=
  let l := match state l with
           | descending | ascending => l <| state := patrolling |>
           | patrolling => l
           end in
  l <| home_altitude :=
         clamp (world_pos_y l) (PLAYFIELD_TOP + 40) (PLAYFIELD_TOP + 160) |>
    <| patrol_direction := choice_sign u |>.

End Lander.

(** * The game controller ([class DefenderGame]): entities and effects *)

(** Sounds handed to the audio collaborator. *)
Inductive Sound : Type :=
| snd_explosion | snd_human_drop | snd_hyperspace_in | snd_hyperspace_out
| snd_engine.

(** What the simulation hands to the rendering and audio collaborators.
    [EvExplosion] and [EvColonistCrater] stand for the bodies of
    [explosion] and [spawn_colonist_crater] (the explosion sound and a
    spray of 12, respectively 18, short-lived particles). *)
Inductive Event : Type :=
| EvExplosion (x y : Q)
| EvColonistCrater (x y : Q)
| EvPlayerExplosion (x y : Q)
| EvScorePopup (x y : Q) (amount : Z)
| EvShards (outward : bool)
| EvPlay (s : Sound)
| EvLoop (s : Sound)
| EvStop (s : Sound).

(** In-place update of one element of a collection; out of range it
    does nothing (references held by the game never dangle). *)
Fixpoint update_at {A : Type} (i : nat) (f : A -> A) (l : list A) : list A :=
  match l, i with
  | [], _ => []
  | x :: r, O => f x :: r
  | x :: r, S k => x :: update_at k f r
  end.

Lemma update_at_same {A : Type} (i : nat) (f : A -> A) (l : list A) (x : A) :
  nth_error l i = Some x -> nth_error (update_at i f l) i = Some (f x).
Proof.
  revert i. induction l as [|a l IH]; intros [|i] H; simpl in *;
    try discriminate.
  - injection H as ->. reflexivity.
  - apply IH. exact H.
Qed.

Lemma update_at_other {A : Type} (i j : nat) (f : A -> A) (l : list A) :
  i <> j -> nth_error (update_at i f l) j = nth_error l j.
Proof.
  revert i j. induction l as [|a l IH]; intros [|i] [|j] H; simpl;
    try reflexivity; try contradiction.
  apply IH. congruence.
Qed.

Lemma update_at_length {A : Type} (i : nat) (f : A -> A) (l : list A) :
  length (update_at i f l) = length l.
Proof.
  revert i. induction l as [|a l IH]; intros [|i]; simpl; auto.
Qed.

Module DefenderGame.

(** The attributes of the controller that the modelled methods touch.
    [player] is set by [setup_world] in the constructor and never
    cleared, so the [if self.player] guards always pass.  [landers] are
    the [Lander] members of [enemies]; [other_enemies] are the world
    positions of its other members; [mines] those of the [Mine]
    members of [enemy_shots]; [inbound_shards] holds the elapsed time of
    each live inward [HyperspaceShard]. *)
Record t : Type := mk {
  player : Player.t;
  humans : list Human.t;
  landers : list Lander.t;
  other_enemies : list (Q * Q);
  mines : list (Q * Q);
  no_death : bool;
  respawn_timer : option Q;
  hyperspace_cooldown : Q;
  radar_blink_timer : Q;
  radar_warning : bool;
  inbound_shards : list Q;
  events : list Event
}.

Definition emit (e : Event) (g : t) : t := g <| events := events g ++ [e] |>.

Definition explosion (x y : Q) (g : t) : t := emit (EvExplosion x y) g.

Definition spawn_colonist_crater (x y : Q) (g : t) : t :=
  emit (EvColonistCrater x y) g.

Definition spawn_score_popup (x y : Q) (amount : Z) (g : t) : t :=
  emit (EvScorePopup (wrap_position x) y amount) g.

(** [colonist_safe_landing(human)] *)
Definition colonist_safe_landing (i : HumanRef) (g : t) : t :=
  match nth_error (humans g) i with
  | None => g
  | Some h =>
      if Human.safe_landing_rewarded h then g
      else
        let g := g <| player :=
                   (player g) <| Player.score :=
                                   (Player.score (player g) + 250)%Z |> |> in
        let g := spawn_score_popup (Human.world_pos_x h)
                   (Human.world_pos_y h) 250 g in
        let g := emit (EvPlay snd_human_drop) g in
        g <| humans :=
               update_at i (Human.set_safe_landing_rewarded true) (humans g) |>
  end.

(** Where a [carrier] reference points. *)
Definition carrier_at (g : t) (c : Carrier) : Q * Q * Q :=
  match c with
  | CarrierPlayer =>
      (Player.world_pos_x (player g), Player.world_pos_y (player g),
       Player.rect_height)
  | CarrierLander l =>
      match nth_error (landers g) l with
      | Some ld =>
          (Lander.world_pos_x ld, Lander.world_pos_y ld, Lander.rect_height)
      | None => (0, 0, Lander.rect_height)
      end
  end.

(** [Lander.release_target] for the lander [l]. *)
Definition release_target (l : LanderRef) (g : t) : t :=
  match nth_error (landers g) l with
  | None => g
  | Some ld =>
      let g := match Lander.target ld with
               | Some i =>
                   g <| humans :=
                          update_at i (Human.release_reservation (Some l))
                                    (humans g) |>
               | None => g
               end in
      g <| landers :=
             update_at l (fun ld => ld <| Lander.target := None |>)
                       (landers g) |>
  end.

(** [Lander.on_captive_removed] for the lander [l]. *)
Definition on_captive_removed (u : Q) (l : LanderRef) (g : t) : t :=
  let g := release_target l g in
  g <| landers := update_at l (Lander.resume_patrol u) (landers g) |>.

(** [Human.die] (and [kill]) for the colonist [i], with the
    notification of its carrier. *)
Definition human_die (u : Q) (i : HumanRef) (g : t) : t :=
  match nth_error (humans g) i with
  | None => g
  | Some h =>
      let '(h', notify) := Human.die h in
      let g := g <| humans := update_at i (fun _ => h') (humans g) |> in
      match notify with
      | Some l => on_captive_removed u l g
      | None => g
      end
  end.

Section WithTerrain.

Variable terrain_height : Q -> Q.

(** The game's side of a call made by a sprite during its update. *)
Definition answer (i : HumanRef) (c : GameCall) (g : t) : t :=
  match c with
  | NoCall => g
  | CallExplosion x y => explosion x y g
  | CallColonistCrater x y => spawn_colonist_crater x y g
  | CallColonistSafeLanding => colonist_safe_landing i g
  end.

(** [Human.update(dt)] for the colonist [i]. *)
Definition human_update (dt : Q) (i : HumanRef) (g : t) : t :=
  match nth_error (humans g) i with
  | None => g
  | Some h =>
      let '(h', c) := Human.update terrain_height (carrier_at g) dt h in
      answer i c (g <| humans := update_at i (fun _ => h') (humans g) |>)
  end.

End WithTerrain.

End DefenderGame.

Module CaptiveRemoved.
Import DefenderGame.

Lemma release_reservation_fields (r : option LanderRef) (h : Human.t) :
  Human.state (Human.release_reservation r h) = Human.state h /\
  Human.carrier (Human.release_reservation r h) = Human.carrier h /\
  (Human.reserved_by h = None ->
   Human.reserved_by (Human.release_reservation r h) = None).
Proof.
  unfold Human.release_reservation.
  destruct r as [l|]; [destruct (Human.same_ref _ _)|]; simpl; auto.
Qed.

(** Looking up colonist [i] after [update_at j f], for an [f] that
    keeps what we look at. *)
Lemma nth_error_update_at {A : Type} (i j : nat) (f : A -> A) (l : list A)
      (x : A) :
  nth_error l i = Some x ->
  nth_error (update_at j f l) i = Some (if Nat.eqb j i then f x else x).
Proof.
  intro H. destruct (Nat.eqb_spec j i) as [-> | Hne].
  - apply update_at_same. exact H.
  - rewrite update_at_other by exact Hne. exact H.
Qed.

Lemma die_captured (h : Human.t) (l : LanderRef) :
  Human.state h = Human.captured ->
  Human.carrier h = Some (CarrierLander l) ->
  exists h', Human.die h = (h', Some l) /\
    Human.state h' = Human.dead /\ Human.carrier h' = None /\
    Human.reserved_by h' = None /\ Human.visible h' = false.
Proof.
  intros Hs Hc. unfold Human.die. rewrite Hs, Hc.
  eexists. split; [reflexivity|]. simpl. auto.
Qed.

(** * C9 *)

(** C9, as stated, fails for the home altitude: it is not drawn at
    random.  For a captor hovering at altitude 300 the new home
    altitude is the same whatever the random source yields. *)
Definition captor : Lander.t :=
  Lander.mk 1500 300 240 1 (Some 0%nat) Lander.ascending 1 150 3.
Definition captive : Human.t :=
  Human.mk 1500 322 Human.captured (Some (CarrierLander 0%nat)) 0 0 true
           638 true None.
Definition abduction : t :=
  mk (Player.fresh 0) [captive] [captor] [] [] false None 0 0 false [] [].

Lemma home_altitude_not_randomized :
  ~ (exists (u1 u2 : Q) (l1 l2 : Lander.t),
       nth_error (landers (human_die u1 0%nat abduction)) 0%nat = Some l1 /\
       nth_error (landers (human_die u2 0%nat abduction)) 0%nat = Some l2 /\
       ~ Lander.home_altitude l1 == Lander.home_altitude l2).
Proof.
  intros (u1 & u2 & l1 & l2 & H1 & H2 & Hne).
  cbv in H1, H2. injection H1 as <-. injection H2 as <-.
  apply Hne. reflexivity.
Qed.

(** C9 (amended): when a colonist that is [captured] by lander [l] is
    destroyed, the colonist ends [dead] with no carrier and no
    reservation, and [l] is notified: its target is cleared, it is
    [patrolling], its patrol direction is drawn at random from -1 and 1,
    and its home altitude is its current altitude clamped to
    [[PLAYFIELD_TOP + 40, PLAYFIELD_TOP + 160]] (not a random value). *)
Theorem captive_destroyed_resumes_patrol
        (u : Q) (i : HumanRef) (l : LanderRef) (g : t)
        (h : Human.t) (ld : Lander.t) :
  nth_error (humans g) i = Some h ->
  Human.state h = Human.captured ->
  Human.carrier h = Some (CarrierLander l) ->
  nth_error (landers g) l = Some ld ->
  exists (h' : Human.t) (ld' : Lander.t),
    nth_error (humans (human_die u i g)) i = Some h' /\
    nth_error (landers (human_die u i g)) l = Some ld' /\
    Human.state h' = Human.dead /\ Human.carrier h' = None /\
    Human.reserved_by h' = None /\
    Lander.target ld' = None /\
    Lander.state ld' = Lander.patrolling /\
    Lander.home_altitude ld' =
      clamp (Lander.world_pos_y ld) (PLAYFIELD_TOP + 40) (PLAYFIELD_TOP + 160) /\
    Lander.patrol_direction ld' = choice_sign u /\
    (Lander.patrol_direction ld' = (-1)%Z \/ Lander.patrol_direction ld' = 1%Z).
Proof.
  intros Hh Hs Hc Hl.
  destruct (die_captured h l Hs Hc) as (h' & Hd & Hs' & Hc' & Hr' & _).
  destruct g as [pl hs ls oe mi nd rt hc rb rw sh ev]. cbn in Hh, Hl.
  unfold human_die. cbn [humans]. rewrite Hh, Hd.
  unfold on_captive_removed, release_target. rsimpl. rewrite Hl.
  assert (Hi : nth_error (update_at i (fun _ => h') hs) i = Some h')
    by (apply (update_at_same i (fun _ => h') _ h); exact Hh).
  assert (Hhs : forall j, exists h'',
            nth_error (update_at j (Human.release_reservation (Some l))
                         (update_at i (fun _ => h') hs)) i = Some h'' /\
            Human.state h'' = Human.dead /\ Human.carrier h'' = None /\
            Human.reserved_by h'' = None).
  { intro j. rewrite (nth_error_update_at i j _ _ h' Hi).
    destruct (Nat.eqb j i).
    - eexists. split; [reflexivity|].
      destruct (release_reservation_fields (Some l) h') as (E1 & E2 & E3).
      rewrite E1, E2. auto.
    - exists h'. auto. }
  assert (Hld : nth_error
            (update_at l (Lander.resume_patrol u)
               (update_at l (fun ld0 => ld0 <| Lander.target := None |>) ls))
            l = Some (Lander.resume_patrol u (ld <| Lander.target := None |>))).
  { apply update_at_same. apply update_at_same. exact Hl. }
  assert (Hres : forall ld0 : Lander.t,
            Lander.target ld0 = None ->
            Lander.target (Lander.resume_patrol u ld0) = None /\
            Lander.state (Lander.resume_patrol u ld0) = Lander.patrolling /\
            Lander.home_altitude (Lander.resume_patrol u ld0) =
              clamp (Lander.world_pos_y ld0) (PLAYFIELD_TOP + 40)
                    (PLAYFIELD_TOP + 160) /\
            Lander.patrol_direction (Lander.resume_patrol u ld0) =
              choice_sign u).
  { intros [x y ha pd tg st he po ft] Ht. cbn in Ht. subst tg.
    unfold Lander.resume_patrol. destruct st; rsimpl; auto. }
  destruct (Hres (ld <| Lander.target := None |>)) as (R1 & R2 & R3 & R4).
  { destruct ld; reflexivity. }
  assert (Hy : Lander.world_pos_y (ld <| Lander.target := None |>) =
               Lander.world_pos_y ld) by (destruct ld; reflexivity).
  rewrite Hy in R3.
  assert (Hsign : choice_sign u = (-1)%Z \/ choice_sign u = 1%Z)
    by (unfold choice_sign; destruct (Qlt_bool u (1 / 2)); auto).
  destruct (Lander.target ld) as [j|]; rsimpl.
  - destruct (Hhs j) as (h'' & Hn & S1 & S2 & S3).
    exists h'', (Lander.resume_patrol u (ld <| Lander.target := None |>)).
    rewrite R4. repeat split; try assumption.
  - exists h', (Lander.resume_patrol u (ld <| Lander.target := None |>)).
    rewrite R4. repeat split; try assumption.
Qed.

Lemma captive_destroyed_resumes_patrol_witness :
  exists (h' : Human.t) (ld' : Lander.t),
    nth_error (humans (human_die (3 / 4) 0%nat abduction)) 0%nat = Some h' /\
    nth_error (landers (human_die (3 / 4) 0%nat abduction)) 0%nat = Some ld' /\
    Human.state h' = Human.dead /\ Human.carrier h' = None /\
    Human.reserved_by h' = None /\
    Lander.target ld' = None /\
    Lander.state ld' = Lander.patrolling /\
    Lander.home_altitude ld' =
      clamp (Lander.world_pos_y captor) (PLAYFIELD_TOP + 40)
            (PLAYFIELD_TOP + 160) /\
    Lander.patrol_direction ld' = choice_sign (3 / 4) /\
    (Lander.patrol_direction ld' = (-1)%Z \/ Lander.patrol_direction ld' = 1%Z).
Proof.
  apply (captive_destroyed_resumes_patrol (3 / 4) 0%nat 0%nat abduction
           captive captor); reflexivity.
Defined.

End CaptiveRemoved.

(** * The colonist's fall: impact policy and the one-shot rescue bonus *)

Module ColonistFall.
Import DefenderGame.

(** Repeated safe-landing checks on the same colonist. *)
Fixpoint safe_landing_times (n : nat) (i : HumanRef) (g : t) : t :=
  match n with
  | O => g
  | S k => safe_landing_times k i (colonist_safe_landing i g)
  end.

Lemma lethal_height_val : Human.lethal_height == 590 / 3.
Proof. reflexivity. Qed.

Lemma catastrophic_height_val : Human.catastrophic_height == 442.5.
Proof. reflexivity. Qed.

Lemma thresholds_ordered : Human.lethal_height < Human.catastrophic_height.
Proof. reflexivity. Qed.

(** [start_falling] arms the one-shot reward flag. *)
Lemma start_falling_arms (h : Human.t) :
  Human.state (Human.start_falling h) = Human.falling /\
  Human.safe_landing_rewarded (Human.start_falling h) = false /\
  Human.drop_start_y (Human.start_falling h) = Human.world_pos_y h.
Proof. repeat split. Qed.

Lemma colonist_safe_landing_rewarded_noop (i : HumanRef) (g : t) (h : Human.t) :
  nth_error (humans g) i = Some h ->
  Human.safe_landing_rewarded h = true ->
  colonist_safe_landing i g = g.
Proof.
  intros Hh Hr. unfold colonist_safe_landing. rewrite Hh, Hr. reflexivity.
Qed.

Lemma safe_landing_times_rewarded_noop (n : nat) (i : HumanRef) (g : t)
      (h : Human.t) :
  nth_error (humans g) i = Some h ->
  Human.safe_landing_rewarded h = true ->
  safe_landing_times n i g = g.
Proof.
  intros Hh Hr. induction n as [|n IH]; simpl; [reflexivity|].
  rewrite (colonist_safe_landing_rewarded_noop i g h Hh Hr). exact IH.
Qed.

(** The first safe-landing check on an armed colonist pays 250 points,
    shows the popup, plays the sound and disarms the flag. *)
Lemma colonist_safe_landing_pays (i : HumanRef) (g : t) (h : Human.t) :
  nth_error (humans g) i = Some h ->
  Human.safe_landing_rewarded h = false ->
  Player.score (player (colonist_safe_landing i g)) =
    (Player.score (player g) + 250)%Z /\
  nth_error (humans (colonist_safe_landing i g)) i =
    Some (Human.set_safe_landing_rewarded true h) /\
  events (colonist_safe_landing i g) =
    events g ++ [EvScorePopup (wrap_position (Human.world_pos_x h))
                              (Human.world_pos_y h) 250;
                 EvPlay snd_human_drop].
Proof.
  intros Hh Hr. unfold colonist_safe_landing. rewrite Hh, Hr.
  destruct g as [pl hs ls oe mi nd rt hc rb rw sh ev]. cbn in Hh.
  unfold spawn_score_popup, emit. rsimpl.
  repeat split.
  - exact (update_at_same i _ hs h Hh).
  - rewrite <- app_assoc. reflexivity.
Qed.

Section WithTerrain.

Variable terrain_height : Q -> Q.

(** Where the colonist comes to rest, the speed of this frame's step, the
    test that ends the fall, and the height fallen, as [Human.update]
    computes them. *)
Definition impact_y (h : Human.t) : Q :=
  terrain_height (Human.world_pos_x h) - Human.rect_height / 2.

Definition fall_speed (dt : Q) (h : Human.t) : Q :=
  Qmin (Human.velocity_y h + GRAVITY * dt) TERMINAL_VELOCITY.

Definition reaches_ground (dt : Q) (h : Human.t) : Prop :=
  impact_y h <= Human.world_pos_y h + fall_speed dt h * dt.

Definition drop_height (h : Human.t) : Q :=
  Qmax 0 (terrain_height (Human.world_pos_x h) - Human.drop_start_y h).

(** The colonist as the impact branch leaves it. *)
Definition landed (s : Human.State) (v : bool) (h : Human.t) : Human.t :=
  Human.mk (Human.world_pos_x h) (impact_y h) s (Human.carrier h) 0 0 v
           (Human.drop_start_y h) (Human.safe_landing_rewarded h)
           (Human.reserved_by h).

Lemma update_on_impact (ca : Carrier -> Q * Q * Q) (dt : Q) (h : Human.t) :
  Human.state h = Human.falling -> reaches_ground dt h ->
  Human.update terrain_height ca dt h =
    if Qle_bool Human.catastrophic_height (drop_height h) then
      (landed Human.dead false h,
       CallExplosion (Human.world_pos_x h) (impact_y h))
    else if Qlt_bool Human.lethal_height (drop_height h) then
      (landed Human.dead false h,
       CallColonistCrater (Human.world_pos_x h) (impact_y h))
    else (landed Human.ground true h, CallColonistSafeLanding).
Proof.
  intros Hs Hr. unfold Human.update. rewrite Hs. cbv zeta.
  apply Qle_bool_iff in Hr. unfold reaches_ground, impact_y, fall_speed in Hr.
  rewrite Hr. reflexivity.
Qed.

(** While the colonist is still in the air the fall goes on and the
    reward flag stays armed. *)
Lemma update_in_flight (ca : Carrier -> Q * Q * Q) (dt : Q) (h : Human.t) :
  Human.state h = Human.falling -> ~ reaches_ground dt h ->
  Human.state (fst (Human.update terrain_height ca dt h)) = Human.falling /\
  Human.safe_landing_rewarded (fst (Human.update terrain_height ca dt h)) =
    Human.safe_landing_rewarded h /\
  Human.drop_start_y (fst (Human.update terrain_height ca dt h)) =
    Human.drop_start_y h /\
  snd (Human.update terrain_height ca dt h) = NoCall.
Proof.
  intros Hs Hr. unfold Human.update. rewrite Hs. cbv zeta.
  destruct (Qle_bool _ _) eqn:E.
  - exfalso. apply Hr. apply Qle_bool_iff in E. exact E.
  - repeat split.
Qed.

(** What one update does to the game on the frame of impact. *)
Lemma impact_outcome (dt : Q) (i : HumanRef) (g : t) (h : Human.t) :
  nth_error (humans g) i = Some h ->
  Human.state h = Human.falling ->
  Human.safe_landing_rewarded h = false ->
  reaches_ground dt h ->
  let g' := human_update terrain_height dt i g in
  (drop_height h <= Human.lethal_height ->
     nth_error (humans g') i =
       Some (Human.set_safe_landing_rewarded true (landed Human.ground true h)) /\
     Player.score (player g') = (Player.score (player g) + 250)%Z /\
     events g' =
       events g ++ [EvScorePopup (wrap_position (Human.world_pos_x h))
                                 (impact_y h) 250;
                    EvPlay snd_human_drop]) /\
  (Human.lethal_height < drop_height h ->
   drop_height h < Human.catastrophic_height ->
     nth_error (humans g') i = Some (landed Human.dead false h) /\
     Player.score (player g') = Player.score (player g) /\
     events g' =
       events g ++ [EvColonistCrater (Human.world_pos_x h) (impact_y h)]) /\
  (Human.catastrophic_height <= drop_height h ->
     nth_error (humans g') i = Some (landed Human.dead false h) /\
     Player.score (player g') = Player.score (player g) /\
     events g' = events g ++ [EvExplosion (Human.world_pos_x h) (impact_y h)]).
Proof.
  intros Hh Hs Hr Hi g'. subst g'. unfold human_update. rewrite Hh.
  rewrite (update_on_impact _ dt h Hs Hi).
  assert (Hord := thresholds_ordered).
  assert (Hu : forall h', nth_error (update_at i (fun _ => h') (humans g)) i
                          = Some h')
    by (intro h'; exact (update_at_same i (fun _ => h') _ h Hh)).
  destruct (Qle_bool Human.catastrophic_height (drop_height h)) eqn:Ec;
    [apply Qle_bool_iff in Ec | apply Qle_bool_false_iff in Ec].
  - (* at or above the catastrophic threshold *)
    split; [intro; lra|]. split; [intros; lra|]. intros _.
    destruct g as [pl hs ls oe mi nd rt hc rb rw sh ev].
    unfold answer, explosion, emit. rsimpl. repeat split. apply Hu.
  - destruct (Qlt_bool Human.lethal_height (drop_height h)) eqn:El;
      [apply Qlt_bool_iff in El | apply Qlt_bool_false_iff in El].
    + (* strictly between the two thresholds *)
      split; [intro; lra|]. split; [|intro; lra]. intros _ _.
      destruct g as [pl hs ls oe mi nd rt hc rb rw sh ev].
      unfold answer, spawn_colonist_crater, emit. rsimpl.
      repeat split. apply Hu.
    + (* at most the lethal threshold *)
      split; [|split; intros; lra]. intros _.
      unfold answer.
      set (g1 := g <| humans :=
                    update_at i (fun _ => landed Human.ground true h)
                              (humans g) |>).
      assert (H1 : nth_error (humans g1) i = Some (landed Human.ground true h)).
      { unfold g1. destruct g. rsimpl. apply Hu. }
      destruct (colonist_safe_landing_pays i g1 _ H1 Hr) as (Ps & Ph & Pe).
      rewrite Ps, Ph, Pe. unfold g1. destruct g. rsimpl. repeat split.
Qed.

(** A colonist in mid-fall: released by [start_falling], then updated
    any number of frames without touching the ground. *)
Inductive in_fall : Human.t -> Prop :=
| fall_started (h0 : Human.t) : in_fall (Human.start_falling h0)
| fall_continues (ca : Carrier -> Q * Q * Q) (dt : Q) (h : Human.t) :
    in_fall h -> ~ reaches_ground dt h ->
    in_fall (fst (Human.update terrain_height ca dt h)).

Lemma in_fall_armed (h : Human.t) :
  in_fall h ->
  Human.state h = Human.falling /\ Human.safe_landing_rewarded h = false.
Proof.
  induction 1 as [h0 | ca dt h Hf [IHs IHr] Hn].
  - split; reflexivity.
  - destruct (update_in_flight ca dt h IHs Hn) as (E1 & E2 & _).
    rewrite E1, E2. auto.
Qed.

(** * C3 *)

(** C3: for every colonist in mid-fall that reaches the ground on this
    update, the outcome is decided by the height fallen (ground height
    minus [drop_start_y], not below zero) against two thresholds that are
    the fractions 1/3 and 0.75 of the playable span, the second strictly
    above the first.  Below the lethal threshold (and also exactly at it)
    the colonist ends on the ground, visible, 250 points are awarded, and
    any number of further safe-landing checks award nothing more;
    strictly between the thresholds it ends dead with the crater effect;
    at or above the catastrophic threshold it ends dead with the explosion
    effect. *)
Theorem drop_height_policy (dt : Q) (i : HumanRef) (g : t) (h : Human.t)
        (n : nat) :
  nth_error (humans g) i = Some h ->
  in_fall h ->
  reaches_ground dt h ->
  let g' := human_update terrain_height dt i g in
  (Human.lethal_height == (SCREEN_HEIGHT - PLAYFIELD_TOP) * (1 / 3) /\
   Human.catastrophic_height == (SCREEN_HEIGHT - PLAYFIELD_TOP) * 0.75 /\
   Human.lethal_height < Human.catastrophic_height) /\
  (drop_height h <= Human.lethal_height ->
     exists h', nth_error (humans g') i = Some h' /\
       Human.state h' = Human.ground /\ Human.visible h' = true /\
       Player.score (player g') = (Player.score (player g) + 250)%Z /\
       Player.score (player (safe_landing_times n i g')) =
         Player.score (player g')) /\
  (Human.lethal_height < drop_height h ->
   drop_height h < Human.catastrophic_height ->
     exists h', nth_error (humans g') i = Some h' /\
       Human.state h' = Human.dead /\ Human.visible h' = false /\
       Player.score (player g') = Player.score (player g) /\
       events g' =
         events g ++ [EvColonistCrater (Human.world_pos_x h) (impact_y h)]) /\
  (Human.catastrophic_height <= drop_height h ->
     exists h', nth_error (humans g') i = Some h' /\
       Human.state h' = Human.dead /\ Human.visible h' = false /\
       Player.score (player g') = Player.score (player g) /\
       events g' =
         events g ++ [EvExplosion (Human.world_pos_x h) (impact_y h)]).
Proof.
  intros Hh Hf Hi g'.
  destruct (in_fall_armed h Hf) as [Hs Hr].
  destruct (impact_outcome dt i g h Hh Hs Hr Hi) as (Safe & Crater & Boom).
  fold g' in Safe, Crater, Boom.
  split; [repeat split|]. split; [|split].
  - intro Hd. destruct (Safe Hd) as (E1 & E2 & E3).
    eexists. split; [exact E1|]. repeat split; [exact E2|].
    rewrite (safe_landing_times_rewarded_noop n i g' _ E1); reflexivity.
  - intros H1 H2. destruct (Crater H1 H2) as (E1 & E2 & E3).
    eexists. split; [exact E1|]. repeat split; assumption.
  - intro Hd. destruct (Boom Hd) as (E1 & E2 & E3).
    eexists. split; [exact E1|]. repeat split; assumption.
Qed.

End WithTerrain.

(** ** Scenarios on level ground *)

(** Level ground at [GROUND_BASELINE]. *)
Definition level_ground : Q -> Q := fun _ => 650.

(** Wave 1 with a single colonist and no hostiles; the colonist is
    released [fallen] pixels above the ground line. *)
Definition released (fallen : Q) : Human.t :=
  Human.start_falling
    (Human.mk 300 (650 - fallen) Human.ground None 0 0 true 638 true None).

Definition drop_scene (fallen : Q) : t :=
  mk (Player.fresh 0) [released fallen] [] [] [] false None 0 0 false [] [].

(** [n] frames of a twentieth of a second each, as far as the colonist
    goes. *)
Fixpoint frames (n : nat) (g : t) : t :=
  match n with
  | O => g
  | S k => frames k (human_update level_ground (1 / 20) 0%nat g)
  end.

Definition is_crater (e : Event) : bool :=
  match e with EvColonistCrater _ _ => true | _ => false end.

Definition is_explosion (e : Event) : bool :=
  match e with EvExplosion _ _ => true | _ => false end.

Definition colonist_state (g : t) : option Human.State :=
  option_map Human.state (nth_error (humans g) 0%nat).

Example lethal_fraction_drop_is_safe :
  let g := frames 60 (drop_scene Human.lethal_height) in
  colonist_state g = Some Human.ground /\
  Player.score (player g) = 250%Z /\
  Player.score (player (safe_landing_times 5 0%nat g)) = 250%Z.
Proof. vm_compute. repeat split. Qed.

Example catastrophic_drop_explodes :
  let g := frames 60 (drop_scene Human.catastrophic_height) in
  colonist_state g = Some Human.dead /\
  map is_explosion (events g) = [true].
Proof. vm_compute. repeat split. Qed.

Lemma released_reaches_ground_in_a_long_frame (fallen : Q) :
  0 <= fallen -> fallen <= 600 ->
  reaches_ground level_ground 2 (released fallen).
Proof.
  intros H0 H1. unfold reaches_ground, impact_y, fall_speed, released,
    level_ground, Human.start_falling, Human.release_reservation,
    Human.rect_height, GRAVITY, TERMINAL_VELOCITY, Qmin.
  cbn [Human.world_pos_x Human.world_pos_y Human.velocity_y].
  assert (E : 24 / 2 == 12) by reflexivity.
  qcases; lra.
Qed.

Lemma drop_height_policy_witness :
  let g := drop_scene 500 in
  let g' := human_update level_ground 2 0%nat g in
  exists h', nth_error (humans g') 0%nat = Some h' /\
    Human.state h' = Human.dead /\ Human.visible h' = false /\
    Player.score (player g') = Player.score (player g) /\
    events g' =
      events g ++ [EvExplosion (Human.world_pos_x (released 500))
                               (impact_y level_ground (released 500))].
Proof.
  intros g g'.
  destruct (drop_height_policy level_ground 2 0%nat g (released 500) 0)
    as (_ & _ & _ & Boom).
  - reflexivity.
  - apply fall_started.
  - apply released_reaches_ground_in_a_long_frame; lra.
  - apply Boom. vm_compute. discriminate.
Defined.

(** * C4 *)

(** C4, as stated, fails in its second half: a drop from 0.9 times the
    catastrophic threshold is below that threshold, so the colonist dies
    with the crater effect; no explosion effect is produced. *)
Lemma near_catastrophic_drop_leaves_crater :
  let g := frames 60 (drop_scene (0.9 * Human.catastrophic_height)) in
  colonist_state g = Some Human.dead /\
  (exists x y : Q, events g = [EvColonistCrater x y]) /\
  ~ (exists x y : Q, In (EvExplosion x y) (events g)).
Proof.
  vm_compute. split; [reflexivity|]. split.
  - eexists. eexists. reflexivity.
  - intros (x & y & [H | []]). discriminate H.
Qed.

(** C4 (amended): a colonist in mid-fall that reaches the ground having
    fallen exactly the lethal-threshold fraction of the playable span ends
    on the ground, visible, with 250 points awarded once (further
    safe-landing checks award nothing); one that has fallen 0.9 times the
    catastrophic threshold ends dead with the crater (ground-scar) effect
    and no points. *)
Theorem threshold_drops (terrain_height : Q -> Q) (dt : Q) (i : HumanRef)
        (g : t) (h : Human.t) (n : nat) :
  nth_error (humans g) i = Some h ->
  in_fall terrain_height h ->
  reaches_ground terrain_height dt h ->
  let g' := human_update terrain_height dt i g in
  let fallen := terrain_height (Human.world_pos_x h) - Human.drop_start_y h in
  (fallen == Human.lethal_height ->
     exists h', nth_error (humans g') i = Some h' /\
       Human.state h' = Human.ground /\ Human.visible h' = true /\
       Player.score (player g') = (Player.score (player g) + 250)%Z /\
       Player.score (player (safe_landing_times n i g')) =
         (Player.score (player g) + 250)%Z) /\
  (fallen == 0.9 * Human.catastrophic_height ->
     exists h', nth_error (humans g') i = Some h' /\
       Human.state h' = Human.dead /\ Human.visible h' = false /\
       Player.score (player g') = Player.score (player g) /\
       events g' =
         events g ++ [EvColonistCrater (Human.world_pos_x h)
                                       (impact_y terrain_height h)]).
Proof.
  intros Hh Hf Hi g' fallen.
  destruct (in_fall_armed terrain_height h Hf) as [Hs Hr].
  destruct (impact_outcome terrain_height dt i g h Hh Hs Hr Hi)
    as (Safe & Crater & _).
  fold g' in Safe, Crater.
  assert (Hl := lethal_height_val). assert (Hc := catastrophic_height_val).
  assert (E1 : 590 / 3 == 590 * (1 # 3)) by reflexivity.
  assert (E2 : 442.5 == 885 * (1 # 2)) by reflexivity.
  assert (E3 : 0.9 == 9 * (1 # 10)) by reflexivity.
  split.
  - intro Hd.
    assert (Hle : drop_height terrain_height h <= Human.lethal_height).
    { unfold drop_height, Qmax. fold fallen. qcases; lra. }
    destruct (Safe Hle) as (A1 & A2 & A3).
    eexists. split; [exact A1|]. repeat split; [exact A2|].
    rewrite (safe_landing_times_rewarded_noop n i g' _ A1); [exact A2|reflexivity].
  - intro Hd.
    assert (Hb : Human.lethal_height < drop_height terrain_height h /\
                 drop_height terrain_height h < Human.catastrophic_height).
    { unfold drop_height, Qmax. fold fallen. rewrite E3 in Hd.
      qcases; split; nra. }
    destruct (Crater (proj1 Hb) (proj2 Hb)) as (A1 & A2 & A3).
    eexists. split; [exact A1|]. repeat split; assumption.
Qed.

Lemma threshold_drops_witness :
  let g := drop_scene (0.9 * Human.catastrophic_height) in
  let g' := human_update level_ground 2 0%nat g in
  exists h', nth_error (humans g') 0%nat = Some h' /\
    Human.state h' = Human.dead /\ Human.visible h' = false /\
    Player.score (player g') = Player.score (player g) /\
    events g' =
      events g ++
        [EvColonistCrater
           (Human.world_pos_x (released (0.9 * Human.catastrophic_height)))
           (impact_y level_ground (released (0.9 * Human.catastrophic_height)))].
Proof.
  intros g g'.
  destruct (threshold_drops level_ground 2 0%nat g
              (released (0.9 * Human.catastrophic_height)) 0)
    as (_ & Crater).
  - reflexivity.
  - apply fall_started.
  - apply released_reaches_ground_in_a_long_frame; vm_compute; discriminate.
  - apply Crater. vm_compute. reflexivity.
Defined.

End ColonistFall.

(** * Hyperspace: the jump, the hit, and the five-phase state machine *)

Module Teleport.
Import DefenderGame.

(** Python's [int(x)] on a float: truncation towards zero. *)
Definition py_int (q : Q) : Z := if Qle_bool 0 q then Qfloor q else Qceiling q.

(** [spawn_hyperspace_shards] slices the 58 by 20 ship into a 3 by 3
    grid without its centre; every slice has positive width and height,
    so 8 shards are created, each living [duration = 1.35] seconds. *)
Definition shards_created : nat := 8.
Definition shard_duration : Q := 1.35.

Definition drop_carried_human (force_fall : bool) (g : t) : t :=
  match Player.held_human (player g) with
  | None => g
  | Some i =>
      let p := player g in
      let place (h : Human.t) : Human.t :=
        if force_fall then
          Human.start_falling
            (Human.mk (wrap_position (Player.world_pos_x p))
                      (Player.world_pos_y p + Player.rect_height)
                      (Human.state h) (Human.carrier h) (Human.velocity_x h)
                      (Human.velocity_y h) (Human.visible h)
                      (Human.drop_start_y h) (Human.safe_landing_rewarded h)
                      (Human.reserved_by h))
        else
          Human.start_falling
            (Human.mk (wrap_position (Player.world_pos_x p))
                      (Human.world_pos_y h)
                      (Human.state h) None (Human.velocity_x h)
                      (Human.velocity_y h) (Human.visible h)
                      (Human.drop_start_y h) (Human.safe_landing_rewarded h)
                      (Human.reserved_by h)) in
      g <| player := p <| Player.held_human := None |> |>
        <| humans := update_at i place (humans g) |>
  end.

Definition spawn_player_explosion (x y : Q) (g : t) : t :=
  emit (EvPlayerExplosion x y) g.

Definition begin_player_respawn_delay (g : t) : t :=
  let p := player g in
  g <| player :=
         p <| Player.lives := (Player.lives p - 1)%Z |>
           <| Player.render_visible := false |>
           <| Player.invulnerable :=
                Qmax (Player.invulnerable p)
                     (PLAYER_DEATH_RESPAWN_DELAY + PLAYER_DEATH_INVULN) |> |>
    <| respawn_timer := Some PLAYER_DEATH_RESPAWN_DELAY |>.

(** [Player.hit] *)
Definition hit (g : t) : t :=
  let p := player g in
  if no_death g then
    g <| player :=
           p <| Player.invulnerable := Qmax (Player.invulnerable p) 0.5 |> |>
  else if Qlt_bool 0 (Player.invulnerable p) then g
  else
    let g := drop_carried_human true g in
    let g := spawn_player_explosion (Player.world_pos_x p)
               (Player.world_pos_y p) g in
    begin_player_respawn_delay g.

(** [spawn_hyperspace_shards(player, outward)] *)
Definition spawn_hyperspace_shards (outward : bool) (g : t) : t :=
  let g := if outward then
             g <| player :=
                    (player g) <| Player.hyperspace_inbound_shards := 0%Z |> |>
           else g in
  let g := emit (EvShards outward) g in
  if outward then g
  else
    g <| inbound_shards := inbound_shards g ++ repeat 0 shards_created |>
      <| player :=
           (player g) <| Player.hyperspace_inbound_shards :=
                           Z.of_nat shards_created |> |>.

(** [Player.start_hyperspace] *)
Definition start_hyperspace (g : t) : t :=
  let p := player g in
  match Player.hyperspace_state p with
  | Player.idle =>
      if Qlt_bool 0 (hyperspace_cooldown g) then g
      else
        let p := p <| Player.hyperspace_entry_direction := Player.direction p |>
                   <| Player.hyperspace_entry_lead := Player.lead_current p |>
                   <| Player.hyperspace_entry_velocity := Player.velocity_x p |>
                   <| Player.hyperspace_entry_pending := Player.pending_speed p |>
                   <| Player.hyperspace_entry_throttle :=
                        Player.throttle_active p |>
                   <| Player.hyperspace_inbound_shards := 0%Z |> in
        let g := emit (EvPlay snd_hyperspace_in) (g <| player := p |>) in
        let g := emit (EvPlay snd_hyperspace_out) g in
        let p := (player g)
                   <| Player.hyperspace_state := Player.vanish |>
                   <| Player.hyperspace_timer := 0 |>
                   <| Player.controls_lock :=
                        Qmax (Player.controls_lock p) HYPERSPACE_LOCK_DURATION |>
                   <| Player.throttle_active := false |> in
        let g := emit (EvStop snd_engine) (g <| player := p |>) in
        spawn_hyperspace_shards true g
  | _ => g
  end.

Definition enemy_positions (g : t) : list (Q * Q) :=
  map (fun l => (Lander.world_pos_x l, Lander.world_pos_y l)) (landers g)
  ++ other_enemies g.

(** Some sprite of [ps] lies within [r] of [(x, y)] on both axes. *)
Definition near (r x y : Q) (ps : list (Q * Q)) : bool :=
  existsb (fun e => Qlt_bool (Qabs (shortest_offset (fst e) x)) r
                    && Qlt_bool (Qabs (snd e - y)) r) ps.

Section WithTerrain.

Variable terrain_height : Q -> Q.

Definition is_hyperspace_safe (x y : Q) (g : t) : bool :=
  let terrain := terrain_height x in
  if Qlt_bool y (terrain + 60) || Qlt_bool (SCREEN_HEIGHT - 80) y then false
  else if near 80 x y (enemy_positions g) then false
  else if near 70 x y (mines g) then false
  else true.

(** The [k]-th candidate drawn by [perform_hyperspace_jump]; each one
    consumes two draws. *)
Definition candidate (draws : Draws) (k : nat) : Q * Q :=
  (uniform 0 WORLD_WIDTH (draws (2 * k)%nat),
   uniform (PLAYFIELD_TOP + 80) (SCREEN_HEIGHT - 160) (draws (2 * k + 1)%nat)).

(** The [while attempts < 3] loop: the first safe candidate among
    those numbered [k], ..., [k + left - 1]. *)
Fixpoint first_safe (draws : Draws) (g : t) (k left : nat) : option (Q * Q) :=
  match left with
  | O => None
  | S left' =>
      let c := candidate draws k in
      if is_hyperspace_safe (fst c) (snd c) g then Some c
      else first_safe draws g (S k) left'
  end.

Definition perform_hyperspace_jump (draws : Draws) (g : t) : t :=
  let found := first_safe draws g 0 3 in
  let safe := match found with Some _ => true | None => false end in
  let destination := match found with
                     | Some c => c
                     | None => candidate draws 3
                     end in
  let p := player g in
  let p := p <| Player.world_pos_x := fst destination |>
             <| Player.world_pos_y := snd destination |>
             <| Player.direction := Player.hyperspace_entry_direction p |> in
  let p := p <| Player.velocity_x :=
                  PLAYER_CRUISE_SPEED * inject_Z (Player.direction p) |> in
  let p := p <| Player.pending_speed := Qabs (Player.velocity_x p) |>
             <| Player.controls_lock :=
                  Qmax (Player.controls_lock p)
                       (HYPERSPACE_LOCK_DURATION - HYPERSPACE_VANISH_TIME) |> in
  let g := g <| player := p |>
             <| radar_blink_timer := 0.16 |>
             <| radar_warning := negb safe |> in
  let g := if negb safe then hit g else g in
  let g := emit (EvPlay snd_hyperspace_out) g in
  let p := player g in
  g <| player :=
         p <| Player.lead_current := Player.hyperspace_entry_lead p |>
           <| Player.lead_start := Player.hyperspace_entry_lead p |>
           <| Player.lead_target := Player.hyperspace_entry_lead p |>
           <| Player.lead_animating := false |> |>.

(** [Player.update_hyperspace(dt)] *)
Definition update_hyperspace (dt : Q) (draws : Draws) (g : t) : t :=
  let p := player g in
  let timer := Player.hyperspace_timer p + dt in
  match Player.hyperspace_state p with
  | Player.idle =>
      if (Player.opacity p <? 255)%Z then
        g <| player :=
               p <| Player.opacity :=
                      Z.min 255 (Player.opacity p + py_int (800 * dt)) |> |>
      else g
  | Player.vanish =>
      let p := p <| Player.hyperspace_timer := timer |> in
      let progress := clamp (timer / HYPERSPACE_VANISH_TIME) 0 1 in
      let new_opacity := py_int (255 * (1 - progress)) in
      let p := if (new_opacity =? Player.opacity p)%Z then p
               else p <| Player.opacity := new_opacity |> in
      if Qle_bool HYPERSPACE_VANISH_TIME timer then
        let p := p <| Player.render_visible := false |>
                   <| Player.opacity := 0%Z |>
                   <| Player.hyperspace_state := Player.jump |>
                   <| Player.hyperspace_timer := 0 |> in
        let g := perform_hyperspace_jump draws (g <| player := p |>) in
        g <| player :=
               (player g) <| Player.velocity_x := 0 |>
                          <| Player.pending_speed := 0 |>
                          <| Player.throttle_active := false |> |>
      else g <| player := p |>
  | Player.jump =>
      let p := p <| Player.hyperspace_timer := timer |> in
      if Qle_bool HYPERSPACE_REAPPEAR_DELAY timer then
        let p := p <| Player.hyperspace_state := Player.reappear |>
                   <| Player.hyperspace_timer := 0 |> in
        let g := spawn_hyperspace_shards false (g <| player := p |>) in
        emit (EvPlay snd_hyperspace_out) g
      else g <| player := p |>
  | Player.reappear =>
      let p := p <| Player.hyperspace_timer := timer |>
                 <| Player.render_visible := false |>
                 <| Player.opacity := 0%Z |> in
      if Qle_bool HYPERSPACE_REAPPEAR_TIME timer
         && (Player.hyperspace_inbound_shards p =? 0)%Z then
        g <| player :=
               p <| Player.hyperspace_state := Player.stabilize |>
                 <| Player.hyperspace_timer := 0 |>
                 <| Player.direction := Player.hyperspace_entry_direction p |> |>
      else g <| player := p |>
  | Player.stabilize =>
      let p := p <| Player.hyperspace_timer := timer |> in
      if Qle_bool HYPERSPACE_STABILIZE_TIME timer then
        let p := p <| Player.hyperspace_state := Player.idle |>
                   <| Player.hyperspace_timer := 0 |>
                   <| Player.render_visible := true |>
                   <| Player.opacity := 255%Z |>
                   <| Player.velocity_x := Player.hyperspace_entry_velocity p |> in
        let p := p <| Player.pending_speed :=
                        Qmax (Qabs (Player.velocity_x p)) PLAYER_CRUISE_SPEED |>
                   <| Player.throttle_active :=
                        Player.hyperspace_entry_throttle p |> in
        let g := g <| player := p |> in
        let g := if Player.throttle_active p then emit (EvLoop snd_engine) g
                 else g in
        g <| hyperspace_cooldown := HYPERSPACE_COOLDOWN |>
      else g <| player := p |>
  end.

(** [HyperspaceShard.update(dt)] for every live inward shard: a shard
    whose time is up is removed and notifies its owner. *)
Fixpoint shards_step (dt : Q) (shards : list Q) : list Q * nat :=
  match shards with
  | [] => ([], O)
  | e :: rest =>
      let '(alive, done) := shards_step dt rest in
      if Qle_bool shard_duration (e + dt) then (alive, S done)
      else ((e + dt) :: alive, done)
  end.

Definition shards_update (dt : Q) (g : t) : t :=
  let '(alive, done) := shards_step dt (inbound_shards g) in
  g <| inbound_shards := alive |>
    <| player := Nat.iter done Player.notify_inbound_shard_complete (player g) |>.

(** The countdown of the hyperspace cooldown in [DefenderGame.update]. *)
Definition cooldown_tick (dt : Q) (g : t) : t :=
  if Qlt_bool 0 (hyperspace_cooldown g) then
    g <| hyperspace_cooldown := Qmax 0 (hyperspace_cooldown g - dt) |>
  else g.

(** The steps of a pass of [DefenderGame.update] that drive the
    teleport, in their order: [update_hyperspace] (the last step but
    one of [Player.update]), the countdown of the cooldown, and the
    update of the inward shards.  The other steps of a pass are in
    [Session.pass]. *)
Definition frame (dt : Q) (draws : Draws) (g : t) : t :=
  shards_update dt (cooldown_tick dt (update_hyperspace dt draws g)).

Fixpoint frames (n : nat) (dt : Q) (draws : Draws) (g : t) : t :=
  match n with
  | O => g
  | S k => frames k dt draws (frame dt draws g)
  end.

(** ** What a frame does to the teleport's observables *)

Arguments Qplus : simpl never.
Arguments Qminus : simpl never.
Arguments Qmult : simpl never.
Arguments Qdiv : simpl never.
Arguments Qle_bool : simpl never.
Arguments Qlt_bool : simpl never.
Arguments Z.of_nat : simpl never.
Arguments Z.max : simpl never.
Arguments Z.sub : simpl never.

Definition phase (g : t) : Player.HyperspaceState :=
  Player.hyperspace_state (player g).
Definition timer (g : t) : Q := Player.hyperspace_timer (player g).
Definition pending (g : t) : Z := Player.hyperspace_inbound_shards (player g).
Definition lives (g : t) : Z := Player.lives (player g).
Definition position (g : t) : Q * Q :=
  (Player.world_pos_x (player g), Player.world_pos_y (player g)).

(** The player's count of returning shards agrees with the live inward
    shards. *)
Definition synced (g : t) : Prop :=
  pending g = Z.of_nat (length (inbound_shards g)).

(** Every live inward shard is done after at most [m] more steps of
    [dt]. *)
Definition done_within (dt : Q) (m : nat) (shards : list Q) : Prop :=
  forall e, In e shards -> shard_duration - e <= inject_Z (Z.of_nat m) * dt.

Lemma inject_Z_S (m : nat) : inject_Z (Z.of_nat (S m)) == inject_Z (Z.of_nat m) + 1.
Proof. rewrite Nat2Z.inj_succ. unfold Z.succ. rewrite inject_Z_plus. reflexivity. Qed.

(** Finitely many steps of a positive [dt] cover any span. *)
Lemma enough_frames (a dt : Q) :
  0 < dt -> exists m : nat, a <= inject_Z (Z.of_nat m) * dt.
Proof.
  intro Hdt. exists (Z.to_nat (Qceiling (a / dt))).
  assert (Hc := Qle_ceiling (a / dt)).
  assert (Hm : inject_Z (Qceiling (a / dt))
               <= inject_Z (Z.of_nat (Z.to_nat (Qceiling (a / dt))))).
  { rewrite <- Zle_Qle. lia. }
  assert (Ha : a == (a / dt) * dt)
    by (field; intro Hz; rewrite Hz in Hdt; inversion Hdt).
  rewrite Ha at 1. apply Qmult_le_compat_r; [|apply Qlt_le_weak; exact Hdt].
  apply (Qle_trans _ _ _ Hc Hm).
Qed.

Lemma shards_step_length (dt : Q) (shards : list Q) :
  (length (fst (shards_step dt shards)) + snd (shards_step dt shards)
   = length shards)%nat.
Proof.
  induction shards as [|e rest IH]; simpl; [reflexivity|].
  destruct (shards_step dt rest) as [alive done]. simpl in IH.
  destruct (Qle_bool shard_duration (e + dt)); simpl; lia.
Qed.

Lemma shards_step_nil (dt : Q) : shards_step dt [] = ([], O).
Proof. reflexivity. Qed.

Lemma shards_step_progress (dt : Q) (m : nat) (shards : list Q) :
  0 < dt -> done_within dt (S m) shards ->
  done_within dt m (fst (shards_step dt shards)).
Proof.
  intros Hdt. induction shards as [|e rest IH]; intros Hb; simpl.
  - intros x [].
  - assert (Hrest : done_within dt (S m) rest)
      by (intros x Hx; apply Hb; right; exact Hx).
    specialize (IH Hrest).
    destruct (shards_step dt rest) as [alive done]. simpl in IH.
    destruct (Qle_bool shard_duration (e + dt)) eqn:E; simpl; [exact IH|].
    intros x [<- | Hx]; [|apply IH; exact Hx].
    assert (He := Hb e (or_introl eq_refl)). rewrite inject_Z_S in He. lra.
Qed.

Lemma shards_step_drained (dt : Q) (shards : list Q) :
  0 < dt -> done_within dt 0 shards -> fst (shards_step dt shards) = [].
Proof.
  intros Hdt. induction shards as [|e rest IH]; intros Hb; simpl;
    [reflexivity|].
  assert (Hrest : done_within dt 0 rest)
    by (intros x Hx; apply Hb; right; exact Hx).
  specialize (IH Hrest).
  destruct (shards_step dt rest) as [alive done]. simpl in IH.
  assert (He := Hb e (or_introl eq_refl)).
  change (inject_Z (Z.of_nat 0)) with 0 in He.
  destruct (Qle_bool shard_duration (e + dt)) eqn:E; simpl; [exact IH|].
  apply Qle_bool_false_iff in E. lra.
Qed.

Lemma notify_times (n : nat) (p : Player.t) :
  Player.hyperspace_state (Nat.iter n Player.notify_inbound_shard_complete p)
    = Player.hyperspace_state p /\
  Player.hyperspace_timer (Nat.iter n Player.notify_inbound_shard_complete p)
    = Player.hyperspace_timer p /\
  Player.lives (Nat.iter n Player.notify_inbound_shard_complete p)
    = Player.lives p /\
  Player.world_pos_x (Nat.iter n Player.notify_inbound_shard_complete p)
    = Player.world_pos_x p /\
  Player.world_pos_y (Nat.iter n Player.notify_inbound_shard_complete p)
    = Player.world_pos_y p /\
  ((Z.of_nat n <= Player.hyperspace_inbound_shards p)%Z ->
   Player.hyperspace_inbound_shards
     (Nat.iter n Player.notify_inbound_shard_complete p)
   = (Player.hyperspace_inbound_shards p - Z.of_nat n)%Z).
Proof.
  induction n as [|n (I1 & I2 & I3 & I4 & I5 & I6)].
  - simpl. repeat split. intros _. lia.
  - rewrite Nat.iter_succ.
    set (q := Nat.iter n Player.notify_inbound_shard_complete p) in *.
    unfold Player.notify_inbound_shard_complete.
    destruct q. rsimpl. cbn in I1, I2, I3, I4, I5, I6.
    repeat split; try assumption.
    intro Hle. rewrite I6 by lia. lia.
Qed.

Lemma shards_update_observed (dt : Q) (g : t) :
  phase (shards_update dt g) = phase g /\
  timer (shards_update dt g) = timer g /\
  lives (shards_update dt g) = lives g /\
  position (shards_update dt g) = position g /\
  radar_warning (shards_update dt g) = radar_warning g /\
  inbound_shards (shards_update dt g)
    = fst (shards_step dt (inbound_shards g)) /\
  (synced g -> synced (shards_update dt g)).
Proof.
  unfold phase, timer, lives, position, synced, pending, shards_update.
  assert (Hlen := shards_step_length dt (inbound_shards g)).
  destruct (shards_step dt (inbound_shards g)) as [alive done].
  simpl in Hlen.
  destruct (notify_times done (player g)) as (N1 & N2 & N3 & N4 & N5 & N6).
  destruct g as [p hs ls oe mi nd rt hc rb rw sh ev]. rsimpl.
  cbn in N1, N2, N3, N4, N5, N6, Hlen.
  rewrite N1, N2, N3, N4, N5. repeat split.
  intro Hs. rewrite N6 by lia. lia.
Qed.

Lemma cooldown_tick_observed (dt : Q) (g : t) :
  player (cooldown_tick dt g) = player g /\
  inbound_shards (cooldown_tick dt g) = inbound_shards g /\
  radar_warning (cooldown_tick dt g) = radar_warning g.
Proof.
  unfold cooldown_tick. destruct (Qlt_bool 0 (hyperspace_cooldown g));
    destruct g; repeat split.
Qed.

(** The safety test reads the enemies and the mines, never the player. *)
Lemma first_safe_player (draws : Draws) (g : t) (p : Player.t) (k left : nat) :
  first_safe draws (g <| player := p |>) k left = first_safe draws g k left.
Proof.
  revert k. induction left as [|left IH]; intro k; [reflexivity|].
  cbn [first_safe]. rewrite IH.
  replace (is_hyperspace_safe (fst (candidate draws k))
             (snd (candidate draws k)) (g <| player := p |>))
    with (is_hyperspace_safe (fst (candidate draws k))
            (snd (candidate draws k)) g)
    by (destruct g; reflexivity).
  reflexivity.
Qed.

Lemma first_safe_some (draws : Draws) (g : t) (left : nat) :
  forall k c, first_safe draws g k left = Some c ->
  exists j, (k <= j < k + left)%nat /\ c = candidate draws j.
Proof.
  induction left as [|left IH]; intros k c H; [discriminate|].
  cbn [first_safe] in H.
  destruct (is_hyperspace_safe _ _ g).
  - injection H as <-. exists k. split; [lia|reflexivity].
  - destruct (IH _ _ H) as (j & Hj & ->). exists j. split; [lia|reflexivity].
Qed.

Arguments first_safe : simpl never.
Arguments candidate : simpl never.

Lemma first_safe_depends (draws : Draws) (g g' : t) (left : nat) :
  landers g = landers g' -> other_enemies g = other_enemies g' ->
  mines g = mines g' ->
  forall k, first_safe draws g k left = first_safe draws g' k left.
Proof.
  intros Hl Ho Hm. induction left as [|left IH]; intro k; [reflexivity|].
  unfold first_safe; fold first_safe. rewrite IH.
  unfold is_hyperspace_safe, enemy_positions. rewrite Hl, Ho, Hm.
  reflexivity.
Qed.

(** [perform_hyperspace_jump] seen through the observables. *)
Lemma perform_hyperspace_jump_observed (draws : Draws) (g : t) :
  let j := perform_hyperspace_jump draws g in
  phase j = phase g /\ timer j = timer g /\
  inbound_shards j = inbound_shards g /\
  (forall c, first_safe draws g 0 3 = Some c ->
     position j = c /\ radar_warning j = false /\ lives j = lives g) /\
  (first_safe draws g 0 3 = None ->
     position j = candidate draws 3 /\ radar_warning j = true /\
     (no_death g = false -> Player.invulnerable (player g) <= 0 ->
      lives j = (lives g - 1)%Z) /\
     (no_death g = true \/ 0 < Player.invulnerable (player g) ->
      lives j = lives g)).
Proof.
  unfold phase, timer, lives, position.
  destruct g as [p hs ls oe mi nd rt hc rb rw sh ev]. destruct p.
  set (G := mk _ _ _ _ _ _ _ _ _ _ _ _).
  destruct (first_safe draws G 0 3) as [c|] eqn:Ef; subst G;
    unfold perform_hyperspace_jump; rewrite Ef.
  - rsimpl. split; [reflexivity|]. split; [reflexivity|].
    split; [reflexivity|]. split; [|discriminate].
    intros c' Hc. injection Hc as <-. destruct c. repeat split.
  - unfold hit. rsimpl. destruct nd; rsimpl.
    + split; [reflexivity|]. split; [reflexivity|]. split; [reflexivity|].
      split; [discriminate|]. intros _.
      split; [reflexivity|]. split; [reflexivity|].
      split; [discriminate|]. intros _. reflexivity.
    + destruct (Qlt_bool 0 invulnerable) eqn:E; rsimpl.
      * apply Qlt_bool_iff in E.
        split; [reflexivity|]. split; [reflexivity|]. split; [reflexivity|].
        split; [discriminate|]. intros _.
        split; [reflexivity|]. split; [reflexivity|].
        split; [intros _ Hi; lra|]. intros _. reflexivity.
      * apply Qlt_bool_false_iff in E.
        unfold drop_carried_human. rsimpl.
        destruct held_human; rsimpl.
        all: split; [reflexivity|]; split; [reflexivity|];
          split; [reflexivity|]; split; [discriminate|]; intros _;
          split; [reflexivity|]; split; [reflexivity|];
          split; [intros _ _; reflexivity|];
          intros [Hn|Hi]; [discriminate|lra].
Qed.

(** [perform_hyperspace_jump] on the frame that ends the vanish phase. *)
Lemma update_vanish_go (dt : Q) (draws : Draws) (g : t) :
  phase g = Player.vanish ->
  HYPERSPACE_VANISH_TIME <= timer g + dt ->
  let u := update_hyperspace dt draws g in
  phase u = Player.jump /\ timer u = 0 /\
  inbound_shards u = inbound_shards g /\
  (forall c, first_safe draws g 0 3 = Some c ->
     position u = c /\ radar_warning u = false /\ lives u = lives g) /\
  (first_safe draws g 0 3 = None ->
     position u = candidate draws 3 /\ radar_warning u = true /\
     (no_death g = false -> Player.invulnerable (player g) <= 0 ->
      lives u = (lives g - 1)%Z) /\
     (no_death g = true \/ 0 < Player.invulnerable (player g) ->
      lives u = lives g)).
Proof.
  unfold phase, timer, lives, position.
  destruct g as [p hs ls oe mi nd rt hc rb rw sh ev]. destruct p.
  set (F := first_safe draws _ 0 3).
  cbn. intros -> Ht. apply Qle_bool_iff in Ht.
  unfold update_hyperspace. cbn -[perform_hyperspace_jump].
  rewrite Ht.
  set (b := (py_int _ =? _)%Z).
  match goal with
  | |- context [perform_hyperspace_jump ?d ?G] =>
      pose proof (perform_hyperspace_jump_observed d G) as HA;
      replace (first_safe d G 0 3) with F in HA
        by (apply first_safe_depends; reflexivity);
      set (j := perform_hyperspace_jump d G) in *; clearbody j
  end.
  unfold phase, timer, lives, position in HA. cbn in HA.
  destruct b; cbn in HA; destruct HA as (A1 & A2 & A3 & A4 & A5);
    rsimpl;
    (split; [exact A1|]; split; [exact A2|]; split; [exact A3|];
     split; [exact A4 | exact A5]).
Qed.

(** [update_hyperspace] in the jump phase: wait out the reappear delay,
    then send the eight inward shards. *)
Lemma update_jump (dt : Q) (draws : Draws) (g : t) :
  phase g = Player.jump ->
  let u := update_hyperspace dt draws g in
  lives u = lives g /\ position u = position g /\
  if Qle_bool HYPERSPACE_REAPPEAR_DELAY (timer g + dt)
  then phase u = Player.reappear /\ timer u = 0 /\
       inbound_shards u = inbound_shards g ++ repeat 0 shards_created /\
       pending u = Z.of_nat shards_created
  else phase u = Player.jump /\ timer u = timer g + dt /\
       inbound_shards u = inbound_shards g /\ pending u = pending g.
Proof.
  unfold phase, timer, lives, position, pending.
  destruct g as [p hs ls oe mi nd rt hc rb rw sh ev]. destruct p.
  cbn. intros ->. unfold update_hyperspace. cbn.
  destruct (Qle_bool HYPERSPACE_REAPPEAR_DELAY (hyperspace_timer + dt));
    rsimpl; repeat split.
Qed.

(** [update_hyperspace] in the reappear phase: the ship stays hidden
    until the reappear time has passed and every shard has reported. *)
Lemma update_reappear (dt : Q) (draws : Draws) (g : t) :
  phase g = Player.reappear ->
  let u := update_hyperspace dt draws g in
  lives u = lives g /\ position u = position g /\
  inbound_shards u = inbound_shards g /\ pending u = pending g /\
  if Qle_bool HYPERSPACE_REAPPEAR_TIME (timer g + dt) && (pending g =? 0)%Z
  then phase u = Player.stabilize /\ timer u = 0
  else phase u = Player.reappear /\ timer u = timer g + dt.
Proof.
  unfold phase, timer, lives, position, pending.
  destruct g as [p hs ls oe mi nd rt hc rb rw sh ev]. destruct p.
  cbn. intros ->. unfold update_hyperspace. cbn.
  destruct (Qle_bool HYPERSPACE_REAPPEAR_TIME (hyperspace_timer + dt)
            && (hyperspace_inbound_shards =? 0)%Z);
    rsimpl; repeat split.
Qed.

(** [update_hyperspace] in the stabilize phase. *)
Lemma update_stabilize (dt : Q) (draws : Draws) (g : t) :
  phase g = Player.stabilize ->
  let u := update_hyperspace dt draws g in
  lives u = lives g /\ position u = position g /\
  inbound_shards u = inbound_shards g /\ pending u = pending g /\
  if Qle_bool HYPERSPACE_STABILIZE_TIME (timer g + dt)
  then phase u = Player.idle /\ timer u = 0 /\
       hyperspace_cooldown u = HYPERSPACE_COOLDOWN /\
       Player.render_visible (player u) = true /\
       Player.opacity (player u) = 255%Z
  else phase u = Player.stabilize /\ timer u = timer g + dt.
Proof.
  unfold phase, timer, lives, position, pending.
  destruct g as [p hs ls oe mi nd rt hc rb rw sh ev]. destruct p.
  cbn. intros ->. unfold update_hyperspace. cbn.
  destruct (Qle_bool HYPERSPACE_STABILIZE_TIME (hyperspace_timer + dt));
    rsimpl; [|repeat split].
  destruct hyperspace_entry_throttle; rsimpl; repeat split.
Qed.

(** [update_hyperspace] at rest only fades the ship back in. *)
Lemma update_idle (dt : Q) (draws : Draws) (g : t) :
  phase g = Player.idle ->
  let u := update_hyperspace dt draws g in
  phase u = Player.idle /\ lives u = lives g /\ position u = position g /\
  timer u = timer g /\ inbound_shards u = inbound_shards g /\
  pending u = pending g.
Proof.
  unfold phase, timer, lives, position, pending.
  destruct g as [p hs ls oe mi nd rt hc rb rw sh ev]. destruct p.
  cbn. intros ->. unfold update_hyperspace. cbn.
  destruct (opacity <? 255)%Z; rsimpl; repeat split.
Qed.

(** A frame seen through the state after [update_hyperspace]. *)
Lemma frame_observed (dt : Q) (draws : Draws) (g : t) :
  let u := update_hyperspace dt draws g in
  phase (frame dt draws g) = phase u /\
  timer (frame dt draws g) = timer u /\
  lives (frame dt draws g) = lives u /\
  position (frame dt draws g) = position u /\
  radar_warning (frame dt draws g) = radar_warning u /\
  inbound_shards (frame dt draws g)
    = fst (shards_step dt (inbound_shards u)) /\
  (synced u -> synced (frame dt draws g)).
Proof.
  intro u. unfold frame. fold u.
  destruct (cooldown_tick_observed dt u) as (C1 & C2 & C3).
  destruct (shards_update_observed dt (cooldown_tick dt u))
    as (S1 & S2 & S3 & S4 & S5 & S6 & S7).
  unfold phase, timer, lives, position, synced, pending in *.
  rewrite C1 in *. rewrite C2 in *. rewrite C3 in *.
  repeat split; assumption.
Qed.

Lemma frames_add (n m : nat) (dt : Q) (draws : Draws) (g : t) :
  frames (n + m) dt draws g = frames m dt draws (frames n dt draws g).
Proof.
  revert g. induction n as [|n IH]; intro g; [reflexivity|].
  cbn [Nat.add frames]. apply IH.
Qed.

Lemma frames_S (n : nat) (dt : Q) (draws : Draws) (g : t) :
  frames (S n) dt draws g = frames n dt draws (frame dt draws g).
Proof. reflexivity. Qed.

(** Once the jump has been made the teleport costs no further life and
    never makes a second jump: only the vanish phase calls
    [perform_hyperspace_jump]. *)
Lemma frame_after_jump (dt : Q) (draws : Draws) (g : t) :
  phase g <> Player.vanish ->
  phase (frame dt draws g) <> Player.vanish /\
  lives (frame dt draws g) = lives g /\
  position (frame dt draws g) = position g.
Proof.
  intro Hp.
  destruct (frame_observed dt draws g) as (F1 & F2 & F3 & F4 & _).
  rewrite F1, F3, F4. clear F1 F2 F3 F4.
  destruct (phase g) eqn:E; [| contradiction | | |].
  - destruct (update_idle dt draws g E) as (U1 & U2 & U3 & _).
    rewrite U1. repeat split; [discriminate | assumption | assumption].
  - destruct (update_jump dt draws g E) as (U1 & U2 & U3).
    destruct (Qle_bool HYPERSPACE_REAPPEAR_DELAY (timer g + dt));
      destruct U3 as (U3 & _); rewrite U3;
      repeat split; try discriminate; assumption.
  - destruct (update_reappear dt draws g E) as (U1 & U2 & _ & _ & U3).
    destruct (Qle_bool HYPERSPACE_REAPPEAR_TIME (timer g + dt)
              && (pending g =? 0)%Z);
      destruct U3 as (U3 & _); rewrite U3;
      repeat split; try discriminate; assumption.
  - destruct (update_stabilize dt draws g E) as (U1 & U2 & _ & _ & U3).
    destruct (Qle_bool HYPERSPACE_STABILIZE_TIME (timer g + dt));
      destruct U3 as (U3 & _); rewrite U3;
      repeat split; try discriminate; assumption.
Qed.

Lemma frames_after_jump (dt : Q) (draws : Draws) (n : nat) :
  forall g, phase g <> Player.vanish ->
  phase (frames n dt draws g) <> Player.vanish /\
  lives (frames n dt draws g) = lives g /\
  position (frames n dt draws g) = position g.
Proof.
  induction n as [|n IH]; intros g Hp; [repeat split; assumption|].
  rewrite frames_S.
  destruct (frame_after_jump dt draws g Hp) as (F1 & F2 & F3).
  destruct (IH _ F1) as (I1 & I2 & I3).
  rewrite I2, I3, F2, F3. repeat split. assumption.
Qed.

Lemma shards_step_nonneg (dt : Q) (shards : list Q) :
  0 < dt -> (forall e, In e shards -> 0 <= e) ->
  forall e, In e (fst (shards_step dt shards)) -> 0 <= e.
Proof.
  intros Hdt. induction shards as [|x rest IH]; intros Hb; simpl.
  - intros e [].
  - assert (Hrest : forall e, In e rest -> 0 <= e)
      by (intros e He; apply Hb; right; exact He).
    specialize (IH Hrest).
    destruct (shards_step dt rest) as [alive done]. simpl in IH.
    destruct (Qle_bool shard_duration (x + dt)); simpl; [exact IH|].
    intros e [<- | He]; [|apply IH; exact He].
    assert (Hx := Hb x (or_introl eq_refl)). lra.
Qed.

Section Completion.

Variable dt : Q.
Variable draws : Draws.
Hypothesis dt_pos : 0 < dt.

(** The jump phase ends: the ship enters the reappear phase with its
    inward shards in flight. *)
Lemma jump_ends (m : nat) :
  forall g, phase g = Player.jump -> inbound_shards g = [] ->
  HYPERSPACE_REAPPEAR_DELAY - timer g <= inject_Z (Z.of_nat m) * dt ->
  exists n, phase (frames n dt draws g) = Player.reappear /\
            synced (frames n dt draws g) /\
            forall e, In e (inbound_shards (frames n dt draws g)) -> 0 <= e.
Proof.
  induction m as [|m IH]; intros g Hp Hs Hm.
  all: destruct (frame_observed dt draws g) as (F1 & F2 & _ & _ & _ & F6 & F7).
  all: destruct (update_jump dt draws g Hp) as (_ & _ & U).
  all: destruct (Qle_bool HYPERSPACE_REAPPEAR_DELAY (timer g + dt)) eqn:E.
  1,3: destruct U as (U1 & U2 & U3 & U4); exists 1%nat;
    rewrite frames_S; cbn [frames]; rewrite F1, U1;
    split; [reflexivity|]; split;
    [apply F7; unfold synced; rewrite U4, U3, Hs; reflexivity|];
    rewrite F6, U3, Hs; apply shards_step_nonneg; [exact dt_pos|];
    intros e He; apply repeat_spec in He; rewrite He; apply Qle_refl.
  - apply Qle_bool_false_iff in E.
    change (inject_Z (Z.of_nat 0)) with 0 in Hm. lra.
  - apply Qle_bool_false_iff in E. destruct U as (U1 & U2 & U3 & U4).
    destruct (IH (frame dt draws g)) as (n & Hn).
    + rewrite F1. exact U1.
    + rewrite F6, U3, Hs. reflexivity.
    + rewrite F2, U2. rewrite inject_Z_S in Hm. lra.
    + exists (S n). rewrite frames_S. exact Hn.
Qed.

(** With every shard back, the reappear phase ends once its time is up. *)
Lemma reappear_drained_ends (m : nat) :
  forall g, phase g = Player.reappear -> synced g -> inbound_shards g = [] ->
  HYPERSPACE_REAPPEAR_TIME - timer g <= inject_Z (Z.of_nat m) * dt ->
  exists n, phase (frames n dt draws g) = Player.stabilize.
Proof.
  induction m as [|m IH]; intros g Hp Hy Hs Hm.
  all: assert (Hz : pending g = 0%Z) by (rewrite Hy, Hs; reflexivity).
  all: destruct (frame_observed dt draws g) as (F1 & F2 & _ & _ & _ & F6 & F7).
  all: destruct (update_reappear dt draws g Hp) as (_ & _ & U3 & U4 & U).
  all: rewrite Hz in U; cbn [Z.eqb] in U; rewrite andb_true_r in U.
  all: destruct (Qle_bool HYPERSPACE_REAPPEAR_TIME (timer g + dt)) eqn:E.
  1,3: destruct U as (U1 & _); exists 1%nat; rewrite frames_S; cbn [frames];
    rewrite F1; exact U1.
  - apply Qle_bool_false_iff in E.
    change (inject_Z (Z.of_nat 0)) with 0 in Hm. lra.
  - apply Qle_bool_false_iff in E. destruct U as (U1 & U2).
    destruct (IH (frame dt draws g)) as (n & Hn).
    + rewrite F1. exact U1.
    + apply F7. unfold synced. rewrite U4, U3. exact Hy.
    + rewrite F6, U3, Hs. reflexivity.
    + rewrite F2, U2. rewrite inject_Z_S in Hm. lra.
    + exists (S n). rewrite frames_S. exact Hn.
Qed.

(** The reappear phase ends: every inward shard runs out of time and
    reports to the player, then the reappear time is waited out. *)
Lemma reappear_ends (m : nat) :
  forall g, phase g = Player.reappear -> synced g ->
  done_within dt m (inbound_shards g) ->
  exists n, phase (frames n dt draws g) = Player.stabilize.
Proof.
  induction m as [|m IH]; intros g Hp Hy Hd.
  all: destruct (frame_observed dt draws g) as (F1 & F2 & _ & _ & _ & F6 & F7).
  all: destruct (update_reappear dt draws g Hp) as (_ & _ & U3 & U4 & U).
  all: destruct (Qle_bool HYPERSPACE_REAPPEAR_TIME (timer g + dt)
                 && (pending g =? 0)%Z).
  1,3: destruct U as (U1 & _); exists 1%nat; rewrite frames_S; cbn [frames];
    rewrite F1; exact U1.
  - destruct U as (U1 & U2).
    destruct (enough_frames
                (HYPERSPACE_REAPPEAR_TIME - timer (frame dt draws g)) dt dt_pos)
      as (m2 & Hm2).
    destruct (reappear_drained_ends m2 (frame dt draws g)) as (n & Hn).
    + rewrite F1. exact U1.
    + apply F7. unfold synced. rewrite U4, U3. exact Hy.
    + rewrite F6, U3. apply shards_step_drained; assumption.
    + exact Hm2.
    + exists (S n). rewrite frames_S. exact Hn.
  - destruct U as (U1 & U2).
    destruct (IH (frame dt draws g)) as (n & Hn).
    + rewrite F1. exact U1.
    + apply F7. unfold synced. rewrite U4, U3. exact Hy.
    + rewrite F6, U3. apply shards_step_progress; assumption.
    + exists (S n). rewrite frames_S. exact Hn.
Qed.

(** The stabilize phase ends at rest, with the cooldown armed. *)
Lemma stabilize_ends (m : nat) :
  forall g, phase g = Player.stabilize ->
  HYPERSPACE_STABILIZE_TIME - timer g <= inject_Z (Z.of_nat m) * dt ->
  exists n, phase (frames n dt draws g) = Player.idle.
Proof.
  induction m as [|m IH]; intros g Hp Hm.
  all: destruct (frame_observed dt draws g) as (F1 & F2 & _).
  all: destruct (update_stabilize dt draws g Hp) as (_ & _ & _ & _ & U).
  all: destruct (Qle_bool HYPERSPACE_STABILIZE_TIME (timer g + dt)) eqn:E.
  1,3: destruct U as (U1 & _); exists 1%nat; rewrite frames_S; cbn [frames];
    rewrite F1; exact U1.
  - apply Qle_bool_false_iff in E.
    change (inject_Z (Z.of_nat 0)) with 0 in Hm. lra.
  - apply Qle_bool_false_iff in E. destruct U as (U1 & U2).
    destruct (IH (frame dt draws g)) as (n & Hn).
    + rewrite F1. exact U1.
    + rewrite F2, U2. rewrite inject_Z_S in Hm. lra.
    + exists (S n). rewrite frames_S. exact Hn.
Qed.

(** From the jump phase the state machine runs to rest. *)
Lemma jump_runs_to_idle (g : t) :
  phase g = Player.jump -> inbound_shards g = [] ->
  exists n, phase (frames n dt draws g) = Player.idle.
Proof.
  intros Hp Hs.
  destruct (enough_frames (HYPERSPACE_REAPPEAR_DELAY - timer g) dt dt_pos)
    as (m1 & Hm1).
  destruct (jump_ends m1 g Hp Hs Hm1) as (n1 & P1 & Y1 & N1).
  destruct (enough_frames shard_duration dt dt_pos) as (m2 & Hm2).
  destruct (reappear_ends m2 (frames n1 dt draws g) P1 Y1) as (n2 & P2).
  { intros e He. specialize (N1 e He). lra. }
  destruct (enough_frames
              (HYPERSPACE_STABILIZE_TIME
               - timer (frames n2 dt draws (frames n1 dt draws g))) dt dt_pos)
    as (m3 & Hm3).
  destruct (stabilize_ends m3 _ P2 Hm3) as (n3 & P3).
  exists (n1 + n2 + n3)%nat. rewrite !frames_add. exact P3.
Qed.

End Completion.

(** [update_hyperspace] while the ship is still fading out. *)
Lemma update_vanish_wait (dt : Q) (draws : Draws) (g : t) :
  phase g = Player.vanish ->
  timer g + dt < HYPERSPACE_VANISH_TIME ->
  let u := update_hyperspace dt draws g in
  phase u = Player.vanish /\ timer u = timer g + dt /\
  inbound_shards u = inbound_shards g /\ lives u = lives g /\
  position u = position g.
Proof.
  unfold phase, timer, lives, position. intros Hp Ht.
  apply Qle_bool_false_iff in Ht.
  unfold update_hyperspace. cbv zeta. rewrite Hp, Ht.
  destruct (py_int _ =? _)%Z;
    destruct g as [p hs ls oe mi nd rt hc rb rw sh ev]; destruct p;
    cbn in Hp; subst; rsimpl; repeat split.
Qed.

(** The jump costs at most one life. *)
Lemma update_vanish_go_lives (dt : Q) (draws : Draws) (g : t) :
  phase g = Player.vanish ->
  HYPERSPACE_VANISH_TIME <= timer g + dt ->
  (lives g - 1 <= lives (update_hyperspace dt draws g) <= lives g)%Z.
Proof.
  intros Hp Ht.
  destruct (update_vanish_go dt draws g Hp Ht) as (_ & _ & _ & Hs & Hn).
  destruct (first_safe draws g 0 3) as [c|].
  - destruct (Hs c eq_refl) as (_ & _ & ->). lia.
  - destruct (Hn eq_refl) as (_ & _ & Hv & Hi).
    destruct (no_death g) eqn:En; [rewrite Hi; [lia | left; reflexivity]|].
    destruct (Qlt_le_dec 0 (Player.invulnerable (player g))) as [Hl|Hl].
    + rewrite Hi; [lia | right; exact Hl].
    + rewrite Hv; [lia | reflexivity | exact Hl].
Qed.

Section Whole.

Variable dt : Q.
Variable draws : Draws.
Hypothesis dt_pos : 0 < dt.

(** The vanish phase ends with the jump. *)
Lemma vanish_ends (m : nat) :
  forall g, phase g = Player.vanish -> inbound_shards g = [] ->
  HYPERSPACE_VANISH_TIME - timer g <= inject_Z (Z.of_nat m) * dt ->
  exists n, phase (frames n dt draws g) = Player.jump /\
            inbound_shards (frames n dt draws g) = [] /\
            (lives g - 1 <= lives (frames n dt draws g) <= lives g)%Z.
Proof.
  induction m as [|m IH]; intros g Hp Hs Hm.
  all: destruct (frame_observed dt draws g) as (F1 & F2 & F3 & _ & _ & F6 & _).
  all: destruct (Qlt_le_dec (timer g + dt) HYPERSPACE_VANISH_TIME) as [Hw|Hg].
  2,4: destruct (update_vanish_go dt draws g Hp Hg) as (U1 & _ & U3 & _);
    exists 1%nat; rewrite frames_S; cbn [frames]; rewrite F1, F3, F6, U3, Hs;
    split; [exact U1|]; split; [reflexivity|];
    apply update_vanish_go_lives; assumption.
  - change (inject_Z (Z.of_nat 0)) with 0 in Hm. lra.
  - destruct (update_vanish_wait dt draws g Hp Hw) as (U1 & U2 & U3 & U4 & _).
    destruct (IH (frame dt draws g)) as (n & P & Sh & L).
    + rewrite F1. exact U1.
    + rewrite F6, U3, Hs. reflexivity.
    + rewrite F2, U2. rewrite inject_Z_S in Hm. lra.
    + exists (S n). rewrite frames_S. rewrite F3, U4 in L.
      split; [exact P|]. split; [exact Sh | exact L].
Qed.

End Whole.

(** The state machine has no stuck state: iterating [frame] from the
    vanish phase, with no inward shard in flight, reaches rest. *)
Lemma frames_run_to_idle (dt : Q) (draws : Draws) (g : t) :
  0 < dt ->
  phase g = Player.vanish -> inbound_shards g = [] ->
  exists n, phase (frames n dt draws g) = Player.idle /\
            (lives g - 1 <= lives (frames n dt draws g) <= lives g)%Z.
Proof.
  intros Hdt Hp Hs.
  destruct (enough_frames (HYPERSPACE_VANISH_TIME - timer g) dt Hdt)
    as (m & Hm).
  destruct (vanish_ends dt draws Hdt m g Hp Hs Hm) as (n1 & P1 & S1 & L1).
  destruct (jump_runs_to_idle dt draws Hdt _ P1 S1) as (n2 & P2).
  exists (n1 + n2)%nat. rewrite frames_add. split; [exact P2|].
  destruct (frames_after_jump dt draws n2 (frames n1 dt draws g))
    as (_ & L2 & _); [rewrite P1; discriminate|].
  rewrite L2. exact L1.
Qed.

(** When none of the three candidates passes the safety test, the call
    of [update_hyperspace] that ends the vanish phase puts the ship at
    a further, fourth draw (the three tried candidates are discarded),
    raises the radar warning and calls [hit] once: a life is lost
    unless the no-death mode is on or the ship is invulnerable at that
    call, that is, with [invulnerable] as [Player.update] has left it
    after this pass's countdown. *)
Theorem jump_without_safe_candidate (dt : Q) (draws : Draws) (g : t) :
  phase g = Player.vanish ->
  HYPERSPACE_VANISH_TIME <= timer g + dt ->
  first_safe draws g 0 3 = None ->
  phase (update_hyperspace dt draws g) = Player.jump /\
  position (update_hyperspace dt draws g) = candidate draws 3 /\
  radar_warning (update_hyperspace dt draws g) = true /\
  (no_death g = false -> Player.invulnerable (player g) <= 0 ->
   lives (update_hyperspace dt draws g) = (lives g - 1)%Z) /\
  (no_death g = true \/ 0 < Player.invulnerable (player g) ->
   lives (update_hyperspace dt draws g) = lives g).
Proof.
  intros Hp Ht Hn.
  destruct (update_vanish_go dt draws g Hp Ht) as (U1 & _ & _ & _ & U).
  destruct (U Hn) as (U2 & U3 & U4 & U5).
  repeat split; assumption.
Qed.

Lemma candidate_in_band (draws : Draws) (k : nat) :
  (forall i, 0 <= draws i <= 1) ->
  0 <= fst (candidate draws k) <= WORLD_WIDTH /\
  PLAYFIELD_TOP + 80 <= snd (candidate draws k) <= SCREEN_HEIGHT - 160.
Proof.
  intro Hd. unfold candidate, uniform. cbn [fst snd].
  assert (H1 := Hd (2 * k)%nat). assert (H2 := Hd (2 * k + 1)%nat).
  unfold WORLD_WIDTH, PLAYFIELD_TOP, HUD_HEIGHT, SCREEN_HEIGHT. lra.
Qed.

(** A jump always produces a destination: one of the four draws, inside
    the world and inside the band of altitudes the candidates are drawn
    from, whether or not it is safe. *)
Theorem jump_always_lands (dt : Q) (draws : Draws) (g : t) :
  phase g = Player.vanish ->
  HYPERSPACE_VANISH_TIME <= timer g + dt ->
  (forall i, 0 <= draws i <= 1) ->
  exists k, (k <= 3)%nat /\
    position (frame dt draws g) = candidate draws k /\
    0 <= fst (position (frame dt draws g)) <= WORLD_WIDTH /\
    PLAYFIELD_TOP + 80 <= snd (position (frame dt draws g))
      <= SCREEN_HEIGHT - 160.
Proof.
  intros Hp Ht Hd.
  destruct (frame_observed dt draws g) as (_ & _ & _ & F4 & _).
  destruct (update_vanish_go dt draws g Hp Ht) as (_ & _ & _ & Us & Un).
  rewrite F4.
  destruct (first_safe draws g 0 3) as [c|] eqn:E.
  - destruct (Us c eq_refl) as (-> & _).
    destruct (first_safe_some draws g 3 0 c E) as (j & Hj & ->).
    exists j. split; [lia|]. split; [reflexivity|].
    apply candidate_in_band. exact Hd.
  - destruct (Un eq_refl) as (-> & _).
    exists 3%nat. split; [lia|]. split; [reflexivity|].
    apply candidate_in_band. exact Hd.
Qed.

(** [terrain_height] is [GROUND_BASELINE] plus two sinusoids of these
    amplitudes, so the ground line never rises above
    [GROUND_BASELINE - 55 - 28]. *)
Definition GROUND_BASELINE : Q := SCREEN_HEIGHT - 110.
Definition GROUND_PRIMARY_AMPLITUDE : Q := 55.
Definition GROUND_SECONDARY_AMPLITUDE : Q := 28.

Definition highest_ground : Q :=
  GROUND_BASELINE - GROUND_PRIMARY_AMPLITUDE - GROUND_SECONDARY_AMPLITUDE.

Lemma first_safe_over_terrain (draws : Draws) (g : t) (left : nat) :
  (forall x, highest_ground <= terrain_height x) ->
  (forall i, draws i <= 1) ->
  forall k, first_safe draws g k left = None.
Proof.
  intros Hg Hd. induction left as [|left IH]; intro k; [reflexivity|].
  unfold first_safe; fold first_safe.
  assert (Hu : is_hyperspace_safe (fst (candidate draws k))
                 (snd (candidate draws k)) g = false).
  { unfold is_hyperspace_safe. cbv zeta.
    assert (Hy : Qlt_bool (snd (candidate draws k))
                   (terrain_height (fst (candidate draws k)) + 60) = true).
    { apply Qlt_bool_iff.
      generalize (Hg (fst (candidate draws k))).
      generalize (terrain_height (fst (candidate draws k))). intros th Ht.
      assert (Hk := Hd (2 * k + 1)%nat).
      unfold candidate, uniform. cbn [snd].
      unfold highest_ground, GROUND_BASELINE, GROUND_PRIMARY_AMPLITUDE,
        GROUND_SECONDARY_AMPLITUDE, SCREEN_HEIGHT in Ht.
      unfold PLAYFIELD_TOP, HUD_HEIGHT, SCREEN_HEIGHT. lra. }
    rewrite Hy. reflexivity. }
  rewrite Hu. apply IH.
Qed.

(** Over the game's terrain no candidate ever passes the safety test:
    candidates are drawn at altitudes up to [SCREEN_HEIGHT - 160 = 600],
    and the test rejects every [y < terrain + 60], which is at least
    [567 + 60].  So every jump ends on the fourth draw with the radar
    warning raised, whatever the enemies and mines. *)
Theorem every_jump_is_unsafe (dt : Q) (draws : Draws) (g : t) :
  (forall x, highest_ground <= terrain_height x) ->
  (forall i, draws i <= 1) ->
  phase g = Player.vanish ->
  HYPERSPACE_VANISH_TIME <= timer g + dt ->
  (forall x y, y <= SCREEN_HEIGHT - 160 -> is_hyperspace_safe x y g = false) /\
  position (frame dt draws g) = candidate draws 3 /\
  radar_warning (frame dt draws g) = true.
Proof.
  intros Hg Hd Hp Ht. split.
  - intros x y Hy. unfold is_hyperspace_safe. cbv zeta.
    assert (Hlt : Qlt_bool y (terrain_height x + 60) = true).
    { apply Qlt_bool_iff. assert (Hx := Hg x).
      unfold highest_ground, GROUND_BASELINE, GROUND_PRIMARY_AMPLITUDE,
        GROUND_SECONDARY_AMPLITUDE, SCREEN_HEIGHT in *. lra. }
    rewrite Hlt. reflexivity.
  - destruct (frame_observed dt draws g) as (_ & _ & _ & F4 & F5 & _).
    destruct (update_vanish_go dt draws g Hp Ht) as (_ & _ & _ & _ & U).
    destruct (U (first_safe_over_terrain draws g 3 Hg Hd 0%nat))
      as (U2 & U3 & _).
    rewrite F4, F5. split; assumption.
Qed.

(** While inward shards are still due, the ship stays hidden in the
    reappear phase however long the frame: the reappear time alone
    does not bring it back. *)
Theorem reappear_waits_for_shards (dt : Q) (draws : Draws) (g : t) :
  phase g = Player.reappear -> (pending g <> 0)%Z ->
  phase (frame dt draws g) = Player.reappear /\
  Player.render_visible (player (update_hyperspace dt draws g)) = false /\
  Player.opacity (player (update_hyperspace dt draws g)) = 0%Z.
Proof.
  intros Hp Hn.
  destruct (frame_observed dt draws g) as (F1 & _).
  rewrite F1. clear F1. revert Hp Hn. unfold phase, pending.
  destruct g as [p hs ls oe mi nd rt hc rb rw sh ev]. destruct p.
  cbn. intros -> Hn. unfold update_hyperspace. cbn.
  apply Z.eqb_neq in Hn. rewrite Hn, andb_false_r. rsimpl. repeat split.
Qed.

Lemma start_hyperspace_refused (g : t) :
  phase g <> Player.idle \/ 0 < hyperspace_cooldown g ->
  start_hyperspace g = g.
Proof.
  unfold phase, start_hyperspace.
  destruct g as [p hs ls oe mi nd rt hc rb rw sh ev]. destruct p. cbn.
  intros [Hp|Hc].
  - destruct hyperspace_state; try reflexivity. contradiction.
  - apply Qlt_bool_iff in Hc. rewrite Hc.
    destruct hyperspace_state; reflexivity.
Qed.

(** [start_hyperspace] does nothing unless the ship is at rest and the
    cooldown has run out; when it does start, the ship enters the
    vanish phase with the clock at zero, no shard awaited, the controls
    locked for at least [HYPERSPACE_LOCK_DURATION], and the entry
    direction and speed saved for the return. *)
Theorem start_hyperspace_guarded (g : t) :
  (phase g <> Player.idle \/ 0 < hyperspace_cooldown g ->
   start_hyperspace g = g) /\
  (phase g = Player.idle -> hyperspace_cooldown g <= 0 ->
   phase (start_hyperspace g) = Player.vanish /\
   timer (start_hyperspace g) = 0 /\
   pending (start_hyperspace g) = 0%Z /\
   inbound_shards (start_hyperspace g) = inbound_shards g /\
   HYPERSPACE_LOCK_DURATION
     <= Player.controls_lock (player (start_hyperspace g)) /\
   Player.hyperspace_entry_direction (player (start_hyperspace g))
     = Player.direction (player g) /\
   Player.hyperspace_entry_velocity (player (start_hyperspace g))
     = Player.velocity_x (player g) /\
   lives (start_hyperspace g) = lives g /\
   position (start_hyperspace g) = position g).
Proof.
  split; [apply start_hyperspace_refused|].
  unfold phase, timer, pending, lives, position, start_hyperspace.
  destruct g as [p hs ls oe mi nd rt hc rb rw sh ev]. destruct p. cbn.
  intros -> Hc. apply Qlt_bool_false_iff in Hc. rewrite Hc. rsimpl.
  repeat split. unfold Qmax.
  destruct (Qlt_bool controls_lock HYPERSPACE_LOCK_DURATION) eqn:E.
  - apply Qle_refl.
  - apply Qlt_bool_false_iff in E. exact E.
Qed.

Lemma frame_cooldown (dt : Q) (draws : Draws) (g : t) :
  hyperspace_cooldown (frame dt draws g)
  = hyperspace_cooldown (cooldown_tick dt (update_hyperspace dt draws g)).
Proof.
  unfold frame, shards_update.
  destruct (shards_step dt _) as [alive done].
  destruct (cooldown_tick dt (update_hyperspace dt draws g)). reflexivity.
Qed.

(** A finished teleport arms the cooldown: on the frame that ends the
    stabilize phase the ship is at rest, the cooldown stands at
    [HYPERSPACE_COOLDOWN] less the frame just elapsed, and an immediate
    new [start_hyperspace] is refused. *)
Theorem finished_teleport_arms_cooldown (dt : Q) (draws : Draws) (g : t) :
  phase g = Player.stabilize ->
  HYPERSPACE_STABILIZE_TIME <= timer g + dt ->
  dt < HYPERSPACE_COOLDOWN ->
  phase (frame dt draws g) = Player.idle /\
  hyperspace_cooldown (frame dt draws g) == HYPERSPACE_COOLDOWN - dt /\
  start_hyperspace (frame dt draws g) = frame dt draws g.
Proof.
  intros Hp Ht Hd.
  destruct (frame_observed dt draws g) as (F1 & _).
  destruct (update_stabilize dt draws g Hp) as (_ & _ & _ & _ & U).
  apply Qle_bool_iff in Ht. rewrite Ht in U. destruct U as (U1 & _ & U3 & _).
  assert (Hc : hyperspace_cooldown (frame dt draws g)
               == HYPERSPACE_COOLDOWN - dt).
  { rewrite frame_cooldown. unfold cooldown_tick. rewrite U3.
    change (Qlt_bool 0 HYPERSPACE_COOLDOWN) with true.
    destruct (update_hyperspace dt draws g). rsimpl.
    unfold Qmax.
    destruct (Qlt_bool 0 (HYPERSPACE_COOLDOWN - dt)) eqn:E;
      [reflexivity|].
    apply Qlt_bool_false_iff in E. lra. }
  split; [rewrite F1; exact U1|]. split; [exact Hc|].
  apply start_hyperspace_refused.
  right. rewrite Hc. lra.
Qed.



End WithTerrain.

(** ** A teleport on level ground *)

(** A ship at rest whose respawn invulnerability has run out, alone in
    the world; the draws are 0, 1/10, 2/10, ... *)
Definition at_rest : t :=
  mk ((Player.fresh 0) <| Player.invulnerable := 0 |>)
     [] [] [] [] false None 0 0 false [] [].

Definition warp : t := start_hyperspace at_rest.

Definition tenths : Draws := fun k => inject_Z (Z.of_nat k) / 10.

Definition level : Q -> Q := ColonistFall.level_ground.

Lemma tenths_unit (i : nat) : (i <= 10)%nat -> 0 <= tenths i <= 1.
Proof.
  intro Hi. unfold tenths.
  assert (H0 : 0 <= inject_Z (Z.of_nat i)) by (rewrite <- (Zle_Qle 0); lia).
  assert (H1 : inject_Z (Z.of_nat i) <= 10)
    by (change 10 with (inject_Z 10); rewrite <- Zle_Qle; lia).
  assert (E : inject_Z (Z.of_nat i) / 10 == inject_Z (Z.of_nat i) * (1 # 10))
    by (field).
  rewrite E. lra.
Qed.

(** Draws that stay in the unit interval: 0, 1/10, ..., 9/10, then 1. *)
Definition unit_draws : Draws := fun k => tenths (Nat.min k 10).

Lemma unit_draws_unit (i : nat) : 0 <= unit_draws i <= 1.
Proof. apply tenths_unit. lia. Qed.

Lemma jump_without_safe_candidate_witness :
  position (update_hyperspace level (1 / 10) unit_draws warp)
    = candidate unit_draws 3 /\
  radar_warning (update_hyperspace level (1 / 10) unit_draws warp) = true /\
  lives (update_hyperspace level (1 / 10) unit_draws warp) = 1%Z.
Proof.
  destruct (jump_without_safe_candidate level (1 / 10) unit_draws warp)
    as (_ & P & R & L & _).
  - reflexivity.
  - vm_compute. discriminate.
  - vm_compute. reflexivity.
  - split; [exact P|]. split; [exact R|].
    apply L; [reflexivity | vm_compute; discriminate].
Defined.

Lemma jump_always_lands_witness :
  exists k, (k <= 3)%nat /\
    position (frame level (1 / 10) unit_draws warp) = candidate unit_draws k /\
    0 <= fst (position (frame level (1 / 10) unit_draws warp)) <= WORLD_WIDTH /\
    PLAYFIELD_TOP + 80
      <= snd (position (frame level (1 / 10) unit_draws warp))
      <= SCREEN_HEIGHT - 160.
Proof.
  apply (jump_always_lands level (1 / 10) unit_draws warp).
  - reflexivity.
  - vm_compute. discriminate.
  - exact unit_draws_unit.
Defined.

Lemma every_jump_is_unsafe_witness :
  (forall x y, y <= SCREEN_HEIGHT - 160 ->
     is_hyperspace_safe level x y warp = false) /\
  position (frame level (1 / 10) unit_draws warp) = candidate unit_draws 3 /\
  radar_warning (frame level (1 / 10) unit_draws warp) = true.
Proof.
  apply (every_jump_is_unsafe level (1 / 10) unit_draws warp).
  - intro x. vm_compute. discriminate.
  - intro i. apply unit_draws_unit.
  - reflexivity.
  - vm_compute. discriminate.
Defined.

(** The ship one frame into the reappear phase, its eight shards out. *)
Definition returning : t := frames level 2 (1 / 10) unit_draws warp.

Lemma reappear_waits_for_shards_witness :
  phase (frame level 10 unit_draws returning) = Player.reappear /\
  Player.render_visible
    (player (update_hyperspace level 10 unit_draws returning)) = false /\
  Player.opacity
    (player (update_hyperspace level 10 unit_draws returning)) = 0%Z.
Proof.
  apply (reappear_waits_for_shards level 10 unit_draws returning).
  - reflexivity.
  - vm_compute. discriminate.
Defined.

(** The ship in the stabilize phase: sixteen frames on. *)
Definition settling : t := frames level 16 (1 / 10) unit_draws warp.

Lemma finished_teleport_arms_cooldown_witness :
  phase (frame level (1 / 10) unit_draws settling) = Player.idle /\
  hyperspace_cooldown (frame level (1 / 10) unit_draws settling)
    == HYPERSPACE_COOLDOWN - 1 / 10 /\
  start_hyperspace (frame level (1 / 10) unit_draws settling)
    = frame level (1 / 10) unit_draws settling.
Proof.
  apply (finished_teleport_arms_cooldown level (1 / 10) unit_draws settling).
  - reflexivity.
  - vm_compute. discriminate.
  - reflexivity.
Defined.

Lemma start_hyperspace_guarded_witness :
  start_hyperspace warp = warp /\
  phase (start_hyperspace at_rest) = Player.vanish /\
  HYPERSPACE_LOCK_DURATION
    <= Player.controls_lock (player (start_hyperspace at_rest)).
Proof.
  destruct (start_hyperspace_guarded warp) as (R & _).
  destruct (start_hyperspace_guarded at_rest) as (_ & S).
  destruct S as (S1 & _ & _ & _ & S5 & _);
    [reflexivity | vm_compute; discriminate |].
  split; [apply R; left; discriminate|]. split; assumption.
Defined.

End Teleport.

(** * A whole pass of [DefenderGame.update] around the teleport *)

Module Session.

Import DefenderGame.
Import Teleport.

(** The game after a pass: still being played, or over ([state] is
    ["game_over"], and [update] returns before the player's update from
    then on). *)
Inductive Play : Type :=
| Playing (g : t)
| Over (g : t).

(** [DefenderGame.game_over]: the engine sound stops; the new [state]
    is the [Over] of the result. *)
Definition game_over (g : t) : t := emit (EvStop snd_engine) g.

(** [DefenderGame.respawn_player], on the attributes of the ship that
    the record carries ([thruster_color_index], [reverse_in_progress],
    [pending_direction] and [lead_timer] are not among them). *)
Definition respawn_player (g : t) : t :=
  let g := drop_carried_human true g in
  let p := player g in
  let p := p <| Player.world_pos_x := WORLD_WIDTH / 2 |>
             <| Player.world_pos_y := SCREEN_HEIGHT / 2 |>
             <| Player.invulnerable := PLAYER_RESPAWN_INVULN |>
             <| Player.direction := 1%Z |>
             <| Player.lead_animating := false |> in
  let lead := SCREEN_WIDTH * 0.25 * inject_Z (Player.direction p) in
  let p := p <| Player.lead_current := lead |>
             <| Player.lead_start := lead |>
             <| Player.lead_target := lead |>
             <| Player.velocity_x :=
                  PLAYER_CRUISE_SPEED * inject_Z (Player.direction p) |> in
  let p := p <| Player.pending_speed := Qabs (Player.velocity_x p) |>
             <| Player.throttle_active := false |> in
  emit (EvStop snd_engine) (g <| player := p |>).

(** [DefenderGame.finish_player_respawn] *)
Definition finish_player_respawn (g : t) : Play :=
  if (Player.lives (player g) <? 0)%Z then Over (game_over g)
  else
    let g := respawn_player g in
    Playing
      (g <| player :=
             (player g)
               <| Player.render_visible := true |>
               <| Player.invulnerable :=
                    PLAYER_RESPAWN_INVULN + PLAYER_DEATH_INVULN |> |>).

(** The respawn timer at the head of [update]: [Timer.update] counts
    [time_left] down and fires at zero. *)
Definition respawn_tick (dt : Q) (g : t) : Play :=
  match respawn_timer g with
  | None => Playing g
  | Some time_left =>
      let time_left := time_left - dt in
      if Qle_bool time_left 0 then
        finish_player_respawn (g <| respawn_timer := None |>)
      else Playing (g <| respawn_timer := Some time_left |>)
  end.

(** [if self.invulnerable > 0: self.invulnerable -= dt] in
    [Player.update]. *)
Definition countdown (dt : Q) (g : t) : t :=
  let p := player g in
  if Qlt_bool 0 (Player.invulnerable p) then
    g <| player :=
           p <| Player.invulnerable := Player.invulnerable p - dt |> |>
  else g.

(** [if self.held_human: ...] in [Player.update]: the passenger is
    re-attached and put under the ship. *)
Definition carry (g : t) : t :=
  match Player.held_human (player g) with
  | None => g
  | Some i =>
      let p := player g in
      let place (h : Human.t) : Human.t :=
        let h := Human.attach_to_player h in
        Human.mk (wrap_position (Player.world_pos_x p))
                 (Player.world_pos_y p
                  + (Player.rect_height / 2 + Human.rect_height / 2 - 6))
                 (Human.state h) (Human.carrier h) (Human.velocity_x h)
                 (Human.velocity_y h) (Human.visible h)
                 (Human.drop_start_y h) (Human.safe_landing_rewarded h)
                 (Human.reserved_by h) in
      g <| humans := update_at i place (humans g) |>
  end.

(** [self.player.check_extra_life()] *)
Definition extra_life (g : t) : t :=
  g <| player := Player.check_extra_life (player g) |>.

(** A step of the pass keeps the teleport's state and the lives. *)
Definition keeps_teleport (f : t -> t) : Prop :=
  forall g, phase (f g) = phase g /\ timer (f g) = timer g /\
            pending (f g) = pending g /\
            inbound_shards (f g) = inbound_shards g /\
            lives (f g) = lives g.

Section Pass.

Variable terrain_height : Q -> Q.

(** The head of [Player.update], up to the firing of the laser: the
    controls lock, the keys, steering and reversal, the camera lead,
    the motion of the ship.  It reads the keys, which are not
    modelled; it does not touch the teleport's state or the lives. *)
Variable steer : Q -> t -> t.
Hypothesis steer_keeps : forall dt, keeps_teleport (steer dt).

(** The rest of [DefenderGame.update]: the updates of the other
    sprites (which the source runs in one loop with those of the
    shards), the pending spawns, the radar, the baiter, collisions,
    rescues, the end of the wave.  The assumption covers the passes in
    which nothing collides with the ship (a collision calls [hit]
    again) and no new wave begins ([start_wave] puts the ship back to
    rest itself). *)
Variable world : Q -> t -> t.
Hypothesis world_keeps : forall dt, keeps_teleport (world dt).

(** [Player.update] *)
Definition player_update (dt : Q) (draws : Draws) (g : t) : t :=
  extra_life
    (update_hyperspace terrain_height dt draws
       (carry (countdown dt (steer dt g)))).

(** One pass of [DefenderGame.update] in state ["playing"]. *)
Definition pass (dt : Q) (draws : Draws) (g : t) : Play :=
  match respawn_tick dt g with
  | Over g => Over g
  | Playing g =>
      let g := player_update dt draws g in
      let g := extra_life g in
      let g := cooldown_tick dt g in
      let g := shards_update dt g in
      Playing (world dt g)
  end.

Fixpoint passes (n : nat) (dt : Q) (draws : Draws) (g : t) : Play :=
  match n with
  | O => Playing g
  | S k =>
      match pass dt draws g with
      | Over g => Over g
      | Playing g => passes k dt draws g
      end
  end.

(** ** The teleport's state through a pass *)

(** Two games whose teleports stand alike: same phase, clock and inward
    shards, and the same count of awaited shards where the state
    machine reads it, in the reappear phase. *)
Definition same_machine (a b : t) : Prop :=
  phase a = phase b /\ timer a = timer b /\
  inbound_shards a = inbound_shards b /\
  (phase a = Player.reappear -> pending a = pending b).

Lemma same_machine_refl (a : t) : same_machine a a.
Proof. repeat split. Qed.

Lemma same_machine_sym (a b : t) : same_machine a b -> same_machine b a.
Proof.
  intros (P & T & S & N). repeat split; try congruence.
  intro H. symmetry. apply N. congruence.
Qed.

Lemma same_machine_trans (a b c : t) :
  same_machine a b -> same_machine b c -> same_machine a c.
Proof.
  intros (P1 & T1 & S1 & N1) (P2 & T2 & S2 & N2).
  repeat split; try congruence.
  intro H. rewrite (N1 H). apply N2. congruence.
Qed.

Lemma keeps_same_machine (f : t -> t) (g : t) :
  keeps_teleport f -> same_machine (f g) g.
Proof. intro H. destruct (H g) as (P & T & N & S & _). repeat split; auto. Qed.

(** The lives the ship is sure to keep: a teleport still in its vanish
    phase may yet cost one. *)
Definition floor (g : t) : Z :=
  match phase g with
  | Player.vanish => (lives g - 1)%Z
  | _ => lives g
  end.

Lemma floor_le_lives (g : t) : (floor g <= lives g)%Z.
Proof. unfold floor. destruct (phase g); lia. Qed.

Lemma floor_same (a b : t) :
  phase a = phase b -> (lives b <= lives a)%Z -> (floor b <= floor a)%Z.
Proof. unfold floor. intros -> H. destruct (phase b); lia. Qed.

Lemma update_hyperspace_machine (dt : Q) (d d' : Draws) (a b : t) :
  same_machine a b ->
  same_machine (update_hyperspace terrain_height dt d a)
               (update_hyperspace terrain_height dt d' b).
Proof.
  intros (P & T & S & N). unfold same_machine.
  destruct (phase a) eqn:Ea; symmetry in P.
  - destruct (update_idle terrain_height dt d a Ea) as (A1 & _ & _ & A4 & A5 & _).
    destruct (update_idle terrain_height dt d' b P) as (B1 & _ & _ & B4 & B5 & _).
    rewrite A1, A4, A5, B1, B4, B5.
    repeat split; try assumption. discriminate.
  - destruct (Qlt_le_dec (timer a + dt) HYPERSPACE_VANISH_TIME) as [Hw | Hg].
    + destruct (update_vanish_wait terrain_height dt d a Ea Hw)
        as (A1 & A2 & A3 & _).
      rewrite T in Hw.
      destruct (update_vanish_wait terrain_height dt d' b P Hw)
        as (B1 & B2 & B3 & _).
      rewrite A1, A2, A3, B1, B2, B3, T, S.
      repeat split. discriminate.
    + destruct (update_vanish_go terrain_height dt d a Ea Hg)
        as (A1 & A2 & A3 & _).
      rewrite T in Hg.
      destruct (update_vanish_go terrain_height dt d' b P Hg)
        as (B1 & B2 & B3 & _).
      rewrite A1, A2, A3, B1, B2, B3, S.
      repeat split. discriminate.
  - destruct (update_jump terrain_height dt d a Ea) as (_ & _ & A).
    destruct (update_jump terrain_height dt d' b P) as (_ & _ & B).
    rewrite <- T in B.
    destruct (Qle_bool HYPERSPACE_REAPPEAR_DELAY (timer a + dt)).
    + destruct A as (A1 & A2 & A3 & A4). destruct B as (B1 & B2 & B3 & B4).
      rewrite A1, A2, A3, A4, B1, B2, B3, B4, S. repeat split.
    + destruct A as (A1 & A2 & A3 & A4). destruct B as (B1 & B2 & B3 & B4).
      rewrite A1, A2, A3, B1, B2, B3, S. repeat split. discriminate.
  - destruct (update_reappear terrain_height dt d a Ea)
      as (_ & _ & A3 & A4 & A).
    destruct (update_reappear terrain_height dt d' b P)
      as (_ & _ & B3 & B4 & B).
    rewrite <- T, <- (N eq_refl) in B.
    destruct (Qle_bool HYPERSPACE_REAPPEAR_TIME (timer a + dt)
              && (pending a =? 0)%Z).
    + destruct A as (A1 & A2). destruct B as (B1 & B2).
      rewrite A1, A2, A3, B1, B2, B3, S. repeat split. discriminate.
    + destruct A as (A1 & A2). destruct B as (B1 & B2).
      rewrite A1, A2, A3, A4, B1, B2, B3, B4, S, (N eq_refl).
      repeat split.
  - destruct (update_stabilize terrain_height dt d a Ea)
      as (_ & _ & A3 & _ & A).
    destruct (update_stabilize terrain_height dt d' b P)
      as (_ & _ & B3 & _ & B).
    rewrite <- T in B.
    destruct (Qle_bool HYPERSPACE_STABILIZE_TIME (timer a + dt)).
    + destruct A as (A1 & A2 & _). destruct B as (B1 & B2 & _).
      rewrite A1, A2, A3, B1, B2, B3, S. repeat split. discriminate.
    + destruct A as (A1 & A2). destruct B as (B1 & B2).
      rewrite A1, A2, A3, B1, B2, B3, S. repeat split. discriminate.
Qed.

Lemma notify_count (n : nat) (p : Player.t) :
  Player.hyperspace_inbound_shards
    (Nat.iter n Player.notify_inbound_shard_complete p)
  = Nat.iter n (fun c => Z.max 0 (c - 1)) (Player.hyperspace_inbound_shards p).
Proof.
  induction n as [|n IH]; [reflexivity|].
  rewrite !Nat.iter_succ, <- IH.
  destruct (Nat.iter n Player.notify_inbound_shard_complete p). reflexivity.
Qed.

Lemma shards_update_pending (dt : Q) (g : t) :
  pending (shards_update dt g)
  = Nat.iter (snd (shards_step dt (inbound_shards g)))
             (fun c => Z.max 0 (c - 1)) (pending g).
Proof.
  unfold pending, shards_update.
  destruct (shards_step dt (inbound_shards g)) as [alive done].
  cbn [snd]. rewrite <- notify_count. destruct g. reflexivity.
Qed.

Lemma shards_update_machine (dt : Q) (a b : t) :
  same_machine a b ->
  same_machine (shards_update dt a) (shards_update dt b).
Proof.
  intros (P & T & S & N).
  destruct (shards_update_observed dt a) as (A1 & A2 & _ & _ & _ & A6 & _).
  destruct (shards_update_observed dt b) as (B1 & B2 & _ & _ & _ & B6 & _).
  unfold same_machine.
  rewrite A1, A2, A6, B1, B2, B6, !shards_update_pending, S.
  repeat split; try assumption.
  intro H. rewrite (N H). reflexivity.
Qed.

Lemma cooldown_tick_keeps (dt : Q) : keeps_teleport (cooldown_tick dt).
Proof.
  intro g. destruct (cooldown_tick_observed dt g) as (Hp & Hs & _).
  unfold phase, timer, pending, lives. rewrite Hp, Hs. repeat split.
Qed.

Lemma shards_update_lives (dt : Q) (g : t) :
  phase (shards_update dt g) = phase g /\
  lives (shards_update dt g) = lives g.
Proof.
  destruct (shards_update_observed dt g) as (A1 & _ & A3 & _). split; assumption.
Qed.

Lemma extra_life_keeps (g : t) :
  phase (extra_life g) = phase g /\ timer (extra_life g) = timer g /\
  pending (extra_life g) = pending g /\
  inbound_shards (extra_life g) = inbound_shards g /\
  (lives g <= lives (extra_life g))%Z.
Proof.
  unfold extra_life, phase, timer, pending, lives, Player.check_extra_life.
  destruct g as [p hs ls oe mi nd rt hc rb rw sh ev]. destruct p. rsimpl.
  destruct (5 <=? lives0)%Z; rsimpl; [repeat split; lia|].
  destruct (_ <=? score)%Z; rsimpl; repeat split; lia.
Qed.

Lemma countdown_keeps (dt : Q) : keeps_teleport (countdown dt).
Proof.
  intro g. unfold countdown, phase, timer, pending, lives.
  destruct g as [p hs ls oe mi nd rt hc rb rw sh ev]. destruct p. rsimpl.
  destruct (Qlt_bool 0 invulnerable); repeat split.
Qed.

Lemma carry_keeps : keeps_teleport carry.
Proof.
  intro g. unfold carry, phase, timer, pending, lives.
  destruct g as [p hs ls oe mi nd rt hc rb rw sh ev]. destruct p. rsimpl.
  destruct held_human; repeat split.
Qed.

(** With a life in hand the respawn timer never ends the game, and a
    respawn leaves the teleport's state and the lives alone. *)
Lemma respawn_tick_playing (dt : Q) (g : t) :
  (0 <= lives g)%Z ->
  exists g1, respawn_tick dt g = Playing g1 /\
    phase g1 = phase g /\ timer g1 = timer g /\ pending g1 = pending g /\
    inbound_shards g1 = inbound_shards g /\ lives g1 = lives g.
Proof.
  unfold respawn_tick, finish_player_respawn, respawn_player,
    drop_carried_human, phase, timer, pending, lives.
  destruct g as [p hs ls oe mi nd rt hc rb rw sh ev]. destruct p. rsimpl.
  intro Hl. destruct rt as [left|]; [|eexists; repeat split].
  destruct (Qle_bool (left - dt) 0); [|eexists; repeat split].
  assert (E : (lives0 <? 0)%Z = false) by (apply Z.ltb_ge; exact Hl).
  rewrite E. destruct held_human; rsimpl; eexists; repeat split.
Qed.

Lemma update_hyperspace_floor (dt : Q) (draws : Draws) (g : t) :
  (floor g <= floor (update_hyperspace terrain_height dt draws g))%Z.
Proof.
  unfold floor at 1. destruct (phase g) eqn:E.
  - destruct (update_idle terrain_height dt draws g E) as (U1 & U2 & _).
    unfold floor. rewrite U1, U2. lia.
  - destruct (Qlt_le_dec (timer g + dt) HYPERSPACE_VANISH_TIME) as [Hw | Hg].
    + destruct (update_vanish_wait terrain_height dt draws g E Hw)
        as (U1 & _ & _ & U4 & _).
      unfold floor. rewrite U1, U4. lia.
    + destruct (update_vanish_go terrain_height dt draws g E Hg) as (U1 & _).
      assert (L := update_vanish_go_lives terrain_height dt draws g E Hg).
      unfold floor. rewrite U1. lia.
  - destruct (update_jump terrain_height dt draws g E) as (U1 & _ & U).
    unfold floor.
    destruct (Qle_bool HYPERSPACE_REAPPEAR_DELAY (timer g + dt));
      destruct U as (-> & _); lia.
  - destruct (update_reappear terrain_height dt draws g E)
      as (U1 & _ & _ & _ & U).
    unfold floor.
    destruct (Qle_bool HYPERSPACE_REAPPEAR_TIME (timer g + dt)
              && (pending g =? 0)%Z);
      destruct U as (-> & _); lia.
  - destruct (update_stabilize terrain_height dt draws g E)
      as (U1 & _ & _ & _ & U).
    unfold floor.
    destruct (Qle_bool HYPERSPACE_STABILIZE_TIME (timer g + dt));
      destruct U as (-> & _); lia.
Qed.

Lemma frame_machine (dt : Q) (d d' : Draws) (a b : t) :
  same_machine a b ->
  same_machine (frame terrain_height dt d a) (frame terrain_height dt d' b).
Proof.
  intro H. unfold frame. apply shards_update_machine.
  apply (same_machine_trans _ (update_hyperspace terrain_height dt d a));
    [apply keeps_same_machine, cooldown_tick_keeps|].
  apply (same_machine_trans _ (update_hyperspace terrain_height dt d' b));
    [apply update_hyperspace_machine; exact H|].
  apply same_machine_sym, keeps_same_machine, cooldown_tick_keeps.
Qed.

Lemma frames_machine (n : nat) (dt : Q) (d d' : Draws) :
  forall a b, same_machine a b ->
  same_machine (frames terrain_height n dt d a)
               (frames terrain_height n dt d' b).
Proof.
  induction n as [|n IH]; intros a b H; [exact H|].
  cbn [frames]. apply IH. apply frame_machine. exact H.
Qed.

(** A pass with a life in hand: the game goes on, the teleport moves
    as [frame] moves it, and no sure life is lost. *)
Lemma pass_follows_frame (dt : Q) (draws : Draws) (g : t) :
  (0 <= floor g)%Z ->
  exists g', pass dt draws g = Playing g' /\
    same_machine g' (frame terrain_height dt draws g) /\
    (floor g <= floor g')%Z.
Proof.
  intro Hf. assert (Hl := floor_le_lives g).
  destruct (respawn_tick_playing dt g) as (g1 & E & P1 & T1 & N1 & S1 & L1);
    [lia|].
  unfold pass. rewrite E. cbv zeta. eexists. split; [reflexivity|].
  set (g2 := carry (countdown dt (steer dt g1))).
  assert (K2 : phase g2 = phase g /\ timer g2 = timer g /\
               pending g2 = pending g /\
               inbound_shards g2 = inbound_shards g /\ lives g2 = lives g).
  { unfold g2.
    destruct (carry_keeps (countdown dt (steer dt g1)))
      as (A1 & A2 & A3 & A4 & A5).
    destruct (countdown_keeps dt (steer dt g1)) as (B1 & B2 & B3 & B4 & B5).
    destruct (steer_keeps dt g1) as (C1 & C2 & C3 & C4 & C5).
    repeat split; congruence. }
  destruct K2 as (P2 & T2 & N2 & S2 & L2).
  assert (M2 : same_machine g2 g) by (repeat split; auto).
  assert (F2 : floor g2 = floor g) by (unfold floor; rewrite P2, L2; reflexivity).
  unfold player_update. fold g2.
  set (u := update_hyperspace terrain_height dt draws g2).
  assert (Mu : same_machine u (update_hyperspace terrain_height dt draws g))
    by (apply update_hyperspace_machine; exact M2).
  assert (Fu : (floor g <= floor u)%Z)
    by (rewrite <- F2; apply update_hyperspace_floor).
  destruct (extra_life_keeps u) as (X1 & X2 & X3 & X4 & X5).
  destruct (extra_life_keeps (extra_life u)) as (Y1 & Y2 & Y3 & Y4 & Y5).
  set (v := extra_life (extra_life u)) in *.
  assert (Mv : same_machine v u) by (repeat split; congruence).
  assert (Fv : (floor u <= floor v)%Z)
    by (apply floor_same; [congruence | lia]).
  destruct (cooldown_tick_keeps dt v) as (C1 & C2 & C3 & C4 & C5).
  destruct (shards_update_lives dt (cooldown_tick dt v)) as (D1 & D2).
  destruct (world_keeps dt (shards_update dt (cooldown_tick dt v)))
    as (W1 & W2 & W3 & W4 & W5).
  split.
  - apply (same_machine_trans _ (shards_update dt (cooldown_tick dt v)));
      [apply keeps_same_machine, world_keeps|].
    unfold frame. apply shards_update_machine.
    apply (same_machine_trans _ v);
      [apply keeps_same_machine, cooldown_tick_keeps|].
    apply (same_machine_trans _ u); [exact Mv|].
    apply (same_machine_trans _ _ _ Mu).
    apply same_machine_sym, keeps_same_machine, cooldown_tick_keeps.
  - apply (Z.le_trans _ _ _ Fu). apply (Z.le_trans _ _ _ Fv).
    apply floor_same; [congruence | lia].
Qed.

Lemma passes_follow_frames (n : nat) (dt : Q) (draws : Draws) :
  forall g, (0 <= floor g)%Z ->
  exists g', passes n dt draws g = Playing g' /\
    same_machine g' (frames terrain_height n dt draws g) /\
    (floor g <= floor g')%Z.
Proof.
  induction n as [|n IH]; intros g Hf.
  - exists g. split; [reflexivity|]. split; [apply same_machine_refl | lia].
  - destruct (pass_follows_frame dt draws g Hf) as (g1 & E1 & M1 & F1).
    destruct (IH g1) as (g' & E & M & F); [lia|].
    exists g'. cbn [passes frames]. rewrite E1.
    split; [exact E|]. split; [|lia].
    apply (same_machine_trans _ _ _ M). apply frames_machine. exact M1.
Qed.

(** Started with no inward shard in flight and at least one life in
    hand, a teleport runs through vanish, jump, reappear and stabilize
    back to rest in finitely many passes of [update] of any positive
    length, the game still being played, and costs at most one life on
    the way.  (On the last life the hit of an unsafe landing arms the
    respawn timer, which ends the game two seconds later; with long
    passes that comes before the ship is back, see
    [last_life_ends_the_game].) *)
Theorem teleport_runs_to_idle (dt : Q) (draws : Draws) (g : t) :
  0 < dt ->
  phase g = Player.vanish -> inbound_shards g = [] ->
  (1 <= lives g)%Z ->
  exists n g', passes n dt draws g = Playing g' /\
    phase g' = Player.idle /\ (lives g - 1 <= lives g')%Z.
Proof.
  intros Hdt Hp Hs Hl.
  destruct (frames_run_to_idle terrain_height dt draws g Hdt Hp Hs)
    as (n & Hn & _).
  assert (Hf : floor g = (lives g - 1)%Z) by (unfold floor; rewrite Hp; reflexivity).
  destruct (passes_follow_frames n dt draws g) as (g' & E & (P & _) & F);
    [lia|].
  exists n, g'. split; [exact E|]. rewrite P, Hn. split; [reflexivity|].
  assert (Hg := floor_le_lives g'). lia.
Qed.

End Pass.

(** ** On level ground, hands off the controls *)

(** No key is pressed and nothing else happens in the world. *)
Definition hands_off : Q -> t -> t := fun _ g => g.

Lemma hands_off_keeps (dt : Q) : keeps_teleport (hands_off dt).
Proof. intro g. repeat split. Qed.

Lemma teleport_runs_to_idle_witness :
  exists n g',
    passes level hands_off hands_off n (1 / 10) unit_draws warp = Playing g' /\
    phase g' = Player.idle /\ (lives warp - 1 <= lives g')%Z.
Proof.
  apply (teleport_runs_to_idle level hands_off hands_off_keeps
           hands_off hands_off_keeps).
  - reflexivity.
  - reflexivity.
  - reflexivity.
  - vm_compute. discriminate.
Defined.

(** The ship on its last life, starting a teleport. *)
Definition last_life : t :=
  start_hyperspace
    (at_rest <| player := (player at_rest) <| Player.lives := 0%Z |> |>).

(** On the last life, with passes of half a second, the respawn timer
    armed by the landing fires on the fifth pass and ends the game with
    the ship still in the reappear phase. *)
Example last_life_ends_the_game :
  exists g', passes level hands_off hands_off 5 (1 / 2) unit_draws last_life
             = Over g' /\
             phase g' = Player.reappear /\ lives g' = (-1)%Z.
Proof. eexists. split; [vm_compute; reflexivity|]. split; reflexivity. Qed.

End Session.

(** * Screen geometry ([clamp], [world_to_screen]) *)

Module Geometry.

(** [world_to_screen(x, camera_x)] *)
Definition world_to_screen (x camera_x : Q) : Q :=
  let offset := shortest_offset x camera_x in
  offset + SCREEN_WIDTH / 2.

Lemma Qmax_cases (a b : Q) :
  (a < b /\ Qmax a b = b) \/ (b <= a /\ Qmax a b = a).
Proof.
  unfold Qmax. destruct (Qlt_bool a b) eqn:E.
  - left. split; [apply Qlt_bool_iff; exact E | reflexivity].
  - right. split; [apply Qlt_bool_false_iff; exact E | reflexivity].
Qed.

Lemma Qmin_cases (a b : Q) :
  (b < a /\ Qmin a b = b) \/ (a <= b /\ Qmin a b = a).
Proof.
  unfold Qmin. destruct (Qlt_bool b a) eqn:E.
  - left. split; [apply Qlt_bool_iff; exact E | reflexivity].
  - right. split; [apply Qlt_bool_false_iff; exact E | reflexivity].
Qed.

Lemma clamp_bounds (v low high : Q) :
  low <= high -> low <= clamp v low high <= high.
Proof.
  intro H. unfold clamp.
  destruct (Qmin_cases high v) as [[H1 ->] | [H1 ->]];
    [destruct (Qmax_cases low v) as [[H2 ->] | [H2 ->]]
    |destruct (Qmax_cases low high) as [[H2 ->] | [H2 ->]]];
    split; lra.
Qed.

Lemma clamp_inside (v low high : Q) :
  low <= v <= high -> clamp v low high == v.
Proof.
  intros [H1 H2]. unfold clamp.
  destruct (Qmin_cases high v) as [[H3 ->] | [H3 ->]];
    [destruct (Qmax_cases low v) as [[H4 ->] | [H4 ->]]
    |destruct (Qmax_cases low high) as [[H4 ->] | [H4 ->]]]; lra.
Qed.

(** [clamp] with its bounds in order: the result lies between them, a
    value already between them is returned unchanged, values outside
    go to the nearer bound, and clamping twice is clamping once. *)
Theorem clamp_in_order (v low high : Q) :
  low <= high ->
  low <= clamp v low high <= high /\
  (low <= v <= high -> clamp v low high == v) /\
  (v < low -> clamp v low high == low) /\
  (high < v -> clamp v low high == high) /\
  clamp (clamp v low high) low high == clamp v low high.
Proof.
  intro H. split; [apply clamp_bounds; exact H|].
  split; [apply clamp_inside|].
  split; [|split].
  - intro Hv. unfold clamp.
    destruct (Qmin_cases high v) as [[H1 ->] | [H1 ->]].
    + destruct (Qmax_cases low v) as [[H2 _] | [_ ->]];
        [exfalso; lra | reflexivity].
    + exfalso. lra.
  - intro Hv. unfold clamp.
    destruct (Qmin_cases high v) as [[H1 _] | [_ ->]]; [exfalso; lra|].
    destruct (Qmax_cases low high) as [[_ ->] | [H2 ->]]; [reflexivity|].
    lra.
  - apply clamp_inside. apply clamp_bounds. exact H.
Qed.

(** [clamp] with its bounds the wrong way round returns the lower
    bound, whatever the value. *)
Theorem clamp_inverted (v low high : Q) :
  high < low -> clamp v low high = low.
Proof.
  intro H. unfold clamp.
  destruct (Qmin_cases high v) as [[H1 ->] | [H1 ->]].
  - destruct (Qmax_cases low v) as [[H2 _] | [_ ->]];
      [exfalso; lra | reflexivity].
  - destruct (Qmax_cases low high) as [[H2 _] | [_ ->]];
      [exfalso; lra | reflexivity].
Qed.

Lemma clamp_in_order_witness :
  PLAYFIELD_TOP + 40
    <= clamp 500 (PLAYFIELD_TOP + 40) (PLAYFIELD_TOP + 160)
    <= PLAYFIELD_TOP + 160 /\
  clamp 500 (PLAYFIELD_TOP + 40) (PLAYFIELD_TOP + 160) == PLAYFIELD_TOP + 160.
Proof.
  destruct (clamp_in_order 500 (PLAYFIELD_TOP + 40) (PLAYFIELD_TOP + 160))
    as (B & _ & _ & Hh & _).
  - vm_compute. discriminate.
  - split; [exact B | apply Hh; reflexivity].
Defined.

Lemma clamp_inverted_witness : clamp 7 10 0 = 10.
Proof. apply (clamp_inverted 7 10 0). reflexivity. Defined.

Lemma shortest_offset_self (c : Q) : shortest_offset c c == 0.
Proof.
  unfold shortest_offset. cbv zeta.
  assert (E : py_mod (c - c) WORLD_WIDTH == 0).
  { unfold py_mod.
    assert (Ef : Qfloor ((c - c) / WORLD_WIDTH) = 0%Z).
    { apply Qfloor_unique; change (inject_Z 0) with 0.
      - assert (Ec : (c - c) / WORLD_WIDTH == 0)
          by (unfold WORLD_WIDTH; field). rewrite Ec. lra.
      - assert (Ec : (c - c) / WORLD_WIDTH == 0)
          by (unfold WORLD_WIDTH; field). rewrite Ec. lra. }
    rewrite Ef. change (inject_Z 0) with 0. ring. }
  remember (py_mod (c - c) WORLD_WIDTH) as r. clear Heqr.
  assert (Hh := half_WORLD_WIDTH).
  destruct (Qlt_bool (WORLD_WIDTH / 2) r) eqn:E1.
  - apply Qlt_bool_iff in E1. lra.
  - exact E.
Qed.

(** [world_to_screen] draws every sprite within half a world of the
    screen centre, and puts a sprite at the camera position exactly at
    the centre. *)
Theorem world_to_screen_on_ring (x camera_x : Q) :
  SCREEN_WIDTH / 2 - WORLD_WIDTH / 2 < world_to_screen x camera_x
    /\ world_to_screen x camera_x <= SCREEN_WIDTH / 2 + WORLD_WIDTH / 2 /\
  world_to_screen camera_x camera_x == SCREEN_WIDTH / 2.
Proof.
  unfold world_to_screen. cbv zeta.
  destruct (shortest_offset_bounds x camera_x) as [H1 H2].
  assert (Hs := shortest_offset_self camera_x).
  remember (SCREEN_WIDTH / 2) as half_screen.
  remember (WORLD_WIDTH / 2) as half_world.
  repeat split; lra.
Qed.

End Geometry.

(** * The colonist's life cycle ([Human.die], [capture], [update]) *)

Arguments Qplus : simpl never.
Arguments Qminus : simpl never.
Arguments Qmult : simpl never.
Arguments Qdiv : simpl never.
Arguments Qle_bool : simpl never.
Arguments Qlt_bool : simpl never.

Module ColonistLife.

Import DefenderGame.

(** [die] is final: the colonist ends up [dead], a second call changes
    nothing and notifies nobody, and the carrier is notified exactly
    when a live colonist was held by a lander. *)
Theorem die_is_final (h : Human.t) :
  Human.state (fst (Human.die h)) = Human.dead /\
  Human.die (fst (Human.die h)) = (fst (Human.die h), None) /\
  (Human.state h <> Human.dead ->
   Human.visible (fst (Human.die h)) = false /\
   Human.carrier (fst (Human.die h)) = None /\
   Human.reserved_by (fst (Human.die h)) = None /\
   Human.world_pos_x (fst (Human.die h)) = Human.world_pos_x h /\
   Human.world_pos_y (fst (Human.die h)) = Human.world_pos_y h) /\
  (forall l, snd (Human.die h) = Some l <->
     Human.state h <> Human.dead /\
     Human.carrier h = Some (CarrierLander l)).
Proof.
  destruct h as [x y s c vx vy vis d r rb]. unfold Human.die. cbn.
  destruct s; destruct c as [[l0|]|]; cbn.
  all: split; [reflexivity|]; split; [reflexivity|]; split;
    [intro Hs; try (exfalso; apply Hs; reflexivity); repeat split|].
  all: intro l; split;
    [intro H;
     first [discriminate
           | injection H as <-; split; [discriminate | reflexivity]]
    |intros [Hs Hc];
     first [exfalso; apply Hs; reflexivity
           | discriminate
           | injection Hc as <-; reflexivity]].
Qed.

(** [capture] takes a colonist only from the ground; it then hangs on
    the lander and gives up that lander's own reservation, while a
    reservation held by another lander is left standing. *)
Theorem capture_only_from_ground (l : LanderRef) (h : Human.t) :
  (Human.state h <> Human.ground -> Human.capture l h = h) /\
  (Human.state h = Human.ground ->
   Human.state (Human.capture l h) = Human.captured /\
   Human.carrier (Human.capture l h) = Some (CarrierLander l) /\
   Human.world_pos_x (Human.capture l h) = Human.world_pos_x h /\
   Human.world_pos_y (Human.capture l h) = Human.world_pos_y h /\
   (Human.reserved_by h = Some l ->
    Human.reserved_by (Human.capture l h) = None) /\
   (forall l2, l2 <> l -> Human.reserved_by h = Some l2 ->
    Human.reserved_by (Human.capture l h) = Some l2)).
Proof.
  destruct h as [x y s c vx vy vis d r rb]. unfold Human.capture. cbn.
  split.
  - intro Hs. destruct s; try reflexivity. contradiction.
  - intros ->. unfold Human.release_reservation. cbn.
    destruct rb as [l0|]; cbn.
    + destruct (Nat.eqb l0 l) eqn:E; cbn; repeat split; try congruence.
      * intros l2 Hne H. injection H as ->.
        apply Nat.eqb_eq in E. contradiction.
      * intro H. injection H as ->. rewrite Nat.eqb_refl in E.
        discriminate.
    + repeat split; congruence.
Qed.

Section WithTerrain.

Variable terrain_height : Q -> Q.
Variable carrier_at : Carrier -> Q * Q * Q.

(** A falling colonist never sinks below the ground line and never
    falls faster than [TERMINAL_VELOCITY]: after any update it stands
    at most at [terrain - rect.height / 2], it keeps its column and
    the height it was dropped from, and it is still falling, safely
    down, or dead. *)
Theorem falling_stays_above_ground (dt : Q) (h : Human.t) :
  Human.state h = Human.falling ->
  let h' := fst (Human.update terrain_height carrier_at dt h) in
  Human.world_pos_y h'
    <= terrain_height (Human.world_pos_x h) - Human.rect_height / 2 /\
  Human.velocity_y h' <= TERMINAL_VELOCITY /\
  Human.world_pos_x h' = Human.world_pos_x h /\
  Human.drop_start_y h' = Human.drop_start_y h /\
  (Human.state h' = Human.falling \/ Human.state h' = Human.ground \/
   Human.state h' = Human.dead) /\
  (Human.state h' <> Human.falling ->
   Human.world_pos_y h'
     = terrain_height (Human.world_pos_x h) - Human.rect_height / 2 /\
   Human.velocity_y h' = 0).
Proof.
  destruct h as [x y s c vx vy vis d r rb]. cbn. intros ->.
  unfold Human.update. cbn.
  set (floor_y := terrain_height x - Human.rect_height / 2).
  set (v := Qmin (vy + GRAVITY * dt) TERMINAL_VELOCITY).
  assert (Hv : v <= TERMINAL_VELOCITY).
  { unfold v, Qmin.
    destruct (Qlt_bool TERMINAL_VELOCITY (vy + GRAVITY * dt)) eqn:E.
    - apply Qle_refl.
    - apply Qlt_bool_false_iff in E. exact E. }
  destruct (Qle_bool floor_y (y + v * dt)) eqn:E.
  - destruct (Qle_bool Human.catastrophic_height _);
      [|destruct (Qlt_bool Human.lethal_height _)]; cbn;
      (split; [apply Qle_refl|]); (split; [discriminate|]);
      repeat split; auto.
  - apply Qle_bool_false_iff in E. cbn.
    split; [apply Qlt_le_weak; exact E|].
    split; [exact Hv|]. repeat split; auto; exfalso; auto.
Qed.

End WithTerrain.

Section Following.

Variable terrain_height : Q -> Q.

(** A colonist in the grip of a lander hangs 22 below the lander's
    centre, one carried by the ship 16 below the ship's, at rest; the
    update of a held colonist touches nothing else in the game.  A
    colonist marked carried that has lost its carrier starts to fall
    from where it is. *)
Theorem held_colonist_follows_carrier
    (dt : Q) (i : HumanRef) (g : t) (h : Human.t) :
  nth_error (humans g) i = Some h ->
  (forall l ld, Human.state h = Human.captured ->
     Human.carrier h = Some (CarrierLander l) ->
     nth_error (landers g) l = Some ld ->
     exists h', nth_error (humans (human_update terrain_height dt i g)) i
                = Some h' /\
       Human.world_pos_x h' = Lander.world_pos_x ld /\
       Human.world_pos_y h' == Lander.world_pos_y ld + 22 /\
       Human.state h' = Human.captured) /\
  (Human.state h = Human.carried ->
   Human.carrier h = Some CarrierPlayer ->
   exists h', nth_error (humans (human_update terrain_height dt i g)) i
              = Some h' /\
     Human.world_pos_x h' = Player.world_pos_x (player g) /\
     Human.world_pos_y h' == Player.world_pos_y (player g) + 16 /\
     Human.velocity_x h' = 0 /\ Human.velocity_y h' = 0 /\
     Human.state h' = Human.carried) /\
  (Human.state h = Human.carried -> Human.carrier h = None ->
   nth_error (humans (human_update terrain_height dt i g)) i
   = Some (Human.start_falling h)) /\
  (Human.state h = Human.captured \/ Human.state h = Human.carried ->
   player (human_update terrain_height dt i g) = player g /\
   landers (human_update terrain_height dt i g) = landers g /\
   events (human_update terrain_height dt i g) = events g).
Proof.
  intro Hi. unfold human_update. rewrite Hi.
  destruct h as [x y s c vx vy vis d r rb]. cbn.
  split; [|split; [|split]].
  - intros l ld -> -> Hl. unfold Human.update. cbn. rewrite Hl. cbn.
    destruct g as [p hs ls oe mi nd rt hc rb' rw sh ev]. rsimpl.
    cbn in Hi. eexists. split; [apply (update_at_same i _ hs _ Hi)|].
    cbn. repeat split. unfold Lander.rect_height, Human.rect_height. field.
  - intros -> ->. unfold Human.update. cbn.
    destruct g as [p hs ls oe mi nd rt hc rb' rw sh ev]. rsimpl.
    cbn in Hi. eexists. split; [apply (update_at_same i _ hs _ Hi)|].
    cbn. repeat split. unfold Player.rect_height, Human.rect_height. field.
  - intros -> ->. unfold Human.update. cbn.
    destruct g as [p hs ls oe mi nd rt hc rb' rw sh ev]. rsimpl.
    cbn in Hi. rewrite (update_at_same i _ hs _ Hi). reflexivity.
  - intros [-> | ->]; unfold Human.update; cbn;
      destruct c as [c|]; cbn;
      try destruct (carrier_at g c) as [[cx cy] ch]; cbn;
      destruct g; repeat split.
Qed.

End Following.

(** A colonist in the grip of lander 0 ([CaptiveRemoved.abduction]). *)
Lemma held_colonist_follows_carrier_witness :
  exists h', nth_error
               (humans (human_update ColonistFall.level_ground (1 / 20)
                          0%nat CaptiveRemoved.abduction)) 0%nat = Some h' /\
    Human.world_pos_x h' = 1500 /\ Human.world_pos_y h' == 322.
Proof.
  destruct (held_colonist_follows_carrier ColonistFall.level_ground (1 / 20)
              0%nat CaptiveRemoved.abduction CaptiveRemoved.captive eq_refl)
    as (H & _).
  destruct (H 0%nat CaptiveRemoved.captor eq_refl eq_refl eq_refl)
    as (h' & E & X & Y & _).
  exists h'. split; [exact E|]. split; [exact X|].
  rewrite Y. reflexivity.
Defined.

Lemma falling_stays_above_ground_witness :
  Human.world_pos_y
    (fst (Human.update ColonistFall.level_ground
            (carrier_at CaptiveRemoved.abduction) (1 / 20)
            (ColonistFall.released 100)))
  <= 650 - Human.rect_height / 2.
Proof.
  destruct (falling_stays_above_ground ColonistFall.level_ground
              (carrier_at CaptiveRemoved.abduction) (1 / 20)
              (ColonistFall.released 100) eq_refl) as (H & _).
  exact H.
Defined.

End ColonistLife.

(** * Carrying colonists ([Player.pickup_human], [deliver_human],
      [drop_carried_human], [Player.hit]) *)

Module Rescue.

Import DefenderGame.

(** [Player.pickup_human(human)] for the colonist [i]. *)
Definition pickup_human (i : HumanRef) (g : t) : t :=
  match Player.held_human (player g) with
  | Some _ => g
  | None =>
      g <| player := (player g) <| Player.held_human := Some i |> |>
        <| humans := update_at i Human.attach_to_player (humans g) |>
  end.

Section WithTerrain.

Variable terrain_height : Q -> Q.

(** [Player.deliver_human()]: the game afterwards and the colonist
    returned. *)
Definition deliver_human (g : t) : t * option HumanRef :=
  match Player.held_human (player g) with
  | None => (g, None)
  | Some i =>
      let p := player g in
      let place (h : Human.t) : Human.t :=
        Human.place_on_ground terrain_height
          (Human.mk (wrap_position (Player.world_pos_x p))
                    (Human.world_pos_y h) (Human.state h) None
                    (Human.velocity_x h) (Human.velocity_y h)
                    (Human.visible h) (Human.drop_start_y h)
                    (Human.safe_landing_rewarded h) (Human.reserved_by h)) in
      (g <| player := p <| Player.held_human := None |> |>
         <| humans := update_at i place (humans g) |>, Some i)
  end.

(** The [else] branch of [handle_human_interactions], taken while the
    ship holds a colonist: delivery once the ship is within 12 of the
    height at which the colonist would stand.  The result is [None]
    when the ship holds nothing: the method then runs its other branch,
    the pickup loop, which is not modelled. *)
Definition deliver_carried (g : t) : option t :=
  match Player.held_human (player g) with
  | None => None
  | Some i =>
      match nth_error (humans g) i with
      | None => Some g
      | Some carried =>
          let ground_target :=
            terrain_height (Human.world_pos_x carried)
            - Human.rect_height / 2 in
          if Qle_bool (ground_target - 12) (Player.world_pos_y (player g))
          then
            let '(g, delivered) := deliver_human g in
            match delivered with
            | None => Some g
            | Some j =>
                match nth_error (humans g) j with
                | None => Some g
                | Some d =>
                    let g := g <| player :=
                               (player g) <| Player.score :=
                                 (Player.score (player g) + 250)%Z |> |> in
                    let g := spawn_score_popup (Human.world_pos_x d)
                               (Human.world_pos_y d) 250 g in
                    Some (emit (EvPlay snd_human_drop) g)
                end
            end
          else Some g
      end
  end.

End WithTerrain.

(** The ship holds at most one colonist: a pickup while one is held
    changes nothing; otherwise the colonist becomes [carried] by the
    ship, visible, at rest and free of any lander's reservation, and
    no other colonist is touched. *)
Theorem pickup_holds_one (i : HumanRef) (g : t) :
  (Player.held_human (player g) <> None -> pickup_human i g = g) /\
  (Player.held_human (player g) = None ->
   Player.held_human (player (pickup_human i g)) = Some i /\
   (forall h, nth_error (humans g) i = Some h ->
      exists h', nth_error (humans (pickup_human i g)) i = Some h' /\
        Human.state h' = Human.carried /\
        Human.carrier h' = Some CarrierPlayer /\
        Human.visible h' = true /\ Human.reserved_by h' = None /\
        Human.velocity_x h' = 0 /\ Human.velocity_y h' = 0 /\
        Human.world_pos_x h' = Human.world_pos_x h /\
        Human.world_pos_y h' = Human.world_pos_y h) /\
   (forall j, j <> i ->
      nth_error (humans (pickup_human i g)) j = nth_error (humans g) j)).
Proof.
  unfold pickup_human.
  destruct g as [p hs ls oe mi nd rt hc rb rw sh ev]. destruct p. cbn.
  split.
  - intro H. destruct held_human; [reflexivity | contradiction].
  - intros ->. rsimpl. split; [reflexivity|]. split.
    + intros h Hh. eexists. split; [apply (update_at_same i _ hs _ Hh)|].
      destruct h. cbn. repeat split.
    + intros j Hj. apply update_at_other. congruence.
Qed.

Section RoundTrip.

Variable terrain_height : Q -> Q.

(** Picking a colonist up and setting it down: the colonist stands on
    the ground in the ship's (wrapped) column, visible, free, at rest;
    the ship holds nothing; every other colonist is as before. *)
Theorem pickup_then_deliver (i : HumanRef) (g : t) (h : Human.t) :
  Player.held_human (player g) = None ->
  nth_error (humans g) i = Some h ->
  snd (deliver_human terrain_height (pickup_human i g)) = Some i /\
  Player.held_human
    (player (fst (deliver_human terrain_height (pickup_human i g)))) = None /\
  (exists h',
     nth_error
       (humans (fst (deliver_human terrain_height (pickup_human i g)))) i
     = Some h' /\
     Human.state h' = Human.ground /\
     Human.world_pos_x h' = wrap_position (Player.world_pos_x (player g)) /\
     Human.world_pos_y h'
       = terrain_height (wrap_position (Player.world_pos_x (player g)))
         - Human.rect_height / 2 /\
     Human.carrier h' = None /\ Human.visible h' = true /\
     Human.reserved_by h' = None /\
     Human.velocity_x h' = 0 /\ Human.velocity_y h' = 0 /\
     Human.drop_start_y h' = Human.drop_start_y h /\
     Human.safe_landing_rewarded h' = Human.safe_landing_rewarded h) /\
  (forall j, j <> i ->
     nth_error
       (humans (fst (deliver_human terrain_height (pickup_human i g)))) j
     = nth_error (humans g) j).
Proof.
  intros Hn Hh. unfold pickup_human, deliver_human. rewrite Hn.
  destruct g as [p hs ls oe mi nd rt hc rb rw sh ev]. destruct p.
  cbn in Hn, Hh. subst. rsimpl.
  split; [reflexivity|]. split; [reflexivity|]. split.
  - eexists. split.
    + apply update_at_same. apply (update_at_same i _ hs _ Hh).
    + destruct h. cbn. repeat split.
  - intros j Hj. rewrite !update_at_other by congruence. reflexivity.
Qed.

(** Delivery: with the ship low enough, the branch sets the colonist
    down, adds 250 to the score and reports one popup and the drop
    sound; the ship then holds nothing, so the branch is not entered
    again.  With the ship too high nothing happens. *)
Theorem delivery_sets_down_and_pays (g : t) (i : HumanRef) (h : Human.t) :
  Player.held_human (player g) = Some i ->
  nth_error (humans g) i = Some h ->
  (terrain_height (Human.world_pos_x h) - Human.rect_height / 2 - 12
     <= Player.world_pos_y (player g) ->
   exists g', deliver_carried terrain_height g = Some g' /\
     Player.score (player g') = (Player.score (player g) + 250)%Z /\
     Player.held_human (player g') = None /\
     (exists h', nth_error (humans g') i = Some h' /\
                 Human.state h' = Human.ground /\
                 Human.carrier h' = None) /\
     (exists x y, events g'
                  = events g ++ [EvScorePopup x y 250;
                                 EvPlay snd_human_drop]) /\
     deliver_carried terrain_height g' = None) /\
  (Player.world_pos_y (player g)
     < terrain_height (Human.world_pos_x h) - Human.rect_height / 2 - 12 ->
   deliver_carried terrain_height g = Some g).
Proof.
  intros Hc Hh. split.
  - intro Hlow. unfold deliver_carried at 1. rewrite Hc, Hh. cbv zeta.
    apply Qle_bool_iff in Hlow. rewrite Hlow.
    unfold deliver_human. rewrite Hc.
    destruct g as [p hs ls oe mi nd rt hc rb rw sh ev]. destruct p.
    cbn in Hc, Hh. subst. rsimpl.
    rewrite (update_at_same i _ hs _ Hh).
    unfold spawn_score_popup, emit. rsimpl.
    eexists. split; [reflexivity|]. rsimpl.
    split; [reflexivity|]. split; [reflexivity|]. split; [|split].
    + eexists. split; [apply (update_at_same i _ hs _ Hh)|].
      destruct h. cbn. split; reflexivity.
    + do 2 eexists. rewrite <- app_assoc. reflexivity.
    + reflexivity.
  - intro Hhigh. apply Qle_bool_false_iff in Hhigh.
    unfold deliver_carried. rewrite Hc, Hh. cbv zeta. rewrite Hhigh.
    reflexivity.
Qed.

End RoundTrip.

(** [drop_carried_human]: the colonist is let go in the ship's
    (wrapped) column and starts to fall with the landing reward armed
    again; forced, it starts one ship height below the ship's centre,
    otherwise from its own height.  With nothing held, nothing
    happens. *)
Theorem dropped_colonist_falls (force_fall : bool) (g : t) :
  (Player.held_human (player g) = None ->
   Teleport.drop_carried_human force_fall g = g) /\
  (forall i h, Player.held_human (player g) = Some i ->
     nth_error (humans g) i = Some h ->
     Player.held_human
       (player (Teleport.drop_carried_human force_fall g)) = None /\
     exists h',
       nth_error (humans (Teleport.drop_carried_human force_fall g)) i
       = Some h' /\
       Human.state h' = Human.falling /\
       Human.world_pos_x h' = wrap_position (Player.world_pos_x (player g)) /\
       Human.world_pos_y h'
         = (if force_fall
            then Player.world_pos_y (player g) + Player.rect_height
            else Human.world_pos_y h) /\
       Human.drop_start_y h' = Human.world_pos_y h' /\
       Human.safe_landing_rewarded h' = false /\
       Human.carrier h' = None /\ Human.reserved_by h' = None /\
       Human.velocity_x h' = 0 /\ Human.velocity_y h' = 0 /\
       Human.visible h' = true).
Proof.
  unfold Teleport.drop_carried_human.
  destruct g as [p hs ls oe mi nd rt hc rb rw sh ev]. destruct p. cbn.
  split.
  - intros ->. reflexivity.
  - intros i h -> Hh. rsimpl. split; [reflexivity|].
    eexists. split; [apply (update_at_same i _ hs _ Hh)|].
    destruct h, force_fall; cbn; repeat split.
Qed.

(** What a hit does.  In no-death mode it only tops the invulnerability
    up to half a second.  An invulnerable ship is not touched at all.
    Otherwise the ship loses one life, lets its passenger fall, hides,
    becomes invulnerable for at least the respawn delay plus the death
    invulnerability, and the respawn timer is armed; one player
    explosion is reported. *)
Theorem hit_outcomes (g : t) :
  (no_death g = true ->
   Player.lives (player (Teleport.hit g)) = Player.lives (player g) /\
   0.5 <= Player.invulnerable (player (Teleport.hit g)) /\
   humans (Teleport.hit g) = humans g /\
   respawn_timer (Teleport.hit g) = respawn_timer g /\
   events (Teleport.hit g) = events g) /\
  (no_death g = false -> 0 < Player.invulnerable (player g) ->
   Teleport.hit g = g) /\
  (no_death g = false -> Player.invulnerable (player g) <= 0 ->
   Player.lives (player (Teleport.hit g))
     = (Player.lives (player g) - 1)%Z /\
   Player.held_human (player (Teleport.hit g)) = None /\
   Player.render_visible (player (Teleport.hit g)) = false /\
   Player.invulnerable (player (Teleport.hit g))
     == PLAYER_DEATH_RESPAWN_DELAY + PLAYER_DEATH_INVULN /\
   respawn_timer (Teleport.hit g) = Some PLAYER_DEATH_RESPAWN_DELAY /\
   events (Teleport.hit g)
     = events g ++ [EvPlayerExplosion (Player.world_pos_x (player g))
                      (Player.world_pos_y (player g))] /\
   humans (Teleport.hit g) = humans (Teleport.drop_carried_human true g)).
Proof.
  unfold Teleport.hit.
  destruct g as [p hs ls oe mi nd rt hc rb rw sh ev]. destruct p. cbn.
  split; [|split].
  - intros ->. rsimpl. repeat split. unfold Qmax.
    destruct (Qlt_bool invulnerable 0.5) eqn:E.
    + apply Qle_refl.
    + apply Qlt_bool_false_iff in E. exact E.
  - intros -> Hi. apply Qlt_bool_iff in Hi. rewrite Hi. reflexivity.
  - intros -> Hi. apply Qlt_bool_false_iff in Hi. rewrite Hi.
    unfold Teleport.drop_carried_human, Teleport.spawn_player_explosion,
      Teleport.begin_player_respawn_delay, emit.
    destruct held_human; rsimpl; repeat split.
    all: unfold Qmax;
      destruct (Qlt_bool invulnerable
                  (PLAYER_DEATH_RESPAWN_DELAY + PLAYER_DEATH_INVULN)) eqn:E;
      [reflexivity|];
      apply Qlt_bool_false_iff in E; apply Qlt_bool_false_iff in Hi;
      unfold PLAYER_DEATH_RESPAWN_DELAY, PLAYER_DEATH_INVULN in *; lra.
Qed.

(** ** A rescue on level ground *)

(** The ship catches the falling colonist of [ColonistFall.drop_scene],
    then flies low. *)
Definition caught : t := pickup_human 0%nat (ColonistFall.drop_scene 100).

Definition flying_low : t :=
  caught <| player := (player caught) <| Player.world_pos_y := 640 |> |>.

Lemma pickup_holds_one_witness :
  pickup_human 0%nat caught = caught /\
  Player.held_human (player caught) = Some 0%nat.
Proof.
  destruct (pickup_holds_one 0%nat caught) as (A & _).
  destruct (pickup_holds_one 0%nat (ColonistFall.drop_scene 100))
    as (_ & B).
  split; [apply A; discriminate | apply B; reflexivity].
Defined.

Lemma pickup_then_deliver_witness :
  snd (deliver_human ColonistFall.level_ground caught) = Some 0%nat /\
  exists h',
    nth_error (humans (fst (deliver_human ColonistFall.level_ground caught)))
              0%nat = Some h' /\
    Human.state h' = Human.ground /\
    Human.world_pos_y h' = 650 - Human.rect_height / 2.
Proof.
  destruct (pickup_then_deliver ColonistFall.level_ground 0%nat
              (ColonistFall.drop_scene 100) (ColonistFall.released 100)
              eq_refl eq_refl) as (A & _ & (h' & E & St & _ & Y & _) & _).
  split; [exact A|]. exists h'. split; [exact E|]. split; [exact St|].
  exact Y.
Defined.

Lemma delivery_sets_down_and_pays_witness :
  (exists g', deliver_carried ColonistFall.level_ground flying_low = Some g'
              /\ Player.score (player g') = 250%Z) /\
  deliver_carried ColonistFall.level_ground caught = Some caught.
Proof.
  destruct (delivery_sets_down_and_pays ColonistFall.level_ground flying_low
              0%nat (Human.attach_to_player (ColonistFall.released 100))
              eq_refl eq_refl) as (A & _).
  destruct (delivery_sets_down_and_pays ColonistFall.level_ground caught
              0%nat (Human.attach_to_player (ColonistFall.released 100))
              eq_refl eq_refl) as (_ & B).
  split.
  - destruct A as (g' & E & Sc & _); [vm_compute; discriminate|].
    exists g'. split; [exact E | exact Sc].
  - apply B. reflexivity.
Defined.

Lemma dropped_colonist_falls_witness :
  exists h',
    nth_error (humans (Teleport.drop_carried_human true caught)) 0%nat
    = Some h' /\
    Human.state h' = Human.falling /\
    Human.safe_landing_rewarded h' = false.
Proof.
  destruct (dropped_colonist_falls true caught) as (_ & H).
  destruct (H 0%nat (Human.attach_to_player (ColonistFall.released 100))
              eq_refl eq_refl) as (_ & h' & E & St & _ & _ & _ & R & _).
  exists h'. split; [exact E|]. split; [exact St | exact R].
Defined.

Lemma hit_outcomes_witness :
  Player.lives (player (Teleport.hit Teleport.at_rest)) = 1%Z /\
  respawn_timer (Teleport.hit Teleport.at_rest)
    = Some PLAYER_DEATH_RESPAWN_DELAY.
Proof.
  destruct (hit_outcomes Teleport.at_rest) as (_ & _ & H).
  destruct H as (L & _ & _ & _ & T & _);
    [reflexivity | vm_compute; discriminate |].
  split; [exact L | exact T].
Defined.

End Rescue.

(** * Choosing a colonist to abduct ([Lander.find_target]) *)

Module Targeting.

(** The filter of the list comprehension: on the ground, carried by
    nobody, and reserved by nobody or by this lander. *)
Definition eligible (l : LanderRef) (h : Human.t) : bool :=
  Human.State_eqb (Human.state h) Human.ground
  && match Human.carrier h with None => true | Some _ => false end
  && (Human.same_ref (Human.reserved_by h) None
      || Human.same_ref (Human.reserved_by h) (Some l)).

(** The key of the [min]: distance round the ring from the lander's
    column [x]. *)
Definition distance (x : Q) (h : Human.t) : Q :=
  Qabs (shortest_offset (Human.world_pos_x h) x).

(** Python's [min(iterable, key=...)] on a non-empty iterable: the
    running best is replaced only by a strictly smaller key. *)
Fixpoint min_by {A : Type} (key : A -> Q) (best : A) (rest : list A) : A :=
  match rest with
  | [] => best
  | c :: r => min_by key (if Qlt_bool (key c) (key best) then c else best) r
  end.

(** The colonists with their references (positions in [game.humans]). *)
Fixpoint indexed {A : Type} (k : nat) (l : list A) : list (nat * A) :=
  match l with
  | [] => []
  | a :: r => (k, a) :: indexed (S k) r
  end.

(** [find_target] for the lander [l] standing in column [x]. *)
Definition find_target (l : LanderRef) (x : Q) (humans : list Human.t)
  : option HumanRef :=
  let candidates := filter (fun c => eligible l (snd c)) (indexed 0 humans) in
  match candidates with
  | [] => None
  | c :: r => Some (fst (min_by (fun c => distance x (snd c)) c r))
  end.

Lemma min_by_split {A : Type} (key : A -> Q) (rest : list A) :
  forall best, exists pre post,
    best :: rest = pre ++ min_by key best rest :: post /\
    (forall c, In c pre -> key (min_by key best rest) < key c) /\
    (forall c, In c post -> key (min_by key best rest) <= key c).
Proof.
  induction rest as [|c r IH]; intro best.
  - exists [], []. cbn. repeat split; intros x [].
  - cbn [min_by].
    destruct (Qlt_bool (key c) (key best)) eqn:E.
    + apply Qlt_bool_iff in E.
      destruct (IH c) as (pre & post & Hs & Hpre & Hpost).
      exists (best :: pre), post. split; [cbn; rewrite <- Hs; reflexivity|].
      split; [|exact Hpost].
      intros x [<- | Hx]; [|apply Hpre; exact Hx].
      destruct pre as [|p pre].
      * cbn in Hs. injection Hs as Hc _. rewrite <- Hc. exact E.
      * cbn in Hs. injection Hs as Hc _.
        assert (H := Hpre p (or_introl eq_refl)). rewrite <- Hc in H.
        apply (Qlt_trans _ _ _ H E).
    + apply Qlt_bool_false_iff in E.
      destruct (IH best) as (pre & post & Hs & Hpre & Hpost).
      destruct pre as [|p pre].
      * cbn in Hs. injection Hs as Hb Hr.
        exists [], (c :: post). split; [cbn; rewrite <- Hb, Hr; reflexivity|].
        split; [intros x []|].
        intros x [<- | Hx]; [rewrite <- Hb; exact E | apply Hpost; exact Hx].
      * cbn in Hs. injection Hs as Hb Hr.
        exists (p :: c :: pre), post.
        split; [cbn; rewrite <- Hb; do 2 f_equal; exact Hr|].
        split; [|exact Hpost].
        intros x [<- | [<- | Hx]].
        -- apply Hpre. left. reflexivity.
        -- assert (H := Hpre p (or_introl eq_refl)). rewrite <- Hb in H.
           apply (Qlt_le_trans _ _ _ H E).
        -- apply Hpre. right. exact Hx.
Qed.

Lemma indexed_In {A : Type} (l : list A) :
  forall k i a, In (i, a) (indexed k l) <->
                (k <= i)%nat /\ nth_error l (i - k) = Some a.
Proof.
  induction l as [|x r IH]; intros k i a; cbn.
  - split; [intros [] | intros [_ H]; destruct (i - k)%nat; discriminate].
  - rewrite IH. split.
    + intros [H | [Hk Hn]].
      * injection H as <- <-. split; [lia|]. rewrite Nat.sub_diag.
        reflexivity.
      * split; [lia|]. replace (i - k)%nat with (S (i - S k)) by lia.
        exact Hn.
    + intros [Hk Hn]. destruct (Nat.eq_dec i k) as [->|Hne].
      * left. rewrite Nat.sub_diag in Hn. cbn in Hn. injection Hn as <-.
        reflexivity.
      * right. split; [lia|].
        replace (i - k)%nat with (S (i - S k)) in Hn by lia. exact Hn.
Qed.

(** References along the candidates grow strictly. *)
Definition rising {A : Type} (l : list (nat * A)) : Prop :=
  StronglySorted (fun a b => (fst a < fst b)%nat) l.

Lemma indexed_rising {A : Type} (l : list A) : forall k, rising (indexed k l).
Proof.
  induction l as [|x r IH]; intro k; cbn; constructor.
  - apply IH.
  - apply Forall_forall. intros [i a] H. apply indexed_In in H. cbn. lia.
Qed.

Lemma filter_rising {A : Type} (f : nat * A -> bool) (l : list (nat * A)) :
  rising l -> rising (filter f l).
Proof.
  induction 1 as [|a l Hs IH Ha]; cbn; [constructor|].
  destruct (f a); [|exact IH].
  constructor; [exact IH|].
  apply Forall_forall. intros b Hb. apply filter_In in Hb.
  rewrite Forall_forall in Ha. apply Ha. apply Hb.
Qed.

Lemma rising_split {A : Type} (pre post : list (nat * A)) (m : nat * A) :
  rising (pre ++ m :: post) ->
  (forall c, In c pre -> (fst c < fst m)%nat) /\
  (forall c, In c post -> (fst m < fst c)%nat).
Proof.
  induction pre as [|p pre IH]; cbn; intro H.
  - inversion H as [|? ? _ Hall]. subst. split; [intros c []|].
    rewrite Forall_forall in Hall. exact Hall.
  - inversion H as [|? ? Hs Hall]. subst. destruct (IH Hs) as [H1 H2].
    split; [|exact H2].
    intros c [<- | Hc]; [|apply H1; exact Hc].
    rewrite Forall_forall in Hall. apply Hall.
    apply in_or_app. right. left. reflexivity.
Qed.

Lemma eligible_reserves (l : LanderRef) (h : Human.t) :
  eligible l h = true -> snd (Human.reserve_for_lander l h) = true.
Proof.
  unfold eligible, Human.reserve_for_lander. intro H.
  apply andb_true_iff in H. destruct H as [H Hr].
  apply andb_true_iff in H. destruct H as [Hs _].
  rewrite Hs, Hr. reflexivity.
Qed.

(** [find_target] returns nothing exactly when no colonist is eligible.
    Otherwise it returns an eligible colonist, one that
    [reserve_for_lander] will accept, that is no farther from the
    lander than any other eligible colonist, and strictly nearer than
    every eligible colonist that comes before it in [game.humans]. *)
Theorem find_target_nearest (l : LanderRef) (x : Q) (humans : list Human.t) :
  (find_target l x humans = None <->
   forall i h, nth_error humans i = Some h -> eligible l h = false) /\
  (forall i, find_target l x humans = Some i ->
   exists h, nth_error humans i = Some h /\
     eligible l h = true /\
     snd (Human.reserve_for_lander l h) = true /\
     (forall j h', nth_error humans j = Some h' -> eligible l h' = true ->
        distance x h <= distance x h') /\
     (forall j h', (j < i)%nat -> nth_error humans j = Some h' ->
        eligible l h' = true -> distance x h < distance x h')).
Proof.
  unfold find_target. cbv zeta.
  set (keep := fun c : nat * Human.t => eligible l (snd c)).
  set (key := fun c : nat * Human.t => distance x (snd c)).
  assert (Hin : forall i h, In (i, h) (filter keep (indexed 0 humans)) <->
                            nth_error humans i = Some h /\ eligible l h = true).
  { intros i h. rewrite filter_In, indexed_In, Nat.sub_0_r. unfold keep. cbn.
    split; [intros [[_ H1] H2] | intros [H1 H2]]; repeat split;
      try assumption; lia. }
  assert (Hr : rising (filter keep (indexed 0 humans)))
    by (apply filter_rising, indexed_rising).
  destruct (filter keep (indexed 0 humans)) as [|c r] eqn:Ec.
  - split.
    + split; [|reflexivity]. intros _ i h Hn.
      destruct (eligible l h) eqn:E; [|reflexivity].
      destruct (proj2 (Hin i h) (conj Hn E)).
    + intros i H. discriminate.
  - split.
    + split; [discriminate|]. intro H. exfalso.
      destruct c as [i h]. destruct (proj1 (Hin i h) (or_introl eq_refl))
        as [Hn He].
      rewrite (H i h Hn) in He. discriminate.
    + intros i H. injection H as <-.
      destruct (min_by_split key r c) as (pre & post & Hs & Hpre & Hpost).
      rewrite Hs in Hin, Hr. destruct (rising_split pre post _ Hr) as [R1 R2].
      set (m := min_by key c r) in *. destruct m as [i h] eqn:Em. cbn [fst].
      assert (Hm : In (i, h) (pre ++ (i, h) :: post))
        by (apply in_or_app; right; left; reflexivity).
      destruct (proj1 (Hin i h) Hm) as [Hn He].
      exists h. split; [exact Hn|]. split; [exact He|].
      split; [apply eligible_reserves; exact He|]. split.
      * intros j h' Hj Hj'.
        assert (H := proj2 (Hin j h') (conj Hj Hj')).
        apply in_app_or in H. destruct H as [H | [H | H]].
        -- apply Qlt_le_weak. apply (Hpre _ H).
        -- injection H as _ <-. apply Qle_refl.
        -- apply (Hpost _ H).
      * intros j h' Hlt Hj Hj'.
        assert (H := proj2 (Hin j h') (conj Hj Hj')).
        apply in_app_or in H. destruct H as [H | [H | H]].
        -- apply (Hpre _ H).
        -- injection H as -> _. lia.
        -- assert (H2 := R2 _ H). cbn in H2. lia.
Qed.

(** Three colonists on the ground at 300, 900 and 5900; the third is
    reserved by lander 7.  A lander in column 100 is 200 from the
    first and from the third (round the ring), 800 from the second. *)
Definition settlers : list Human.t :=
  [Human.mk 300 638 Human.ground None 0 0 true 638 true None;
   Human.mk 900 638 Human.ground None 0 0 true 638 true None;
   Human.mk 5900 638 Human.ground None 0 0 true 638 true (Some 7%nat)].

Lemma find_target_nearest_witness :
  find_target 7%nat 100 settlers = Some 0%nat /\
  find_target 3%nat 800 settlers = Some 1%nat /\
  find_target 3%nat 100 [] = None.
Proof.
  destruct (find_target_nearest 3%nat 100 []) as (N & _).
  split; [reflexivity|]. split; [reflexivity|].
  apply N. intros i h H. destruct i; discriminate.
Defined.

End Targeting.

(** * The pending-spawn heap ([queue_spawn], the drain loop of
      [DefenderGame.update], [spawn_wave_enemies]) *)

Module Scheduler.

(** The bound methods handed to [queue_spawn]. *)
Inductive SpawnFunc : Type := spawn_lander | spawn_bomber | spawn_pod.

Definition SpawnFunc_eqb (f g : SpawnFunc) : bool :=
  match f, g with
  | spawn_lander, spawn_lander | spawn_bomber, spawn_bomber
  | spawn_pod, spawn_pod => true
  | _, _ => false
  end.

(** A heap entry, the tuple [(spawn_time, spawn_sequence, func, args)]. *)
Record Entry : Type := mkEntry {
  spawn_time : Q;
  sequence : Z;
  func : SpawnFunc;
  args : list Q
}.

(** The attributes of the controller that the scheduler touches;
    [calls] records the calls [func( *args)] made by the drain loop, in
    order.  Each of the three spawn methods creates its enemy and
    calls [register_enemy_spawn]. *)
Record t : Type := mk {
  wave : Z;
  wave_timer : Q;
  spawn_sequence : Z;
  pending_spawns : list Entry;
  remaining_aliens : Z;
  total_wave_aliens : Z;
  calls : list (SpawnFunc * list Q)
}.

(** ** Comparing heap entries *)

(** Python's [<] on two tuples of floats. *)
Fixpoint args_lt (a b : list Q) : bool :=
  match a, b with
  | [], [] => false
  | [], _ :: _ => true
  | _ :: _, [] => false
  | x :: a', y :: b' =>
      if Qeq_bool x y then args_lt a' b' else Qlt_bool x y
  end.

(** What [a < b] does on two heap entries: the tuples are compared
    element by element; bound methods of different functions have no
    order, and comparing them raises [TypeError]. *)
Inductive Outcome : Type := Less | NotLess | Raises.

Definition tuple_lt (a b : Entry) : Outcome :=
  if negb (Qeq_bool (spawn_time a) (spawn_time b)) then
    if Qlt_bool (spawn_time a) (spawn_time b) then Less else NotLess
  else if negb (sequence a =? sequence b)%Z then
    if (sequence a <? sequence b)%Z then Less else NotLess
  else if negb (SpawnFunc_eqb (func a) (func b)) then Raises
  else if args_lt (args a) (args b) then Less else NotLess.

(** The order the heap key [(spawn_time, spawn_sequence)] gives. *)
Definition earlier (a b : Entry) : bool :=
  Qlt_bool (spawn_time a) (spawn_time b)
  || (Qeq_bool (spawn_time a) (spawn_time b)
      && (sequence a <? sequence b)%Z).

(** ** The heap, by its contract

    [heapq] is the standard library's.  It keeps the list arranged so
    that [heap[0]] is a least entry and [heappop] removes and returns
    it; how the other entries are arranged is its own business.  The
    model keeps the entries in the order they were pushed and takes a
    least one out. *)

Definition heappush (heap : list Entry) (item : Entry) : list Entry :=
  heap ++ [item].

Fixpoint take_least (best : Entry) (rest : list Entry)
  : Entry * list Entry :=
  match rest with
  | [] => (best, [])
  | c :: r =>
      if earlier c best then
        let '(m, others) := take_least c r in (m, best :: others)
      else
        let '(m, others) := take_least best r in (m, c :: others)
  end.

Definition heappop (heap : list Entry) : option (Entry * list Entry) :=
  match heap with
  | [] => None
  | c :: r => Some (take_least c r)
  end.

(** ** The scheduler *)

(** [queue_spawn(delay, func, *args)] *)
Definition queue_spawn (delay : Q) (f : SpawnFunc) (a : list Q) (s : t) : t :=
  let s := s <| spawn_sequence := (spawn_sequence s + 1)%Z |> in
  let spawn_time := wave_timer s + delay in
  s <| pending_spawns :=
         heappush (pending_spawns s)
                  (mkEntry spawn_time (spawn_sequence s) f a) |>.

(** [register_enemy_spawn] *)
Definition register_enemy_spawn (s : t) : t :=
  s <| remaining_aliens := (remaining_aliens s + 1)%Z |>
    <| total_wave_aliens := (total_wave_aliens s + 1)%Z |>.

(** The call [func( *args)] of the drain loop. *)
Definition materialize (e : Entry) (s : t) : t :=
  register_enemy_spawn (s <| calls := calls s ++ [(func e, args e)] |>).

(** The [while] loop of [update]; each turn pops one entry, so the
    number of pending entries is fuel enough. *)
Fixpoint drain (fuel : nat) (s : t) : t :=
  match fuel with
  | O => s
  | S k =>
      match heappop (pending_spawns s) with
      | None => s
      | Some (e, rest) =>
          if Qle_bool (spawn_time e) (wave_timer s) then
            drain k (materialize e (s <| pending_spawns := rest |>))
          else s
      end
  end.

(** [self.wave_timer += dt] and the drain loop. *)
Definition update_spawns (dt : Q) (s : t) : t :=
  let s := s <| wave_timer := wave_timer s + dt |> in
  drain (length (pending_spawns s)) s.

(** The scheduler's part of [clear_wave_state]. *)
Definition clear_wave_state (s : t) : t :=
  s <| remaining_aliens := 0%Z |>
    <| pending_spawns := [] |>
    <| spawn_sequence := 0%Z |>.

(** [random_positions(count)], reading the draws from [first] on. *)
Definition random_positions (draws : Draws) (first : nat) (count : Z)
  : list Q :=
  if (count <=? 0)%Z then []
  else
    let spacing := WORLD_WIDTH / inject_Z count in
    map (fun i => py_mod ((inject_Z (Z.of_nat i) + draws (first + i)%nat)
                          * spacing) WORLD_WIDTH)
        (seq 0 (Z.to_nat count)).

(** The inner [for x in random_positions(count)] loop. *)
Fixpoint queue_each (start gap : Q) (f : SpawnFunc) (xs : list Q) (s : t)
  : t :=
  match xs with
  | [] => s
  | x :: r => queue_each (start + gap) gap f r (queue_spawn start f [x] s)
  end.

(** One row of [spawn_plan]. *)
Definition queue_category (draws : Draws) (first : nat) (count : Z)
    (f : SpawnFunc) (start gap : Q) (s : t) : t :=
  if (count <=? 0)%Z then s
  else queue_each start gap f (random_positions draws first count) s.

(** [spawn_wave_enemies] *)
Definition spawn_wave_enemies (draws : Draws) (s : t) : t :=
  let s := s <| remaining_aliens := 0%Z |>
             <| total_wave_aliens := 0%Z |> in
  let composition := wave_composition (wave s) in
  let s := s <| pending_spawns := [] |> in
  let n1 := Z.to_nat (landers composition) in
  let n2 := Z.to_nat (bombers composition) in
  let s := queue_category draws 0 (landers composition)
             spawn_lander 0.5 1 s in
  let s := queue_category draws n1 (bombers composition)
             spawn_bomber (if (wave s <? 6)%Z then 12 else 8) 3 s in
  queue_category draws (n1 + n2) (pods composition) spawn_pod 24 3.8 s.

(** ** The order of the heap key *)

(** [a] comes no later than [b]: by time, then by sequence number. *)
Definition before (a b : Entry) : Prop :=
  spawn_time a < spawn_time b \/
  (spawn_time a == spawn_time b /\ (sequence a <= sequence b)%Z).

Lemma earlier_iff (a b : Entry) :
  earlier a b = true <->
  spawn_time a < spawn_time b \/
  (spawn_time a == spawn_time b /\ (sequence a < sequence b)%Z).
Proof.
  unfold earlier. rewrite orb_true_iff, andb_true_iff, Qlt_bool_iff,
    Qeq_bool_iff, Z.ltb_lt. reflexivity.
Qed.

Lemma earlier_false (a b : Entry) : earlier a b = false <-> before b a.
Proof.
  unfold before. split.
  - intro H.
    destruct (Q_dec (spawn_time a) (spawn_time b)) as [[Hlt | Hgt] | Heq].
    + assert (E : earlier a b = true) by (apply earlier_iff; left; exact Hlt).
      congruence.
    + left. exact Hgt.
    + right. split; [symmetry; exact Heq|].
      destruct (Z_lt_le_dec (sequence a) (sequence b)) as [Hs | Hs];
        [|exact Hs].
      assert (E : earlier a b = true)
        by (apply earlier_iff; right; split; assumption).
      congruence.
  - intro H. destruct (earlier a b) eqn:E; [|reflexivity].
    apply earlier_iff in E. exfalso.
    destruct H as [H | [H1 H2]]; destruct E as [E | [E1 E2]].
    + apply (Qlt_irrefl (spawn_time a)). apply (Qlt_trans _ _ _ E H).
    + rewrite E1 in H. apply (Qlt_irrefl _ H).
    + rewrite H1 in E. apply (Qlt_irrefl _ E).
    + lia.
Qed.

Lemma earlier_before (a b : Entry) : earlier a b = true -> before a b.
Proof.
  intro H. apply earlier_iff in H. destruct H as [H | [H1 H2]].
  - left. exact H.
  - right. split; [exact H1 | lia].
Qed.

Lemma before_refl (a : Entry) : before a a.
Proof. right. split; [reflexivity | lia]. Qed.

Lemma before_trans (a b c : Entry) : before a b -> before b c -> before a c.
Proof.
  unfold before. intros [H1 | [H1 S1]] [H2 | [H2 S2]].
  - left. apply (Qlt_trans _ _ _ H1 H2).
  - left. rewrite <- H2. exact H1.
  - left. rewrite H1. exact H2.
  - right. split; [rewrite H1; exact H2 | lia].
Qed.

Lemma before_time (a b : Entry) : before a b -> spawn_time a <= spawn_time b.
Proof.
  intros [H | [H _]]; [apply Qlt_le_weak; exact H | rewrite H; apply Qle_refl].
Qed.

(** [take_least] splits the entries into a least one and the others. *)
Lemma take_least_spec (rest : list Entry) :
  forall best,
    Permutation (best :: rest)
                (fst (take_least best rest) :: snd (take_least best rest)) /\
    Forall (before (fst (take_least best rest))) (snd (take_least best rest)) /\
    length (snd (take_least best rest)) = length rest.
Proof.
  induction rest as [|c r IH]; intro best.
  - cbn. repeat split; auto.
  - cbn [take_least].
    destruct (earlier c best) eqn:E.
    + destruct (IH c) as (P & F & L).
      destruct (take_least c r) as [m others]. cbn [fst snd] in *.
      assert (Hc : before m c).
      { assert (Hin : In c (m :: others))
          by (apply (Permutation_in _ P); left; reflexivity).
        destruct Hin as [<- | Hin]; [apply before_refl|].
        rewrite Forall_forall in F. apply F. exact Hin. }
      split; [|split].
      * apply perm_trans with (best :: m :: others);
          [apply perm_skip; exact P | apply perm_swap].
      * constructor; [|exact F].
        apply (before_trans _ _ _ Hc). apply earlier_before. exact E.
      * cbn. rewrite L. reflexivity.
    + destruct (IH best) as (P & F & L).
      destruct (take_least best r) as [m others]. cbn [fst snd] in *.
      assert (Hb : before m best).
      { assert (Hin : In best (m :: others))
          by (apply (Permutation_in _ P); left; reflexivity).
        destruct Hin as [<- | Hin]; [apply before_refl|].
        rewrite Forall_forall in F. apply F. exact Hin. }
      split; [|split].
      * apply perm_trans with (c :: best :: r); [apply perm_swap|].
        apply perm_trans with (c :: m :: others);
          [apply perm_skip; exact P | apply perm_swap].
      * constructor; [|exact F].
        apply (before_trans _ _ _ Hb). apply earlier_false. exact E.
      * cbn. rewrite L. reflexivity.
Qed.

Definition call_of (e : Entry) : SpawnFunc * list Q := (func e, args e).

(** What the drain loop does, for any fuel that covers the pending
    entries. *)
Lemma drain_spec (fuel : nat) :
  forall s, (length (pending_spawns s) <= fuel)%nat ->
  exists popped,
    calls (drain fuel s) = calls s ++ map call_of popped /\
    Permutation (popped ++ pending_spawns (drain fuel s)) (pending_spawns s) /\
    StronglySorted before popped /\
    Forall (fun e => spawn_time e <= wave_timer s) popped /\
    Forall (fun e => wave_timer s < spawn_time e)
           (pending_spawns (drain fuel s)) /\
    wave_timer (drain fuel s) = wave_timer s /\
    spawn_sequence (drain fuel s) = spawn_sequence s /\
    wave (drain fuel s) = wave s /\
    remaining_aliens (drain fuel s)
      = (remaining_aliens s + Z.of_nat (length popped))%Z /\
    total_wave_aliens (drain fuel s)
      = (total_wave_aliens s + Z.of_nat (length popped))%Z.
Proof.
  induction fuel as [|k IH]; intros s Hlen.
  - exists []. destruct (pending_spawns s) eqn:Ep; [|cbn in Hlen; lia].
    cbn [drain]. rewrite Ep, app_nil_r. cbn.
    repeat split; auto; try constructor; lia.
  - cbn [drain]. unfold heappop.
    destruct (pending_spawns s) as [|c r] eqn:Ep.
    + exists []. rewrite Ep, app_nil_r. cbn.
      repeat split; auto; try constructor; lia.
    + destruct (take_least_spec r c) as (P & F & L).
      destruct (take_least c r) as [m others]. cbn [fst snd] in *.
      destruct (Qle_bool (spawn_time m) (wave_timer s)) eqn:E.
      * apply Qle_bool_iff in E.
        set (s1 := materialize m (s <| pending_spawns := others |>)).
        assert (Hs1 : pending_spawns s1 = others /\
                      wave_timer s1 = wave_timer s /\
                      spawn_sequence s1 = spawn_sequence s /\
                      wave s1 = wave s /\
                      calls s1 = calls s ++ [call_of m] /\
                      remaining_aliens s1 = (remaining_aliens s + 1)%Z /\
                      total_wave_aliens s1 = (total_wave_aliens s + 1)%Z)
          by (unfold s1; destruct s; repeat split).
        destruct Hs1 as (S1 & S2 & S3 & S4 & S5 & S6 & S7).
        destruct (IH s1) as (popped & C & Pm & Srt & Due & Late
                             & W & Sq & Wv & Ra & Ta).
        { rewrite S1, L. cbn in Hlen. lia. }
        exists (m :: popped).
        rewrite C, W, Sq, Wv, Ra, Ta, S2, S3, S4, S5, S6, S7.
        split; [cbn; rewrite <- app_assoc; reflexivity|].
        split;
          [cbn; apply perm_trans with (m :: others);
           [apply perm_skip; rewrite <- S1; exact Pm
           |rewrite ?Ep; symmetry; exact P]|].
        split.
        { constructor; [exact Srt|].
          rewrite Forall_forall in F |- *. intros x Hx. apply F.
          rewrite <- S1. apply (Permutation_in _ Pm).
          apply in_or_app. left. exact Hx. }
        split; [constructor; [exact E | rewrite <- S2; exact Due]|].
        split; [rewrite <- S2; exact Late|].
        repeat split; try reflexivity; cbn [length];
          rewrite Nat2Z.inj_succ; lia.
      * apply Qle_bool_false_iff in E.
        exists []. cbn [app map length]. rewrite app_nil_r.
        split; [reflexivity|].
        split; [rewrite ?Ep; apply Permutation_refl|].
        split; [constructor|]. split; [constructor|].
        split; [|repeat split; lia].
        rewrite ?Ep. apply (Permutation_Forall (Permutation_sym P)).
        constructor; [exact E|].
        rewrite Forall_forall in F |- *. intros x Hx.
        apply (Qlt_le_trans _ _ _ E). apply before_time. apply F. exact Hx.
Qed.

Lemma update_spawns_spec (dt : Q) (s : t) :
  exists popped,
    calls (update_spawns dt s) = calls s ++ map call_of popped /\
    Permutation (popped ++ pending_spawns (update_spawns dt s))
                (pending_spawns s) /\
    StronglySorted before popped /\
    Forall (fun e => spawn_time e <= wave_timer s + dt) popped /\
    Forall (fun e => wave_timer s + dt < spawn_time e)
           (pending_spawns (update_spawns dt s)) /\
    wave_timer (update_spawns dt s) = wave_timer s + dt /\
    spawn_sequence (update_spawns dt s) = spawn_sequence s /\
    total_wave_aliens (update_spawns dt s)
      = (total_wave_aliens s + Z.of_nat (length popped))%Z.
Proof.
  unfold update_spawns. cbv zeta.
  set (s0 := s <| wave_timer := wave_timer s + dt |>).
  assert (H0 : pending_spawns s0 = pending_spawns s /\
               wave_timer s0 = wave_timer s + dt /\
               spawn_sequence s0 = spawn_sequence s /\
               calls s0 = calls s /\
               total_wave_aliens s0 = total_wave_aliens s)
    by (unfold s0; destruct s; repeat split).
  destruct H0 as (E1 & E2 & E3 & E4 & E5).
  destruct (drain_spec (length (pending_spawns s0)) s0 (Nat.le_refl _))
    as (popped & C & P & Srt & Due & Late & W & Sq & _ & _ & Ta).
  exists popped. rewrite C, W, Sq, Ta, E2, E3, E4, E5.
  rewrite E1, E2 in *. repeat split; assumption.
Qed.

(** ** Sequence numbers keep the entries apart *)

(** The pending entries carry pairwise different sequence numbers, all
    issued already. *)
Definition well_numbered (s : t) : Prop :=
  NoDup (map sequence (pending_spawns s)) /\
  Forall (fun e => (0 < sequence e <= spawn_sequence s)%Z)
         (pending_spawns s) /\
  (0 <= spawn_sequence s)%Z.

Lemma tuple_lt_decided (a b : Entry) :
  sequence a <> sequence b ->
  tuple_lt a b <> Raises /\
  (tuple_lt a b = Less <-> earlier a b = true).
Proof.
  intro Hne. unfold tuple_lt, earlier.
  apply Z.eqb_neq in Hne. rewrite Hne. cbn [negb].
  destruct (Qeq_bool (spawn_time a) (spawn_time b)) eqn:Eq; cbn [negb andb].
  - apply Qeq_bool_iff in Eq.
    assert (Hl : Qlt_bool (spawn_time a) (spawn_time b) = false).
    { apply Qlt_bool_false_iff. rewrite Eq. apply Qle_refl. }
    rewrite Hl. cbn [orb].
    destruct (sequence a <? sequence b)%Z; split; try discriminate;
      split; intro H; try reflexivity; discriminate.
  - rewrite orb_false_r.
    destruct (Qlt_bool (spawn_time a) (spawn_time b)); split;
      try discriminate; split; intro H; try reflexivity; discriminate.
Qed.

Lemma queue_spawn_fields (delay : Q) (f : SpawnFunc) (a : list Q) (s : t) :
  pending_spawns (queue_spawn delay f a s)
    = pending_spawns s
      ++ [mkEntry (wave_timer s + delay) (spawn_sequence s + 1) f a] /\
  spawn_sequence (queue_spawn delay f a s) = (spawn_sequence s + 1)%Z /\
  wave_timer (queue_spawn delay f a s) = wave_timer s /\
  calls (queue_spawn delay f a s) = calls s /\
  wave (queue_spawn delay f a s) = wave s /\
  total_wave_aliens (queue_spawn delay f a s) = total_wave_aliens s.
Proof. destruct s. repeat split. Qed.

Lemma queue_spawn_well_numbered
    (delay : Q) (f : SpawnFunc) (a : list Q) (s : t) :
  well_numbered s -> well_numbered (queue_spawn delay f a s).
Proof.
  intros (Hn & Hr & H0).
  destruct (queue_spawn_fields delay f a s) as (E1 & E2 & _).
  unfold well_numbered. rewrite E1, E2. split; [|split; [|lia]].
  - rewrite map_app. cbn.
    apply (Permutation_NoDup (Permutation_cons_append _ _)).
    constructor; [|exact Hn].
    intro Hin. apply in_map_iff in Hin. destruct Hin as (e & He & Hin).
    rewrite Forall_forall in Hr. specialize (Hr e Hin). lia.
  - apply Forall_app. split.
    + eapply Forall_impl; [|exact Hr]. cbn. intros e He. lia.
    + constructor; [cbn; lia | constructor].
Qed.

Lemma update_spawns_well_numbered (dt : Q) (s : t) :
  well_numbered s -> well_numbered (update_spawns dt s).
Proof.
  intros (Hn & Hr & H0).
  destruct (update_spawns_spec dt s)
    as (popped & _ & P & _ & _ & _ & _ & Sq & _).
  unfold well_numbered. rewrite Sq. split; [|split; [|exact H0]].
  - assert (Pm := Permutation_map sequence P). rewrite map_app in Pm.
    apply (NoDup_app_remove_l (map sequence popped)).
    apply (Permutation_NoDup (Permutation_sym Pm)). exact Hn.
  - rewrite Forall_forall in Hr |- *. intros e He. apply Hr.
    apply (Permutation_in _ P). apply in_or_app. right. exact He.
Qed.

Lemma queue_each_well_numbered (xs : list Q) :
  forall start gap f s,
    well_numbered s -> well_numbered (queue_each start gap f xs s).
Proof.
  induction xs as [|x r IH]; intros start gap f s H; [exact H|].
  cbn [queue_each]. apply IH. apply queue_spawn_well_numbered. exact H.
Qed.

Lemma queue_category_well_numbered
    (draws : Draws) (first : nat) (count : Z) (f : SpawnFunc)
    (start gap : Q) (s : t) :
  well_numbered s ->
  well_numbered (queue_category draws first count f start gap s).
Proof.
  intro H. unfold queue_category. destruct (count <=? 0)%Z; [exact H|].
  apply queue_each_well_numbered. exact H.
Qed.

Lemma spawn_wave_enemies_well_numbered (draws : Draws) (s : t) :
  well_numbered s -> well_numbered (spawn_wave_enemies draws s).
Proof.
  intros (_ & _ & H0). unfold spawn_wave_enemies. cbv zeta.
  do 3 apply queue_category_well_numbered.
  destruct s. unfold well_numbered. cbn in *.
  split; [constructor | split; [constructor | exact H0]].
Qed.

Lemma distinct_positions_distinct_numbers (l : list Entry) (i j : nat)
    (a b : Entry) :
  NoDup (map sequence l) -> i <> j ->
  nth_error l i = Some a -> nth_error l j = Some b ->
  sequence a <> sequence b.
Proof.
  intros Hn Hij Ha Hb Heq. apply Hij.
  apply (proj1 (NoDup_nth_error (map sequence l)) Hn).
  - rewrite length_map. apply nth_error_Some. congruence.
  - rewrite !nth_error_map, Ha, Hb. cbn. congruence.
Qed.

(** The tuple comparison never gets as far as the bound methods.
    [clear_wave_state] leaves the scheduler well numbered;
    [queue_spawn], the drain loop and [spawn_wave_enemies] keep it so;
    and in a well-numbered scheduler the comparison of any two
    different pending entries is settled by time and sequence number:
    it never raises, and it says [a < b] exactly when the key of [a]
    is the earlier one. *)
Theorem sequence_numbers_keep_entries_apart (s : t) :
  well_numbered (clear_wave_state s) /\
  (well_numbered s ->
   (forall delay f a, well_numbered (queue_spawn delay f a s)) /\
   (forall dt, well_numbered (update_spawns dt s)) /\
   (forall draws, well_numbered (spawn_wave_enemies draws s)) /\
   (forall i j a b, i <> j ->
      nth_error (pending_spawns s) i = Some a ->
      nth_error (pending_spawns s) j = Some b ->
      tuple_lt a b <> Raises /\
      (tuple_lt a b = Less <-> earlier a b = true))).
Proof.
  split.
  - destruct s. unfold well_numbered, clear_wave_state. rsimpl.
    split; [constructor | split; [constructor | lia]].
  - intro H. split; [|split; [|split]].
    + intros. apply queue_spawn_well_numbered. exact H.
    + intros. apply update_spawns_well_numbered. exact H.
    + intros. apply spawn_wave_enemies_well_numbered. exact H.
    + intros i j a b Hij Ha Hb. apply tuple_lt_decided.
      apply (distinct_positions_distinct_numbers _ i j a b
               (proj1 H) Hij Ha Hb).
Qed.

(** One pass of the drain loop after the clock has advanced by [dt]:
    the entries that are due are materialised, each exactly once, in
    the order of the heap key (earlier time first, and among equal
    times the lower sequence number, that is the earlier submission,
    first); the entries that are not yet due all stay pending, and the
    loop does stop. *)
Theorem update_spawns_in_order (dt : Q) (s : t) :
  exists popped,
    calls (update_spawns dt s) = calls s ++ map call_of popped /\
    Permutation (popped ++ pending_spawns (update_spawns dt s))
                (pending_spawns s) /\
    StronglySorted before popped /\
    Forall (fun e => spawn_time e <= wave_timer s + dt) popped /\
    Forall (fun e => wave_timer s + dt < spawn_time e)
           (pending_spawns (update_spawns dt s)) /\
    wave_timer (update_spawns dt s) = wave_timer s + dt /\
    spawn_sequence (update_spawns dt s) = spawn_sequence s /\
    total_wave_aliens (update_spawns dt s)
      = (total_wave_aliens s + Z.of_nat (length popped))%Z.
Proof. exact (update_spawns_spec dt s). Qed.

(** ** Submission order *)

(** The arguments of successive [queue_spawn] calls. *)
Definition Request : Type := Q * SpawnFunc * list Q.

Definition delay_of (r : Request) : Q := fst (fst r).
Definition call_asked (r : Request) : SpawnFunc * list Q := (snd (fst r), snd r).

Fixpoint queue_all (reqs : list Request) (s : t) : t :=
  match reqs with
  | [] => s
  | r :: rest =>
      queue_all rest (queue_spawn (delay_of r) (snd (fst r)) (snd r) s)
  end.

(** The entries those calls push, on a clock standing at [t0] and a
    counter standing at [n]. *)
Fixpoint entries_of (t0 : Q) (n : Z) (reqs : list Request) : list Entry :=
  match reqs with
  | [] => []
  | r :: rest =>
      mkEntry (t0 + delay_of r) (n + 1) (snd (fst r)) (snd r)
      :: entries_of t0 (n + 1) rest
  end.

Lemma queue_all_fields (reqs : list Request) :
  forall s,
    pending_spawns (queue_all reqs s)
      = pending_spawns s
        ++ entries_of (wave_timer s) (spawn_sequence s) reqs /\
    wave_timer (queue_all reqs s) = wave_timer s /\
    calls (queue_all reqs s) = calls s.
Proof.
  induction reqs as [|r rest IH]; intro s; cbn [queue_all entries_of].
  - rewrite app_nil_r. repeat split.
  - destruct (IH (queue_spawn (delay_of r) (snd (fst r)) (snd r) s))
      as (I1 & I2 & I3).
    destruct (queue_spawn_fields (delay_of r) (snd (fst r)) (snd r) s)
      as (E1 & E2 & E3 & E4 & _).
    rewrite I1, I2, I3, E1, E2, E3, E4, <- app_assoc. repeat split.
Qed.

Lemma entries_of_In (t0 : Q) (reqs : list Request) :
  forall n e, In e (entries_of t0 n reqs) ->
    (n < sequence e)%Z /\
    exists r, In r reqs /\ spawn_time e = t0 + delay_of r.
Proof.
  induction reqs as [|r rest IH]; intros n e H; [destruct H|].
  destruct H as [<- | H].
  - cbn. split; [lia|]. exists r. split; [left|]; reflexivity.
  - destruct (IH _ _ H) as (Hs & r' & Hr & Ht).
    split; [lia|]. exists r'. split; [right; exact Hr | exact Ht].
Qed.

Lemma entries_of_calls (t0 : Q) (reqs : list Request) :
  forall n, map call_of (entries_of t0 n reqs) = map call_asked reqs.
Proof.
  induction reqs as [|r rest IH]; intro n; [reflexivity|].
  cbn [entries_of map]. rewrite IH. reflexivity.
Qed.

Lemma entries_of_NoDup (t0 : Q) (reqs : list Request) :
  forall n, NoDup (map sequence (entries_of t0 n reqs)).
Proof.
  induction reqs as [|r rest IH]; intro n; cbn; constructor; [|apply IH].
  intro H. apply in_map_iff in H. destruct H as (e & He & Hin).
  destruct (entries_of_In _ _ _ _ Hin) as (Hs & _). lia.
Qed.

Lemma entries_of_sorted (t0 : Q) (reqs : list Request) :
  StronglySorted (fun r1 r2 => delay_of r1 <= delay_of r2) reqs ->
  forall n, StronglySorted before (entries_of t0 n reqs).
Proof.
  induction 1 as [|r rest Hs IH Hall]; intro n; cbn; constructor;
    [apply IH|].
  apply Forall_forall. intros e He.
  destruct (entries_of_In _ _ _ _ He) as (Hq & r' & Hr & Ht).
  rewrite Forall_forall in Hall. specialize (Hall r' Hr).
  unfold before. cbn [spawn_time sequence]. rewrite Ht.
  destruct (Qle_lt_or_eq _ _ Hall) as [Hlt | Heq].
  - left. lra.
  - right. split; [rewrite Heq; reflexivity | lia].
Qed.

Lemma same_number_same_entry (l : list Entry) (a b : Entry) :
  NoDup (map sequence l) -> In a l -> In b l ->
  sequence a = sequence b -> a = b.
Proof.
  induction l as [|x l IH]; intros Hn Ha Hb Hs; [destruct Ha|].
  cbn in Hn. inversion Hn as [|? ? Hx Hl]. subst.
  destruct Ha as [<- | Ha]; destruct Hb as [<- | Hb].
  - reflexivity.
  - exfalso. apply Hx. rewrite Hs. apply in_map. exact Hb.
  - exfalso. apply Hx. rewrite <- Hs. apply in_map. exact Ha.
  - apply IH; assumption.
Qed.

Lemma before_antisym (a b : Entry) :
  before a b -> before b a -> sequence a = sequence b.
Proof.
  unfold before. intros [H1 | [H1 S1]] [H2 | [H2 S2]].
  - exfalso. apply (Qlt_irrefl (spawn_time a)). apply (Qlt_trans _ _ _ H1 H2).
  - exfalso. rewrite H2 in H1. apply (Qlt_irrefl _ H1).
  - exfalso. rewrite H1 in H2. apply (Qlt_irrefl _ H2).
  - lia.
Qed.

(** Two sorted arrangements of the same entries are the same list. *)
Lemma sorted_perm_unique {A : Type} (R : A -> A -> Prop) (l1 : list A) :
  forall l2, Permutation l1 l2 ->
  StronglySorted R l1 -> StronglySorted R l2 ->
  (forall a b, In a l1 -> In b l1 -> R a b -> R b a -> a = b) ->
  l1 = l2.
Proof.
  induction l1 as [|a l1 IH]; intros l2 P S1 S2 anti.
  - apply Permutation_nil in P. subst. reflexivity.
  - destruct l2 as [|b l2];
      [apply Permutation_sym, Permutation_nil in P; discriminate|].
    inversion S1 as [|? ? S1' F1]. inversion S2 as [|? ? S2' F2]. subst.
    rewrite Forall_forall in F1, F2.
    assert (Hab : a = b).
    { assert (Ha : In a (b :: l2))
        by (apply (Permutation_in _ P); left; reflexivity).
      assert (Hb : In b (a :: l1))
        by (apply (Permutation_in _ (Permutation_sym P)); left; reflexivity).
      destruct Ha as [Ha | Ha]; [symmetry; exact Ha|].
      destruct Hb as [Hb | Hb]; [exact Hb|].
      apply anti; [left; reflexivity | right; exact Hb
                  | apply F1; exact Hb | apply F2; exact Ha]. }
    subst b. f_equal. apply IH; try assumption.
    + apply (Permutation_cons_inv P).
    + intros x y Hx Hy. apply anti; right; assumption.
Qed.

(** Spawns queued one after the other with delays that do not
    decrease, and all due by the next update, are materialised in the
    order in which they were submitted; in particular spawns queued for
    the same instant come out first in, first out. *)
Theorem due_spawns_keep_submission_order
    (dt : Q) (reqs : list Request) (s : t) :
  pending_spawns s = [] ->
  StronglySorted (fun r1 r2 => delay_of r1 <= delay_of r2) reqs ->
  Forall (fun r => delay_of r <= dt) reqs ->
  calls (update_spawns dt (queue_all reqs s))
    = calls s ++ map call_asked reqs /\
  pending_spawns (update_spawns dt (queue_all reqs s)) = [].
Proof.
  intros Hp Hs Hd.
  destruct (queue_all_fields reqs s) as (E1 & E2 & E3).
  rewrite Hp in E1. cbn [app] in E1.
  set (entries := entries_of (wave_timer s) (spawn_sequence s) reqs) in *.
  destruct (update_spawns_spec dt (queue_all reqs s))
    as (popped & C & P & Srt & _ & Late & _).
  rewrite E1 in P. rewrite E2 in Late. rewrite C, E3.
  assert (Hnil : pending_spawns (update_spawns dt (queue_all reqs s)) = []).
  { destruct (pending_spawns (update_spawns dt (queue_all reqs s)))
      as [|e rest]; [reflexivity|]. exfalso.
    inversion Late as [|? ? He _]. subst.
    assert (Hin : In e entries)
      by (apply (Permutation_in _ P); apply in_or_app; right; left;
          reflexivity).
    destruct (entries_of_In _ _ _ _ Hin) as (_ & r & Hr & Ht).
    rewrite Forall_forall in Hd. specialize (Hd r Hr).
    rewrite Ht in He. lra. }
  split; [|exact Hnil].
  rewrite Hnil, app_nil_r in P.
  assert (Heq : popped = entries).
  { apply (sorted_perm_unique before); try assumption.
    - apply entries_of_sorted. exact Hs.
    - intros a b Ha Hb Hab Hba.
      apply (same_number_same_entry entries).
      + apply entries_of_NoDup.
      + apply (Permutation_in _ P). exact Ha.
      + apply (Permutation_in _ P). exact Hb.
      + apply before_antisym; assumption. }
  rewrite Heq. unfold entries. rewrite entries_of_calls. reflexivity.
Qed.

(** ** The spawn plan of a wave *)

Lemma random_positions_spec (draws : Draws) (first : nat) (count : Z) :
  length (random_positions draws first count) = Z.to_nat count /\
  Forall (fun x => 0 <= x /\ x < WORLD_WIDTH)
         (random_positions draws first count).
Proof.
  unfold random_positions.
  destruct (count <=? 0)%Z eqn:E.
  - apply Z.leb_le in E. split; [cbn; lia | constructor].
  - cbv zeta. split; [rewrite length_map, length_seq; reflexivity|].
    apply Forall_forall. intros x Hx. apply in_map_iff in Hx.
    destruct Hx as (i & <- & _). apply py_mod_range. reflexivity.
Qed.

(** The entries one category adds. *)
Definition planned (f : SpawnFunc) (t0 : Q) (e : Entry) : Prop :=
  func e = f /\ t0 <= spawn_time e /\
  exists x, args e = [x] /\ 0 <= x /\ x < WORLD_WIDTH.

Lemma queue_each_spec (xs : list Q) :
  forall start gap f s,
    0 <= gap ->
    Forall (fun x => 0 <= x /\ x < WORLD_WIDTH) xs ->
    exists added,
      pending_spawns (queue_each start gap f xs s)
        = pending_spawns s ++ added /\
      length added = length xs /\
      Forall (planned f (wave_timer s + start)) added /\
      spawn_sequence (queue_each start gap f xs s)
        = (spawn_sequence s + Z.of_nat (length xs))%Z /\
      wave_timer (queue_each start gap f xs s) = wave_timer s /\
      wave (queue_each start gap f xs s) = wave s /\
      total_wave_aliens (queue_each start gap f xs s) = total_wave_aliens s /\
      remaining_aliens (queue_each start gap f xs s) = remaining_aliens s.
Proof.
  induction xs as [|x r IH]; intros start gap f s Hg Hx.
  - exists []. cbn. rewrite app_nil_r. repeat split; [constructor|lia].
  - cbn [queue_each]. inversion Hx as [|? ? Hx0 Hr]. subst.
    set (s1 := queue_spawn start f [x] s).
    assert (H1 : pending_spawns s1
                 = pending_spawns s
                   ++ [mkEntry (wave_timer s + start) (spawn_sequence s + 1)
                               f [x]] /\
                 spawn_sequence s1 = (spawn_sequence s + 1)%Z /\
                 wave_timer s1 = wave_timer s /\ wave s1 = wave s /\
                 total_wave_aliens s1 = total_wave_aliens s /\
                 remaining_aliens s1 = remaining_aliens s)
      by (unfold s1; destruct s; repeat split).
    destruct H1 as (P1 & Q1 & W1 & V1 & T1 & R1).
    destruct (IH (start + gap) gap f s1 Hg Hr)
      as (added & P & L & F & Sq & W & V & T & R).
    exists (mkEntry (wave_timer s + start) (spawn_sequence s + 1) f [x]
            :: added).
    rewrite P, Sq, W, V, T, R, P1, Q1, W1, V1, T1, R1, <- app_assoc.
    split; [reflexivity|]. split; [cbn; rewrite L; reflexivity|].
    split.
    + constructor.
      * split; [reflexivity|]. split; [apply Qle_refl|].
        exists x. cbn. repeat split; apply Hx0.
      * eapply Forall_impl; [|exact F]. unfold planned.
        intros e (Hf & Ht & Ha). split; [exact Hf|]. split; [|exact Ha].
        rewrite W1 in Ht. lra.
    + repeat split. cbn [length]. rewrite Nat2Z.inj_succ. lia.
Qed.

Lemma queue_category_spec
    (draws : Draws) (first : nat) (count : Z) (f : SpawnFunc)
    (start gap : Q) (s : t) :
  0 <= gap ->
  exists added,
    pending_spawns (queue_category draws first count f start gap s)
      = pending_spawns s ++ added /\
    length added = Z.to_nat count /\
    Forall (planned f (wave_timer s + start)) added /\
    spawn_sequence (queue_category draws first count f start gap s)
      = (spawn_sequence s + Z.of_nat (length added))%Z /\
    wave_timer (queue_category draws first count f start gap s)
      = wave_timer s /\
    wave (queue_category draws first count f start gap s) = wave s /\
    total_wave_aliens (queue_category draws first count f start gap s)
      = total_wave_aliens s /\
    remaining_aliens (queue_category draws first count f start gap s)
      = remaining_aliens s.
Proof.
  intro Hg. unfold queue_category.
  destruct (count <=? 0)%Z eqn:E.
  - apply Z.leb_le in E. exists []. rewrite app_nil_r. cbn.
    repeat split; [lia | constructor | lia].
  - destruct (random_positions_spec draws first count) as (L & F).
    destruct (queue_each_spec (random_positions draws first count)
                start gap f s Hg F) as (added & P & La & Fa & Sq & Rest).
    exists added.
    split; [exact P|]. split; [rewrite La; exact L|]. split; [exact Fa|].
    split; [rewrite Sq, La; reflexivity | exact Rest].
Qed.

(** How many pending entries call [f]. *)
Definition count_of (f : SpawnFunc) (heap : list Entry) : nat :=
  length (filter (fun e => SpawnFunc_eqb (func e) f) heap).

Lemma count_of_app (f : SpawnFunc) (a b : list Entry) :
  count_of f (a ++ b) = (count_of f a + count_of f b)%nat.
Proof. unfold count_of. rewrite filter_app, length_app. reflexivity. Qed.

Lemma count_of_planned (f g : SpawnFunc) (t0 : Q) (added : list Entry) :
  Forall (planned g t0) added ->
  count_of f added = if SpawnFunc_eqb g f then length added else O.
Proof.
  induction 1 as [|e l (Hf & _) _ IH]; [destruct (SpawnFunc_eqb g f);
                                        reflexivity|].
  unfold count_of in *. cbn [filter]. rewrite Hf.
  destruct (SpawnFunc_eqb g f); cbn [length]; rewrite IH; reflexivity.
Qed.

Lemma spawn_wave_enemies_spec (draws : Draws) (s : t) :
  count_of spawn_lander (pending_spawns (spawn_wave_enemies draws s))
    = Z.to_nat (landers (wave_composition (wave s))) /\
  count_of spawn_bomber (pending_spawns (spawn_wave_enemies draws s))
    = Z.to_nat (bombers (wave_composition (wave s))) /\
  count_of spawn_pod (pending_spawns (spawn_wave_enemies draws s))
    = Z.to_nat (pods (wave_composition (wave s))) /\
  length (pending_spawns (spawn_wave_enemies draws s))
    = (Z.to_nat (landers (wave_composition (wave s)))
       + Z.to_nat (bombers (wave_composition (wave s)))
       + Z.to_nat (pods (wave_composition (wave s))))%nat /\
  spawn_sequence (spawn_wave_enemies draws s)
    = (spawn_sequence s
       + Z.of_nat (length (pending_spawns (spawn_wave_enemies draws s))))%Z /\
  Forall (fun e => wave_timer s + 0.5 <= spawn_time e /\
                   exists x, args e = [x] /\ 0 <= x /\ x < WORLD_WIDTH)
         (pending_spawns (spawn_wave_enemies draws s)) /\
  total_wave_aliens (spawn_wave_enemies draws s) = 0%Z /\
  remaining_aliens (spawn_wave_enemies draws s) = 0%Z /\
  wave_timer (spawn_wave_enemies draws s) = wave_timer s.
Proof.
  unfold spawn_wave_enemies. cbv zeta.
  set (c := wave_composition (wave s)).
  set (s0 := s <| remaining_aliens := 0%Z |> <| total_wave_aliens := 0%Z |>
               <| pending_spawns := [] |>).
  assert (H0 : pending_spawns s0 = [] /\ spawn_sequence s0 = spawn_sequence s
               /\ wave_timer s0 = wave_timer s /\ wave s0 = wave s
               /\ total_wave_aliens s0 = 0%Z /\ remaining_aliens s0 = 0%Z)
    by (unfold s0; destruct s; repeat split).
  destruct H0 as (P0 & Q0 & W0 & V0 & T0 & R0).
  replace (wave (s <| remaining_aliens := 0%Z |>
                   <| total_wave_aliens := 0%Z |>)) with (wave s)
    by (destruct s; reflexivity).
  fold c. fold s0.
  destruct (queue_category_spec draws 0 (landers c) spawn_lander 0.5 1 s0)
    as (a1 & P1 & L1 & F1 & Q1 & W1 & V1 & T1 & R1); [lra|].
  set (s1 := queue_category draws 0 (landers c) spawn_lander 0.5 1 s0) in *.
  destruct (queue_category_spec draws (Z.to_nat (landers c)) (bombers c)
              spawn_bomber (if (wave s1 <? 6)%Z then 12 else 8) 3 s1)
    as (a2 & P2 & L2 & F2 & Q2 & W2 & V2 & T2 & R2); [lra|].
  set (s2 := queue_category draws (Z.to_nat (landers c)) (bombers c)
               spawn_bomber (if (wave s1 <? 6)%Z then 12 else 8) 3 s1) in *.
  destruct (queue_category_spec draws
              (Z.to_nat (landers c) + Z.to_nat (bombers c)) (pods c)
              spawn_pod 24 3.8 s2)
    as (a3 & P3 & L3 & F3 & Q3 & W3 & V3 & T3 & R3); [lra|].
  rewrite P3, P2, P1, P0, Q3, Q2, Q1, Q0, W3, W2, W1, W0, T3, T2, T1, T0,
    R3, R2, R1, R0.
  cbn [app]. rewrite !count_of_app, !length_app.
  rewrite (count_of_planned spawn_lander _ _ _ F1),
    (count_of_planned spawn_lander _ _ _ F2),
    (count_of_planned spawn_lander _ _ _ F3),
    (count_of_planned spawn_bomber _ _ _ F1),
    (count_of_planned spawn_bomber _ _ _ F2),
    (count_of_planned spawn_bomber _ _ _ F3),
    (count_of_planned spawn_pod _ _ _ F1),
    (count_of_planned spawn_pod _ _ _ F2),
    (count_of_planned spawn_pod _ _ _ F3).
  cbn [SpawnFunc_eqb]. rewrite L1, L2, L3.
  split; [lia|]. split; [lia|]. split; [lia|]. split; [lia|].
  split; [lia|]. split; [|repeat split].
  rewrite W2, W1, W0 in F3. rewrite W1, W0 in F2. rewrite W0 in F1.
  apply Forall_app. split; [apply Forall_app; split|].
  - eapply Forall_impl; [|exact F1]. unfold planned.
    intros e (_ & Ht & Ha).
    split; [exact Ht | exact Ha].
  - eapply Forall_impl; [|exact F2]. unfold planned.
    intros e (_ & Ht & Ha).
    split; [|exact Ha]. destruct (wave s1 <? 6)%Z; lra.
  - eapply Forall_impl; [|exact F3]. unfold planned.
    intros e (_ & Ht & Ha).
    split; [|exact Ha]. lra.
Qed.

(** [spawn_wave_enemies] queues exactly the landers, bombers and pods
    of the wave's composition and nothing else (a count that is not
    positive queues nothing): the counters of aliens are reset, every
    entry carries one column in [[0, WORLD_WIDTH)], none is due before
    half a second has passed, and the sequence counter has advanced by
    the number of entries. *)
Theorem spawn_wave_enemies_plan (draws : Draws) (s : t) :
  count_of spawn_lander (pending_spawns (spawn_wave_enemies draws s))
    = Z.to_nat (landers (wave_composition (wave s))) /\
  count_of spawn_bomber (pending_spawns (spawn_wave_enemies draws s))
    = Z.to_nat (bombers (wave_composition (wave s))) /\
  count_of spawn_pod (pending_spawns (spawn_wave_enemies draws s))
    = Z.to_nat (pods (wave_composition (wave s))) /\
  length (pending_spawns (spawn_wave_enemies draws s))
    = (Z.to_nat (landers (wave_composition (wave s)))
       + Z.to_nat (bombers (wave_composition (wave s)))
       + Z.to_nat (pods (wave_composition (wave s))))%nat /\
  spawn_sequence (spawn_wave_enemies draws s)
    = (spawn_sequence s
       + Z.of_nat (length (pending_spawns (spawn_wave_enemies draws s))))%Z /\
  Forall (fun e => wave_timer s + 0.5 <= spawn_time e /\
                   exists x, args e = [x] /\ 0 <= x /\ x < WORLD_WIDTH)
         (pending_spawns (spawn_wave_enemies draws s)) /\
  total_wave_aliens (spawn_wave_enemies draws s) = 0%Z /\
  remaining_aliens (spawn_wave_enemies draws s) = 0%Z /\
  wave_timer (spawn_wave_enemies draws s) = wave_timer s.
Proof. exact (spawn_wave_enemies_spec draws s). Qed.

(** ** A first wave *)

(** The scheduler as [DefenderGame.__init__] leaves it. *)
Definition fresh_wave : t := mk 1 0 0 [] 0 0 [].

(** Three spawns asked for the same instant, by different methods. *)
Definition together : list Request :=
  [(1, spawn_lander, [100]); (1, spawn_bomber, [200]); (1, spawn_pod, [300])].

Lemma due_spawns_keep_submission_order_witness :
  calls (update_spawns 2 (queue_all together fresh_wave))
    = [(spawn_lander, [100]); (spawn_bomber, [200]); (spawn_pod, [300])] /\
  pending_spawns (update_spawns 2 (queue_all together fresh_wave)) = [].
Proof.
  apply (due_spawns_keep_submission_order 2 together fresh_wave).
  - reflexivity.
  - repeat constructor; vm_compute; discriminate.
  - repeat constructor; vm_compute; discriminate.
Defined.

Lemma sequence_numbers_keep_entries_apart_witness :
  well_numbered (queue_all together (clear_wave_state fresh_wave)) /\
  tuple_lt (mkEntry 1 1 spawn_lander [100]) (mkEntry 1 2 spawn_bomber [200])
    = Less.
Proof.
  destruct (sequence_numbers_keep_entries_apart fresh_wave) as (H0 & _).
  destruct (sequence_numbers_keep_entries_apart (clear_wave_state fresh_wave))
    as (_ & K0).
  destruct (K0 H0) as (Q1 & _).
  specialize (Q1 1 spawn_lander [100]).
  destruct (sequence_numbers_keep_entries_apart
              (queue_spawn 1 spawn_lander [100] (clear_wave_state fresh_wave)))
    as (_ & K1).
  destruct (K1 Q1) as (Q2 & _).
  specialize (Q2 1 spawn_bomber [200]).
  destruct (sequence_numbers_keep_entries_apart
              (queue_spawn 1 spawn_bomber [200]
                 (queue_spawn 1 spawn_lander [100]
                    (clear_wave_state fresh_wave))))
    as (_ & K2).
  destruct (K2 Q2) as (Q3 & _).
  split; [exact (Q3 1 spawn_pod [300]) | reflexivity].
Defined.

(** Spawns asked out of order: the update after five seconds brings out
    the two due at 1 in the order asked, then the one due at 3, and
    leaves the one due at 9. *)
Example update_spawns_example :
  calls (update_spawns 5
           (queue_all [(3, spawn_lander, [10]); (1, spawn_bomber, [20]);
                       (1, spawn_pod, [30]); (9, spawn_lander, [40])]
                      fresh_wave))
  = [(spawn_bomber, [20]); (spawn_pod, [30]); (spawn_lander, [10])].
Proof. reflexivity. Qed.

Lemma spawn_wave_enemies_plan_witness :
  length (pending_spawns
            (spawn_wave_enemies Teleport.unit_draws
               (mk 5 0 0 [] 0 0 []))) = 26%nat.
Proof.
  destruct (spawn_wave_enemies_plan Teleport.unit_draws (mk 5 0 0 [] 0 0 []))
    as (_ & _ & _ & L & _).
  exact L.
Defined.

End Scheduler.
